(** * Blokus Builder (reverse groove): a shallow embedding of blokus_builder.py

    The add-on computes with Python [int]s (grid cells, tile indices) and
    Python [float]s (millimetres).  Integers are [Z].  Floats are reached
    through the interface [PyNum], which has two instances:

    - [float_PyNum]: IEEE 754 binary64, the arithmetic Python runs;
    - [Q_PyNum]: exact rationals, the arithmetic the geometry is meant in.

    Statements that only follow the control flow of the code are proved for
    every instance.  Statements about lengths and positions are about the
    binary64 run: the floats it computes are taken at their exact values
    ([valQ]), and what exact arithmetic gives is proved of them where the
    run goes without rounding, which is a hypothesis that can be checked
    on an input; where it rounds, the lengths can be off by the rounding
    error, as the counterexamples show.

    Blender is reached through [bpy]: what the add-on asks for (primitives
    with their location and scale, joins, modifiers) is recorded as data;
    what Blender computes by itself (the result of a Boolean solver) is a
    parameter of the model.  A Python function that can raise returns a
    [result]. *)

From Stdlib Require Import ZArith QArith Qminmax List Bool Lia Lqa String FinFun.
From Stdlib Require Import Sorted Permutation.
From Stdlib Require Import PrimFloat Uint63 FloatOps SpecFloat.
Import ListNotations.

Set Implicit Arguments.

(** * Part I: the model *)

(** ** Numbers *)

Class PyNum (R : Type) := {
  nadd : R -> R -> R;
  nsub : R -> R -> R;
  nmul : R -> R -> R;
  ndiv : R -> R -> R;
  nneg : R -> R;
  nltb : R -> R -> bool;
  nleb : R -> R -> bool;
  of_int : Z -> R;
  lit : Q -> R
}.

Declare Scope py_scope.
Delimit Scope py_scope with py.
Infix "+" := nadd : py_scope.
Infix "-" := nsub : py_scope.
Infix "*" := nmul : py_scope.
Infix "/" := ndiv : py_scope.
Notation "- a" := (nneg a) : py_scope.
Infix "<?" := nltb : py_scope.
Infix "<=?" := nleb : py_scope.
Notation "a >? b" := (nltb b a) (at level 70, only parsing) : py_scope.
Notation "a >=? b" := (nleb b a) (at level 70, only parsing) : py_scope.

(** Exact rationals.  [a < b] is decided through [Qle_bool]. *)
Definition Qlt_bool (a b : Q) : bool := negb (Qle_bool b a).

#[export] Instance Q_PyNum : PyNum Q := {|
  nadd := Qplus; nsub := Qminus; nmul := Qmult; ndiv := Qdiv;
  nneg := Qopp; nltb := Qlt_bool; nleb := Qle_bool;
  of_int := inject_Z;
  lit := fun q => q
|}.

(** Binary64.  A Python [int] becomes the nearest float, ties to even
    (the float of the same value below 2^53); an [int] beyond the range
    of the floats, on which Python raises OverflowError, becomes an
    infinity: the integers of the add-on are grid and tile indices.  A
    decimal literal [n/d] is the correctly rounded quotient, which is the
    float the Python parser produces for it. *)
Definition float_of_Z (z : Z) : float :=
  SF2Prim (binary_normalize prec emax z 0 false).

Definition float_of_Q (q : Q) : float :=
  PrimFloat.div (float_of_Z (Qnum q)) (float_of_Z (Zpos (Qden q))).

#[export] Instance float_PyNum : PyNum float := {|
  nadd := PrimFloat.add; nsub := PrimFloat.sub;
  nmul := PrimFloat.mul; ndiv := PrimFloat.div;
  nneg := PrimFloat.opp; nltb := PrimFloat.ltb; nleb := PrimFloat.leb;
  of_int := float_of_Z;
  lit := float_of_Q
|}.

(** ** Python results *)

Inductive exn : Type :=
| ValueError (msg : string)
| IndexError (msg : string)
| ZeroDivisionError (msg : string)
| RuntimeError (msg : string)
| OSError (msg : string).

Inductive result (A : Type) : Type :=
| Ok (a : A)
| Raise (e : exn).
Arguments Ok {A} a.
Arguments Raise {A} e.

Definition bind {A B} (r : result A) (k : A -> result B) : result B :=
  match r with
  | Ok a => k a
  | Raise e => Raise e
  end.

Notation "x <- c ;; k" := (bind c (fun x => k))
  (at level 61, c at next level, right associativity).
Notation "' p <- c ;; k" := (bind c (fun x => let 'p := x in k))
  (at level 61, p pattern, c at next level, right associativity).

(** ** 3. Property group *)

Inductive ExportMode := PER_PIECE | PER_COLOR | BOARD_TILES.

Record BLK_Properties (R : Type) := {
  cell : R;
  clear : R;
  board_t : R;
  rib_w : R;
  rib_h : R;
  frame_w : R;
  piece_t : R;
  bevel_top : R;
  bevel_bottom : R;
  split_x : Z;
  split_y : Z;
  dowel_d : R;
  dowel_len : R;
  dowel_clear : R;
  export_mode : ExportMode;
  apply_transforms : bool;
  color_red : bool;
  color_blue : bool;
  color_yellow : bool;
  color_green : bool;
  make_board : bool;
  make_pieces : bool;
  keep_cutters : bool;
  layout_gap : R
}.

(** The [default=] of every property. *)
Definition default_params {R} `{PyNum R} : BLK_Properties R := {|
  cell := lit 20.0;
  clear := lit 0.20;
  board_t := lit 1.8;
  rib_w := lit 1.2;
  rib_h := lit 0.9;
  frame_w := lit 8.0;
  piece_t := lit 3.2;
  bevel_top := lit 0.4;
  bevel_bottom := lit 0.2;
  split_x := 2;
  split_y := 2;
  dowel_d := lit 6.0;
  dowel_len := lit 4.0;
  dowel_clear := lit 0.2;
  export_mode := PER_PIECE;
  apply_transforms := true;
  color_red := true;
  color_blue := true;
  color_yellow := true;
  color_green := true;
  make_board := true;
  make_pieces := true;
  keep_cutters := false;
  layout_gap := lit 2.0
|}.

Definition set_clear {R} (c : R) (p : BLK_Properties R) : BLK_Properties R := {|
  cell := cell p; clear := c; board_t := board_t p; rib_w := rib_w p;
  rib_h := rib_h p; frame_w := frame_w p; piece_t := piece_t p;
  bevel_top := bevel_top p; bevel_bottom := bevel_bottom p;
  split_x := split_x p; split_y := split_y p; dowel_d := dowel_d p;
  dowel_len := dowel_len p; dowel_clear := dowel_clear p;
  export_mode := export_mode p; apply_transforms := apply_transforms p;
  color_red := color_red p; color_blue := color_blue p;
  color_yellow := color_yellow p; color_green := color_green p;
  make_board := make_board p; make_pieces := make_pieces p;
  keep_cutters := keep_cutters p; layout_gap := layout_gap p
|}.

Definition set_piece_t {R} (t : R) (p : BLK_Properties R) : BLK_Properties R := {|
  cell := cell p; clear := clear p; board_t := board_t p; rib_w := rib_w p;
  rib_h := rib_h p; frame_w := frame_w p; piece_t := t;
  bevel_top := bevel_top p; bevel_bottom := bevel_bottom p;
  split_x := split_x p; split_y := split_y p; dowel_d := dowel_d p;
  dowel_len := dowel_len p; dowel_clear := dowel_clear p;
  export_mode := export_mode p; apply_transforms := apply_transforms p;
  color_red := color_red p; color_blue := color_blue p;
  color_yellow := color_yellow p; color_green := color_green p;
  make_board := make_board p; make_pieces := make_pieces p;
  keep_cutters := keep_cutters p; layout_gap := layout_gap p
|}.

Definition set_split {R} (sx sy : Z) (p : BLK_Properties R) : BLK_Properties R := {|
  cell := cell p; clear := clear p; board_t := board_t p; rib_w := rib_w p;
  rib_h := rib_h p; frame_w := frame_w p; piece_t := piece_t p;
  bevel_top := bevel_top p; bevel_bottom := bevel_bottom p;
  split_x := sx; split_y := sy; dowel_d := dowel_d p;
  dowel_len := dowel_len p; dowel_clear := dowel_clear p;
  export_mode := export_mode p; apply_transforms := apply_transforms p;
  color_red := color_red p; color_blue := color_blue p;
  color_yellow := color_yellow p; color_green := color_green p;
  make_board := make_board p; make_pieces := make_pieces p;
  keep_cutters := keep_cutters p; layout_gap := layout_gap p
|}.

(** ** 4.2 Validation of the parameters *)

(** The four messages of [validate_params]; the two f-strings keep the
    number they print. *)
Inductive ParamMsg (R : Type) : Type :=
| Msg_remaining_wall (remaining : R)
| Msg_clearance_negative
| Msg_clearance_large (clear : R)
| Msg_groove_not_wider.
Arguments Msg_clearance_negative {R}.
Arguments Msg_groove_not_wider {R}.

(** [msgs.append(m)] under an [if]. *)
Definition append_if {A} (c : bool) (m : A) (msgs : list A) : list A :=
if c then msgs ++ [m] else msgs.

Section Validation.
Context {R : Type} `{PyNum R}.
Local Open Scope py_scope.

Definition groove_w (p : BLK_Properties R) : R := rib_w p + of_int 2 * clear p.

Definition groove_d (p : BLK_Properties R) : R := rib_h p + lit 0.25.

Definition remaining (p : BLK_Properties R) : R := piece_t p - groove_d p.

Definition validate_params (p : BLK_Properties R) : bool * list (ParamMsg R) :=
let msgs := [] in
let msgs := append_if (remaining p <? lit 1.6)
                      (Msg_remaining_wall (remaining p)) msgs in
let msgs := append_if (clear p <? of_int 0) Msg_clearance_negative msgs in
let msgs := append_if (clear p >? lit 0.35)
                      (Msg_clearance_large (clear p)) msgs in
let msgs := append_if (groove_w p <=? rib_w p) Msg_groove_not_wider msgs in
(Nat.eqb (List.length msgs) 0, msgs).

(** The invariants of a parameter record other than the upper end of the
    clearance range: enough wall, clearance not negative, groove wider than
    the rib. *)
Definition other_invariants_hold (p : BLK_Properties R) : bool :=
negb (remaining p <? lit 1.6) && negb (clear p <? of_int 0)
&& negb (groove_w p <=? rib_w p).

End Validation.

(** ** 4. Piece definitions (the 21 standard shapes) *)

Definition Cell : Type := Z * Z.
Definition Vertex : Type := Z * Z.
Definition Edge : Type := Vertex * Vertex.

Local Open Scope Z_scope.

(** The dict literal, in its insertion order. *)
Definition PIECES : list (string * list Cell) := [
  ("I1"%string, [(0, 0)]);
  ("I2"%string, [(0, 0); (1, 0)]);
  ("I3"%string, [(0, 0); (1, 0); (2, 0)]);
  ("L3"%string, [(0, 0); (1, 0); (1, 1)]);
  ("I4"%string, [(0, 0); (1, 0); (2, 0); (3, 0)]);
  ("L4"%string, [(0, 0); (1, 0); (2, 0); (2, 1)]);
  ("T4"%string, [(0, 0); (1, 0); (2, 0); (1, 1)]);
  ("O4"%string, [(0, 0); (1, 0); (0, 1); (1, 1)]);
  ("S4"%string, [(0, 0); (1, 0); (1, 1); (2, 1)]);
  ("F5"%string, [(1, 0); (2, 0); (0, 1); (1, 1); (1, 2)]);
  ("I5"%string, [(0, 0); (1, 0); (2, 0); (3, 0); (4, 0)]);
  ("L5"%string, [(0, 0); (1, 0); (2, 0); (3, 0); (3, 1)]);
  ("N5"%string, [(0, 0); (1, 0); (1, 1); (2, 1); (3, 1)]);
  ("P5"%string, [(0, 0); (1, 0); (0, 1); (1, 1); (0, 2)]);
  ("T5"%string, [(0, 0); (1, 0); (2, 0); (1, 1); (1, 2)]);
  ("U5"%string, [(0, 0); (2, 0); (0, 1); (1, 1); (2, 1)]);
  ("V5"%string, [(0, 0); (0, 1); (0, 2); (1, 2); (2, 2)]);
  ("W5"%string, [(0, 0); (0, 1); (1, 1); (1, 2); (2, 2)]);
  ("X5"%string, [(1, 0); (0, 1); (1, 1); (2, 1); (1, 2)]);
  ("Y5"%string, [(0, 0); (1, 0); (2, 0); (3, 0); (1, 1)]);
  ("Z5"%string, [(0, 0); (1, 0); (1, 1); (1, 2); (2, 2)])
].

(** ** Insertion-ordered dictionaries

    [defaultdict] keeps its keys in the order of their first use, and the
    outline walk depends on that order: an association list, updated in
    place when the key is present and extended at the end when it is not. *)

Section Dict.
Context {K V : Type} (keq : K -> K -> bool).

Fixpoint dict_get (d : list (K * V)) (k : K) : option V :=
match d with
| [] => None
| (k', v) :: d' => if keq k' k then Some v else dict_get d' k
end.

(** [d[k] = f(d[k])] on a [defaultdict] whose factory yields [dflt]. *)
Fixpoint dict_update (dflt : V) (f : V -> V) (k : K) (d : list (K * V)) : list (K * V) :=
match d with
| [] => [(k, f dflt)]
| (k', v) :: d' =>
    if keq k' k then (k', f v) :: d' else (k', v) :: dict_update dflt f k d'
end.

Definition dict_get_default (dflt : V) (d : list (K * V)) (k : K) : V :=
match dict_get d k with
| Some v => v
| None => dflt
end.

End Dict.

(** ** 5.3.1 Piece outline: cells -> contour *)

Definition vertex_eqb (a b : Vertex) : bool :=
(fst a =? fst b) && (snd a =? snd b).

(** Tuple comparison [a < b]: lexicographic. *)
Definition vertex_ltb (a b : Vertex) : bool :=
(fst a <? fst b) || ((fst a =? fst b) && (snd a <? snd b)).

Definition edge_eqb (e f : Edge) : bool :=
vertex_eqb (fst e) (fst f) && vertex_eqb (snd e) (snd f).

(** [tuple(sorted(e))] for a pair; [sorted] is stable, so the pair is
    swapped only when the second end is strictly smaller. *)
Definition sorted_key (e : Edge) : Edge :=
let (a, b) := e in if vertex_ltb b a then (b, a) else (a, b).

(** The four edges of the unit square at [(cx, cy)]: bottom, right, top,
    left. *)
Definition cell_edges (c : Cell) : list Edge :=
let (cx, cy) := c in
[ ((cx, cy), (cx + 1, cy));
  ((cx + 1, cy), (cx + 1, cy + 1));
  ((cx, cy + 1), (cx + 1, cy + 1));
  ((cx, cy), (cx, cy + 1)) ].

(** The first loop: [edge_count[key] += 1] for every edge of every cell. *)
Definition count_edges (cells : list Cell) : list (Edge * Z) :=
fold_left
  (fun (edge_count : list (Edge * Z)) (c : Cell) =>
     fold_left
       (fun (edge_count : list (Edge * Z)) (e : Edge) => dict_update edge_eqb 0 Z.succ (sorted_key e) edge_count)
       (cell_edges c) edge_count)
  cells [].

(** [[e for e, c in edge_count.items() if c == 1]]. *)
Definition boundary_edges (cells : list Cell) : list Edge :=
map fst (filter (fun ec => snd ec =? 1) (count_edges cells)).

(** [adj[a].append(b); adj[b].append(a)] for every boundary edge. *)
Definition build_adj (boundary : list Edge) : list (Vertex * list Vertex) :=
fold_left
  (fun (adj : list (Vertex * list Vertex)) (e : Edge) =>
     let (a, b) := e in
     let adj := dict_update vertex_eqb [] (fun l : list Vertex => l ++ [b]) a adj in
     dict_update vertex_eqb [] (fun l : list Vertex => l ++ [a]) b adj)
  boundary [].

Definition edge_mem (e : Edge) (s : list Edge) : bool := existsb (edge_eqb e) s.

(** One pass of the [for nb in adj[current]] loop: the first neighbour
    whose edge has not been walked. *)
Definition next_vertex (adj : list (Vertex * list Vertex))
  (visited_edges : list Edge) (current : Vertex) : option Vertex :=
find (fun nb => negb (edge_mem (sorted_key (current, nb)) visited_edges))
     (dict_get_default vertex_eqb [] adj current).

(** The [while True] loop.  [fuel] bounds the number of iterations; the
    result is [None] only when the bound is reached before the loop breaks
    ([walk_loop_terminates] shows the bound used below is never reached). *)
Fixpoint walk_loop (fuel : nat) (adj : list (Vertex * list Vertex))
  (visited_edges : list Edge) (current : Vertex) (loop : list Vertex)
  : option (list Vertex) :=
match fuel with
| O => None
| S fuel' =>
    match next_vertex adj visited_edges current with
    | Some nb =>
        walk_loop fuel' adj (sorted_key (current, nb) :: visited_edges)
                  nb (loop ++ [nb])
    | None => Some loop
    end
end.

(** [if len(loop) > 1 and loop[-1] == loop[0]: loop.pop()]. *)
Definition drop_closing_vertex (loop : list Vertex) : list Vertex :=
match loop with
| [] => []
| first :: _ =>
    if (1 <? Z.of_nat (List.length loop)) && vertex_eqb (last loop first) first
    then removelast loop else loop
end.

Definition cells_to_outline (cells : list Cell) : option (list Vertex) :=
let boundary := boundary_edges cells in
let adj := build_adj boundary in
match boundary with
| [] => Some []
| (start, _) :: _ =>
    match walk_loop (S (List.length boundary)) adj [] start [start] with
    | Some loop => Some (drop_closing_vertex loop)
    | None => None
    end
end.

(** ** 4.2 Validation of the catalogue *)

(** The messages of [validate_pieces]. *)
Inductive PieceMsg : Type :=
| Msg_duplicate_cells (name : string)
| Msg_not_connected (name : string)
| Msg_total_cells (total_cells : Z)
| Msg_size_count (sz count expected : Z).

Definition cell_mem (c : Cell) (s : list Cell) : bool := existsb (vertex_eqb c) s.

(** [set(cells)]: the distinct cells. *)
Definition cell_set_of (cells : list Cell) : list Cell :=
fold_left (fun s c => if cell_mem c s then s else s ++ [c]) cells [].

(** [a == b] on sets. *)
Definition set_eqb (a b : list Cell) : bool :=
forallb (fun c => cell_mem c b) a && forallb (fun c => cell_mem c a) b.

(** The breadth-first [while queue] loop; [fuel] bounds the number of
    cells popped. *)
Fixpoint bfs_loop (fuel : nat) (cell_set visited queue : list Cell)
  : option (list Cell) :=
match fuel with
| O => None
| S fuel' =>
    match queue with
    | [] => Some visited
    | (cx, cy) :: queue =>
        let '(visited, queue) :=
          fold_left
            (fun (vq : list Cell * list Cell) (d : Z * Z) =>
               let (visited, queue) := vq in
               let nb := (cx + fst d, cy + snd d) in
               if cell_mem nb cell_set && negb (cell_mem nb visited)
               then (visited ++ [nb], queue ++ [nb])
               else (visited, queue))
            [(1, 0); (-1, 0); (0, 1); (0, -1)]
            (visited, queue) in
        bfs_loop fuel' cell_set visited queue
    end
end.

(** The body of the [for name, cells] loop: the messages it appends.
    [cells[0]] raises on a shape without cells; [None] stands for the
    fuel of the search running out. *)
Definition check_piece (name : string) (cells : list Cell)
  : option (result (list PieceMsg)) :=
let n := List.length cells in
let msgs := append_if (negb (Nat.eqb (List.length (cell_set_of cells)) n))
                      (Msg_duplicate_cells name) [] in
let cell_set := cell_set_of cells in
match cells with
| [] => Some (Raise (IndexError "list index out of range"))
| c0 :: _ =>
    match bfs_loop (S (S n)) cell_set [c0] [c0] with
    | None => None
    | Some visited =>
        Some (Ok (append_if (negb (set_eqb visited cell_set))
                            (Msg_not_connected name) msgs))
    end
end.

(** [validate_pieces] on a catalogue; the module-level function is the
    instance at [PIECES]. *)
Fixpoint check_pieces (pieces : list (string * list Cell))
  : option (result (list PieceMsg)) :=
match pieces with
| [] => Some (Ok [])
| (name, cells) :: rest =>
    match check_piece name cells with
    | None => None
    | Some (Raise e) => Some (Raise e)
    | Some (Ok m) =>
        match check_pieces rest with
        | None => None
        | Some (Raise e) => Some (Raise e)
        | Some (Ok ms) => Some (Ok (m ++ ms))
        end
    end
end.

Definition size_count (pieces : list (string * list Cell)) (sz : Z) : Z :=
Z.of_nat (List.length
            (filter (fun nc => Z.of_nat (List.length (snd nc)) =? sz) pieces)).

Definition validate_pieces_of (pieces : list (string * list Cell))
  : option (result (bool * list PieceMsg)) :=
match check_pieces pieces with
| None => None
| Some (Raise e) => Some (Raise e)
| Some (Ok msgs) =>
    let total_cells :=
      fold_left (fun t nc => t + Z.of_nat (List.length (snd nc))) pieces 0 in
    let msgs := append_if (negb (total_cells =? 89)) (Msg_total_cells total_cells) msgs in
    let expected := [(1, 1); (2, 1); (3, 2); (4, 5); (5, 12)] in
    let msgs :=
      fold_left
        (fun msgs (e : Z * Z) =>
           let (sz, cnt) := e in
           append_if (negb (size_count pieces sz =? cnt))
                     (Msg_size_count sz (size_count pieces sz) cnt) msgs)
        expected msgs in
    Some (Ok (Nat.eqb (List.length msgs) 0, msgs))
end.

Definition validate_pieces : option (result (bool * list PieceMsg)) :=
validate_pieces_of PIECES.

(** ** Python built-ins used on lists *)

(** [min(l)] and [max(l)]: the first extremal item, found by comparing
    each item with the best so far; [ValueError] on an empty list. *)
Definition py_min {A} (lt : A -> A -> bool) (l : list A) : result A :=
match l with
| [] => Raise (ValueError "min() arg is an empty sequence")
| x :: xs => Ok (fold_left (fun m y => if lt y m then y else m) xs x)
end.

Definition py_max {A} (lt : A -> A -> bool) (l : list A) : result A :=
match l with
| [] => Raise (ValueError "max() arg is an empty sequence")
| x :: xs => Ok (fold_left (fun m y => if lt m y then y else m) xs x)
end.

(** [list(range(a, b))]. *)
Definition py_range (a b : Z) : list Z :=
map (fun i => a + Z.of_nat i) (seq 0 (Z.to_nat (b - a))).

(** ** Blender objects

    The names the code gives to its objects (f-strings over integers) are
    kept as constructors. *)
Inductive ObjName : Type :=
| Named (s : string)
| Name_bar_x (gx : Z)
| Name_bar_y (gy : Z)
| Name_base (tile_x tile_y : Z)
| Name_ribX (gx : Z)
| Name_ribY (gy : Z)
| Name_frame_left
| Name_frame_right
| Name_frame_bottom
| Name_frame_top
| Name_reinforce_h (i : Z)
| Name_reinforce_v (i : Z)
| Name_dowel_post_r (tile_x tile_y di : Z)
| Name_dowel_hole_l (tile_x tile_y di : Z)
| Name_dowel_post_t (tile_x tile_y di : Z)
| Name_dowel_hole_b (tile_x tile_y di : Z)
| Name_BLK_B (tile_x tile_y : Z).

Definition Vec3 (R : Type) : Type := R * R * R.

Definition vec_x {R} (v : Vec3 R) : R := fst (fst v).
Definition vec_y {R} (v : Vec3 R) : R := snd (fst v).
Definition vec_z {R} (v : Vec3 R) : R := snd v.

(** What [bpy.ops.mesh.primitive_cube_add(size, location, scale)] and
    [primitive_cylinder_add(radius, depth, location, vertices)] create. *)
Inductive Primitive (R : Type) : Type :=
| Cube (size : R) (location scale : Vec3 R)
| Cylinder (radius depth : R) (location : Vec3 R) (vertices : Z).

(** A scene object made from one primitive: its name and the custom
    property ["_is_hole"] ([false] when the key is absent). *)
Record PrimObject (R : Type) := {
  ob_name : ObjName;
  ob_prim : Primitive R;
  ob_is_hole : bool
}.

(** The object left by [bpy.ops.object.join()]: the parts, under the name
    assigned afterwards. *)
Record JoinedObject (R : Type) := {
  joined_name : ObjName;
  joined_parts : list (PrimObject R)
}.

(** ** 5.3.2-3 Groove generation *)

Definition get_grid_lines_for_piece (cells : list Cell) : result (list Z * list Z) :=
let xs := map fst cells in
let ys := map snd cells in
min_x <- py_min Z.ltb xs ;;
max_x <- py_max Z.ltb xs ;;
min_y <- py_min Z.ltb ys ;;
max_y <- py_max Z.ltb ys ;;
let x_lines := py_range min_x (max_x + 2) in
let y_lines := py_range min_y (max_y + 2) in
Ok (x_lines, y_lines).

Section Groove.
Context {R : Type} `{PyNum R}.
Local Open Scope py_scope.

(** The physical footprint of the cells' bounding box:
    [(piece_x_min, piece_x_max, piece_y_min, piece_y_max)]. *)
Definition piece_footprint (cells : list Cell) (cell_size : R) : result (R * R * R * R) :=
let xs := map fst cells in
let ys := map snd cells in
min_x <- py_min Z.ltb xs ;;
max_x <- py_max Z.ltb xs ;;
min_y <- py_min Z.ltb ys ;;
max_y <- py_max Z.ltb ys ;;
let piece_x_min := of_int min_x * cell_size in
let piece_x_max := of_int (max_x + 1)%Z * cell_size in
let piece_y_min := of_int min_y * cell_size in
let piece_y_max := of_int (max_y + 1)%Z * cell_size in
Ok (piece_x_min, piece_x_max, piece_y_min, piece_y_max).

(** The bar on the vertical grid line [gx]: it runs along Y. *)
Definition bar_x (cell_size groove_w groove_d piece_y_min piece_y_max : R) (gx : Z)
  : PrimObject R :=
let x_center := of_int gx * cell_size in
{| ob_name := Name_bar_x gx;
   ob_prim := Cube (of_int 1)
     (x_center, (piece_y_min + piece_y_max) / of_int 2, groove_d / of_int 2)
     (groove_w, piece_y_max - piece_y_min + groove_w * of_int 2, groove_d);
   ob_is_hole := false |}.

(** The bar on the horizontal grid line [gy]: it runs along X. *)
Definition bar_y (cell_size groove_w groove_d piece_x_min piece_x_max : R) (gy : Z)
  : PrimObject R :=
let y_center := of_int gy * cell_size in
{| ob_name := Name_bar_y gy;
   ob_prim := Cube (of_int 1)
     ((piece_x_min + piece_x_max) / of_int 2, y_center, groove_d / of_int 2)
     (piece_x_max - piece_x_min + groove_w * of_int 2, groove_w, groove_d);
   ob_is_hole := false |}.

(** [None] is Python's [None]; [Raise] an exception that leaves the
    function. *)
Definition make_groove_cutter (name : ObjName) (cells : list Cell)
  (cell_size groove_w groove_d piece_t : R) : result (option (JoinedObject R)) :=
'(x_lines, y_lines) <- get_grid_lines_for_piece cells ;;
'(piece_x_min, piece_x_max, piece_y_min, piece_y_max) <- piece_footprint cells cell_size ;;
let bars := [] in
let bars := bars ++ map (bar_x cell_size groove_w groove_d piece_y_min piece_y_max) x_lines in
let bars := bars ++ map (bar_y cell_size groove_w groove_d piece_x_min piece_x_max) y_lines in
match bars with
| [] => Ok None
| _ :: _ => Ok (Some {| joined_name := name; joined_parts := bars |})
end.

End Groove.

(** ** Boolean modifiers

    [apply_boolean] drives Blender through [bpy.ops]: it selects an object,
    applies its rotation and scale, pushes a Boolean modifier on the target
    and asks for it to be applied.  The part of the scene it touches is a
    [World]: the target, the cutter, the active object, and a log of the
    solver runs.  A computation is a function from the world to a Python
    result and the world it leaves; an exception keeps the changes made
    before it was raised. *)

Inductive Operation := UNION | DIFFERENCE | INTERSECT.
Inductive Solver := EXACT | FAST.

(** A modifier name: the requested name and the numeric suffix Blender
    adds to keep names unique in a stack ([("Bool", 0)] is ["Bool"],
    [("Bool", 1)] is ["Bool.001"]). *)
Definition ModName : Type := string * nat.

Definition modname_eqb (a b : ModName) : bool :=
String.eqb (fst a) (fst b) && Nat.eqb (snd a) (snd b).

Record Modifier := {
  mod_name : ModName;
  mod_operation : Operation;
  mod_object : option ObjName;
  mod_solver : Solver
}.

Inductive Role := Target | Cutter.

Section Boolean.
Variables Mesh Xform : Type.
(** [bake x m]: mesh [m] with the rotation and scale [x] applied to its
    vertices; [xf_id]: no rotation, unit scale. *)
Variable bake : Xform -> Mesh -> Mesh.
Variable xf_id : Xform.
(** The Boolean solver on the target and tool meshes: the new mesh, or
    [None] when [modifier_apply] raises. *)
Variable solve : Solver -> Operation -> Mesh -> Mesh -> option Mesh.

Record MeshObject := {
  mo_name : ObjName;
  mo_data : Mesh;
  mo_rot_scale : Xform;
  mo_modifiers : list Modifier
}.

Record World := {
  w_target : MeshObject;
  w_cutter : MeshObject;
  w_active : option Role;
  w_solver_runs : list Solver
}.

Definition Blender (A : Type) : Type := World -> result A * World.

Definition retB {A} (a : A) : Blender A := fun w => (Ok a, w).

Definition bindB {A B} (c : Blender A) (k : A -> Blender B) : Blender B :=
fun w =>
  match c w with
  | (Ok a, w') => k a w'
  | (Raise e, w') => (Raise e, w')
  end.

Definition raiseB {A} (e : exn) : Blender A := fun w => (Raise e, w).

(** [try: body except Exception: handler]. *)
Definition try_except {A} (body handler : Blender A) : Blender A :=
fun w =>
  match body w with
  | (Ok a, w') => (Ok a, w')
  | (Raise _, w') => handler w'
  end.

Notation "x <~ c ;; k" := (bindB c (fun x => k))
  (at level 61, c at next level, right associativity).
Notation "c ;; k" := (bindB c (fun _ => k))
  (at level 61, right associativity).

Definition get_object (r : Role) (w : World) : MeshObject :=
match r with Target => w_target w | Cutter => w_cutter w end.

Definition set_object (r : Role) (o : MeshObject) (w : World) : World :=
match r with
| Target => {| w_target := o; w_cutter := w_cutter w;
               w_active := w_active w; w_solver_runs := w_solver_runs w |}
| Cutter => {| w_target := w_target w; w_cutter := o;
               w_active := w_active w; w_solver_runs := w_solver_runs w |}
end.

Definition set_modifiers (ms : list Modifier) (o : MeshObject) : MeshObject :=
{| mo_name := mo_name o; mo_data := mo_data o;
   mo_rot_scale := mo_rot_scale o; mo_modifiers := ms |}.

Definition select_only (r : Role) : Blender unit :=
fun w => (Ok tt, {| w_target := w_target w; w_cutter := w_cutter w;
                    w_active := Some r; w_solver_runs := w_solver_runs w |}).

(** The object with its rotation and scale baked into the mesh: the
    same solid in the scene. *)
Definition apply_rot_scale (o : MeshObject) : MeshObject :=
{| mo_name := mo_name o;
   mo_data := bake (mo_rot_scale o) (mo_data o);
   mo_rot_scale := xf_id;
   mo_modifiers := mo_modifiers o |}.

Definition set_data (mesh : Mesh) (o : MeshObject) : MeshObject :=
{| mo_name := mo_name o; mo_data := mesh;
   mo_rot_scale := mo_rot_scale o; mo_modifiers := mo_modifiers o |}.

(** [bpy.ops.object.transform_apply(location=False, rotation=True,
    scale=True)] on the active object. *)
Definition transform_apply : Blender unit :=
fun w =>
  match w_active w with
  | None => (Raise (RuntimeError "no active object"), w)
  | Some r => (Ok tt, set_object r (apply_rot_scale (get_object r w)) w)
  end.

(** The least suffix that makes [base] a new name in the stack. *)
Definition unique_name (base : string) (ms : list Modifier) : ModName :=
let used := map mod_name ms in
let free n := negb (existsb (modname_eqb (base, n)) used) in
match find free (seq 0 (S (List.length used))) with
| Some n => (base, n)
| None => (base, S (List.length used))
end.

(** [target.modifiers.new(name, 'BOOLEAN')]: a Boolean modifier with
    Blender's defaults, at the end of the stack. *)
Definition modifiers_new (base : string) : Blender ModName :=
fun w =>
  let t := w_target w in
  let n := unique_name base (mo_modifiers t) in
  let m := {| mod_name := n; mod_operation := DIFFERENCE;
              mod_object := None; mod_solver := EXACT |} in
  (Ok n, set_object Target (set_modifiers (mo_modifiers t ++ [m]) t) w).

Fixpoint update_modifier (n : ModName) (f : Modifier -> Modifier)
  (ms : list Modifier) : list Modifier :=
match ms with
| [] => []
| m :: ms' =>
    if modname_eqb (mod_name m) n then f m :: ms'
    else m :: update_modifier n f ms'
end.

(** The three assignments [mod.operation = operation], [mod.object =
    cutter], [mod.solver = ...]. *)
Definition configure_modifier (n : ModName) (operation : Operation)
  (solver : Solver) : Blender unit :=
fun w =>
  let t := w_target w in
  let f m := {| mod_name := mod_name m; mod_operation := operation;
                mod_object := Some (mo_name (w_cutter w));
                mod_solver := solver |} in
  (Ok tt, set_object Target
            (set_modifiers (update_modifier n f (mo_modifiers t)) t) w).

Definition find_modifier (n : ModName) (ms : list Modifier) : option Modifier :=
find (fun m => modname_eqb (mod_name m) n) ms.

Fixpoint remove_modifier (n : ModName) (ms : list Modifier) : list Modifier :=
match ms with
| [] => []
| m :: ms' =>
    if modname_eqb (mod_name m) n then ms' else m :: remove_modifier n ms'
end.

(** [target.modifiers.remove(mod)]; an error when the modifier is no
    longer in the stack. *)
Definition modifiers_remove (n : ModName) : Blender unit :=
fun w =>
  let t := w_target w in
  match find_modifier n (mo_modifiers t) with
  | None => (Raise (RuntimeError "modifier not found in object"), w)
  | Some _ =>
      (Ok tt, set_object Target
                (set_modifiers (remove_modifier n (mo_modifiers t)) t) w)
  end.

Definition log_run (s : Solver) (w : World) : World :=
{| w_target := w_target w; w_cutter := w_cutter w;
   w_active := w_active w; w_solver_runs := w_solver_runs w ++ [s] |}.

(** [bpy.ops.object.modifier_apply(modifier=name)] on the active object:
    the solver runs; on success the mesh is replaced and the modifier
    leaves the stack, on failure the operator raises and the object is as
    it was. *)
Definition modifier_apply (n : ModName) : Blender unit :=
fun w =>
  match w_active w with
  | Some Target =>
      let t := w_target w in
      match find_modifier n (mo_modifiers t) with
      | None => (Raise (RuntimeError "modifier not found"), w)
      | Some m =>
          let w1 := log_run (mod_solver m) w in
          match solve (mod_solver m) (mod_operation m)
                      (mo_data t) (mo_data (w_cutter w)) with
          | Some mesh =>
              (Ok tt, set_object Target
                 (set_modifiers (remove_modifier n (mo_modifiers t))
                                (set_data mesh t)) w1)
          | None => (Raise (RuntimeError "modifier apply failed"), w1)
          end
      end
  | _ => (Raise (RuntimeError "modifier not found"), w)
  end.

(** [[m.name for m in target.modifiers]]. *)
Definition modifier_names : Blender (list ModName) :=
fun w => (Ok (map mod_name (mo_modifiers (w_target w))), w).

(** [mod1] is the source's [mod] (a reserved token here). *)
Definition apply_boolean (operation : Operation) : Blender bool :=
select_only Target ;;
transform_apply ;;
select_only Cutter ;;
transform_apply ;;
select_only Target ;;
mod1 <~ modifiers_new "Bool" ;;
configure_modifier mod1 operation EXACT ;;
try_except
  (modifier_apply mod1 ;; retB true)
  (modifiers_remove mod1 ;;
   mod2 <~ modifiers_new "Bool2" ;;
   configure_modifier mod2 operation FAST ;;
   try_except
     (modifier_apply mod2 ;; retB true)
     (names <~ modifier_names ;;
      (if existsb (modname_eqb mod2) names
       then modifiers_remove mod2 else retB tt) ;;
      retB false)).

End Boolean.

(** ** 5.2 Board generation *)

(** [a // b] on integers: floor division, [ZeroDivisionError] on [b = 0]. *)
Definition py_floordiv (a b : Z) : result Z :=
if b =? 0 then Raise (ZeroDivisionError "integer division or modulo by zero")
else Ok (a / b).

(** [enumerate(l)]. *)
Definition py_enumerate {A} (l : list A) : list (Z * A) :=
combine (map Z.of_nat (seq 0 (List.length l))) l.

(** [[f(x) for x in l]] when [f] may raise. *)
Fixpoint result_map {A B} (f : A -> result B) (l : list A) : result (list B) :=
match l with
| [] => Ok []
| x :: xs => y <- f x ;; ys <- result_map f xs ;; Ok (y :: ys)
end.

(** The cell range of a tile: [(cx_start, cx_end, cy_start, cy_end)]. *)
Definition tile_cell_range {R} (tile_x tile_y : Z) (p : BLK_Properties R)
  : result (Z * Z * Z * Z) :=
let grid := 20 in
cells_per_tile_x <- py_floordiv grid (split_x p) ;;
cells_per_tile_y <- py_floordiv grid (split_y p) ;;
let cx_start := tile_x * cells_per_tile_x in
let cx_end := cx_start + cells_per_tile_x in
let cy_start := tile_y * cells_per_tile_y in
let cy_end := cy_start + cells_per_tile_y in
Ok (cx_start, cx_end, cy_start, cy_end).

(** What [create_board_tile] returns: the joined solids, the holes handed
    one by one to [apply_boolean(tile_obj, hole, 'DIFFERENCE')], and the
    custom properties stored on the tile. *)
Record BoardTile (R : Type) := {
  tile_object : JoinedObject R;
  tile_holes : list (PrimObject R);
  blk_cell : R;
  blk_tile_x : Z;
  blk_tile_y : Z
}.

Section Board.
Context {R : Type} `{PyNum R}.
Local Open Scope py_scope.

Definition cube_object (name : ObjName) (location scale : Vec3 R) : PrimObject R :=
{| ob_name := name; ob_prim := Cube (of_int 1) location scale; ob_is_hole := false |}.

(** The local function [add_cylinder]; [is_hole] is the custom property
    the caller sets on the holes. *)
Definition add_cylinder (cx cy cz radius depth : R) (cyl_name : ObjName)
  (is_hole : bool) : PrimObject R :=
{| ob_name := cyl_name;
   ob_prim := Cylinder radius depth (cx, cy, cz) 24;
   ob_is_hole := is_hole |}.

(** The list [objs] as it stands before the holes are separated from the
    solids. *)
Definition create_board_tile_objs (tile_x tile_y : Z) (p : BLK_Properties R)
  : result (list (PrimObject R)) :=
let cell := cell p in
'(cx_start, cx_end, cy_start, cy_end) <- tile_cell_range tile_x tile_y p ;;
(* Frame extends only on outer edges *)
let frame_left := if (tile_x =? 0)%Z then frame_w p else of_int 0 in
let frame_right := if (tile_x =? split_x p - 1)%Z then frame_w p else of_int 0 in
let frame_bottom := if (tile_y =? 0)%Z then frame_w p else of_int 0 in
let frame_top := if (tile_y =? split_y p - 1)%Z then frame_w p else of_int 0 in
(* Tile physical bounds *)
let x_min := of_int cx_start * cell - frame_left in
let x_max := of_int cx_end * cell + frame_right in
let y_min := of_int cy_start * cell - frame_bottom in
let y_max := of_int cy_end * cell + frame_top in
let tile_w := x_max - x_min in
let tile_h := y_max - y_min in
(* Base plate *)
let objs :=
  [cube_object (Name_base tile_x tile_y)
     ((x_min + x_max) / of_int 2, (y_min + y_max) / of_int 2,
      - board_t p / of_int 2)
     (tile_w, tile_h, board_t p)] in
(* Grid ribs along the X grid lines *)
let objs := objs ++
  map (fun gx =>
         let x_pos := of_int gx * cell in
         let rib_y_min := of_int cy_start * cell in
         let rib_y_max := of_int cy_end * cell in
         cube_object (Name_ribX gx)
           (x_pos, (rib_y_min + rib_y_max) / of_int 2, rib_h p / of_int 2)
           (rib_w p, rib_y_max - rib_y_min, rib_h p))
      (py_range cx_start (cx_end + 1)) in
(* Y grid lines *)
let objs := objs ++
  map (fun gy =>
         let y_pos := of_int gy * cell in
         let rib_x_min := of_int cx_start * cell in
         let rib_x_max := of_int cx_end * cell in
         cube_object (Name_ribY gy)
           ((rib_x_min + rib_x_max) / of_int 2, y_pos, rib_h p / of_int 2)
           (rib_x_max - rib_x_min, rib_w p, rib_h p))
      (py_range cy_start (cy_end + 1)) in
(* Frame walls *)
let frame_h := rib_h p + lit 1.5 in
let objs := objs ++
  (if frame_left >? of_int 0 then
     [cube_object Name_frame_left
        (x_min + frame_left / of_int 2, (y_min + y_max) / of_int 2,
         frame_h / of_int 2)
        (frame_left, tile_h, frame_h)]
   else []) in
let objs := objs ++
  (if frame_right >? of_int 0 then
     [cube_object Name_frame_right
        (x_max - frame_right / of_int 2, (y_min + y_max) / of_int 2,
         frame_h / of_int 2)
        (frame_right, tile_h, frame_h)]
   else []) in
let objs := objs ++
  (if frame_bottom >? of_int 0 then
     [cube_object Name_frame_bottom
        ((x_min + x_max) / of_int 2, y_min + frame_bottom / of_int 2,
         frame_h / of_int 2)
        (tile_w, frame_bottom, frame_h)]
   else []) in
let objs := objs ++
  (if frame_top >? of_int 0 then
     [cube_object Name_frame_top
        ((x_min + x_max) / of_int 2, y_max - frame_top / of_int 2,
         frame_h / of_int 2)
        (tile_w, frame_top, frame_h)]
   else []) in
(* Anti-warp reinforcement ribs on the underside *)
let reinforce_count := 3%Z in
let reinforce_h := lit 1.2 in
let reinforce_w := lit 1.0 in
let cell_x_min := of_int cx_start * cell in
let cell_x_max := of_int cx_end * cell in
let cell_y_min := of_int cy_start * cell in
let cell_y_max := of_int cy_end * cell in
let span_x := cell_x_max - cell_x_min in
let span_y := cell_y_max - cell_y_min in
let objs := objs ++
  flat_map (fun i =>
         let frac := of_int (i + 1)%Z / of_int (reinforce_count + 1)%Z in
         [cube_object (Name_reinforce_h i)
            ((cell_x_min + cell_x_max) / of_int 2,
             cell_y_min + span_y * frac,
             - board_t p - reinforce_h / of_int 2)
            (span_x * lit 0.95, reinforce_w, reinforce_h);
          cube_object (Name_reinforce_v i)
            (cell_x_min + span_x * frac,
             (cell_y_min + cell_y_max) / of_int 2,
             - board_t p - reinforce_h / of_int 2)
            (reinforce_w, span_y * lit 0.95, reinforce_h)])
      (py_range 0 reinforce_count) in
(* Dowel posts / holes at tile boundaries *)
let dowel_r := dowel_d p / of_int 2 in
let dowel_r_hole := dowel_r + dowel_clear p in
let half_len := dowel_len p / of_int 2 in
(* Right edge dowels *)
let objs := objs ++
  (if (tile_x <? split_x p - 1)%Z then
     let edge_x := of_int cx_end * cell in
     let mid_y := of_int (cy_start + cy_end)%Z * cell / of_int 2 in
     let spacing := of_int (cy_end - cy_start)%Z * cell / of_int 3 in
     map (fun d : Z * R =>
            let (di, offset) := d in
            add_cylinder edge_x (mid_y + offset) (- board_t p - half_len)
              dowel_r (dowel_len p) (Name_dowel_post_r tile_x tile_y di) false)
         (py_enumerate [- spacing / of_int 2; spacing / of_int 2])
   else []) in
let objs := objs ++
  (if (tile_x >? 0)%Z then
     let edge_x := of_int cx_start * cell in
     let mid_y := of_int (cy_start + cy_end)%Z * cell / of_int 2 in
     let spacing := of_int (cy_end - cy_start)%Z * cell / of_int 3 in
     map (fun d : Z * R =>
            let (di, offset) := d in
            add_cylinder edge_x (mid_y + offset) (- board_t p - half_len)
              dowel_r_hole (dowel_len p + lit 0.5)
              (Name_dowel_hole_l tile_x tile_y di) true)
         (py_enumerate [- spacing / of_int 2; spacing / of_int 2])
   else []) in
(* Top edge dowels *)
let objs := objs ++
  (if (tile_y <? split_y p - 1)%Z then
     let edge_y := of_int cy_end * cell in
     let mid_x := of_int (cx_start + cx_end)%Z * cell / of_int 2 in
     let spacing := of_int (cx_end - cx_start)%Z * cell / of_int 3 in
     map (fun d : Z * R =>
            let (di, offset) := d in
            add_cylinder (mid_x + offset) edge_y (- board_t p - half_len)
              dowel_r (dowel_len p) (Name_dowel_post_t tile_x tile_y di) false)
         (py_enumerate [- spacing / of_int 2; spacing / of_int 2])
   else []) in
let objs := objs ++
  (if (tile_y >? 0)%Z then
     let edge_y := of_int cy_start * cell in
     let mid_x := of_int (cx_start + cx_end)%Z * cell / of_int 2 in
     let spacing := of_int (cx_end - cx_start)%Z * cell / of_int 3 in
     map (fun d : Z * R =>
            let (di, offset) := d in
            add_cylinder (mid_x + offset) edge_y (- board_t p - half_len)
              dowel_r_hole (dowel_len p + lit 0.5)
              (Name_dowel_hole_b tile_x tile_y di) true)
         (py_enumerate [- spacing / of_int 2; spacing / of_int 2])
   else []) in
Ok objs.

Definition create_board_tile (tile_x tile_y : Z) (p : BLK_Properties R)
  : result (BoardTile R) :=
objs <- create_board_tile_objs tile_x tile_y p ;;
(* Separate holes from non-holes *)
let holes := filter (fun o => ob_is_hole o) objs in
let solids := filter (fun o => negb (ob_is_hole o)) objs in
Ok {| tile_object := {| joined_name := Name_BLK_B tile_x tile_y;
                        joined_parts := solids |};
      tile_holes := holes;
      blk_cell := cell p;
      blk_tile_x := tile_x;
      blk_tile_y := tile_y |}.

(** *** The operator [BLK_OT_GenerateBoard] *)

Inductive ReportType := ERROR | INFO.
Inductive OperatorStatus := CANCELLED | FINISHED.

Inductive ReportText : Type :=
| Report_param (m : ParamMsg R)
| Report_board_generated (split_x split_y : Z).

(** The return value of [execute], what it reported, and the collection
    ["BLK_BOARD"] afterwards. *)
Record BoardRun := {
  run_status : OperatorStatus;
  run_reports : list (ReportType * ReportText);
  run_board : list (BoardTile R)
}.

(** The index pairs of the two nested [for] loops, in their order. *)
Definition generated_tiles (p : BLK_Properties R) : list (Z * Z) :=
flat_map (fun tx => map (fun ty => (tx, ty)) (py_range 0 (split_y p)))
         (py_range 0 (split_x p)).

(** [board] is the content of ["BLK_BOARD"] before the call. *)
Definition BLK_OT_GenerateBoard_execute (p : BLK_Properties R)
  (board : list (BoardTile R)) : result BoardRun :=
let (ok, msgs) := validate_params p in
if negb ok then
  Ok {| run_status := CANCELLED;
        run_reports := map (fun m => (ERROR, Report_param m)) msgs;
        run_board := board |}
else
  tiles <- result_map (fun t : Z * Z => create_board_tile (fst t) (snd t) p)
                      (generated_tiles p) ;;
  Ok {| run_status := FINISHED;
        run_reports := [(INFO, Report_board_generated (split_x p) (split_y p))];
        run_board := tiles |}.

End Board.

(** ** 6. Layout (shelf packing) *)

(** A finished piece as the layout sees it.  [bound_box] is Blender's
    bounding box of the mesh in the object's own coordinates: the eight
    corners of the box from [po_bb_min] to [po_bb_max].  Moving the object
    changes [po_location] only; with rotation and scale applied, the box
    the piece occupies on the plate is [bound_box] shifted by the
    location. *)
Record PieceObject (R : Type) := {
  po_name : ObjName;
  po_bb_min : Vec3 R;
  po_bb_max : Vec3 R;
  po_location : Vec3 R
}.

Definition bound_box {R} (obj : PieceObject R) : list (Vec3 R) :=
let '(x0, y0, z0) := po_bb_min obj in
let '(x1, y1, z1) := po_bb_max obj in
[ (x0, y0, z0); (x0, y0, z1); (x0, y1, z1); (x0, y1, z0);
  (x1, y0, z0); (x1, y0, z1); (x1, y1, z1); (x1, y1, z0) ].

Definition set_location {R} (loc : Vec3 R) (obj : PieceObject R) : PieceObject R :=
{| po_name := po_name obj; po_bb_min := po_bb_min obj;
   po_bb_max := po_bb_max obj; po_location := loc |}.

(** The state of the packing loop. *)
Record Shelf (R : Type) := {
  cursor_x : R;
  cursor_y : R;
  row_height : R
}.

Section Layout.
Context {R : Type} `{PyNum R}.
Local Open Scope py_scope.

(** The sort key. *)
Definition bbox_area (obj : PieceObject R) : result R :=
let bb := bound_box obj in
let xs := map vec_x bb in
let ys := map vec_y bb in
max_x <- py_max nltb xs ;;
min_x <- py_min nltb xs ;;
max_y <- py_max nltb ys ;;
min_y <- py_min nltb ys ;;
Ok ((max_x - min_x) * (max_y - min_y)).

(** [l.sort(key=..., reverse=True)] on the keys computed beforehand: a
    stable sort, largest key first; items with equal keys keep their
    order. *)
Fixpoint insert_desc {A} (x : R * A) (l : list (R * A)) : list (R * A) :=
match l with
| [] => [x]
| y :: ys => if fst x <? fst y then y :: insert_desc x ys else x :: y :: ys
end.

Definition sort_desc {A} (l : list (R * A)) : list (R * A) :=
fold_right insert_desc [] l.

Definition sort_by_area (piece_objects : list (PieceObject R))
  : result (list (PieceObject R)) :=
keyed <- result_map (fun obj => k <- bbox_area obj ;; Ok (k, obj)) piece_objects ;;
Ok (map snd (sort_desc keyed)).

(** [max(a, b)]. *)
Definition py_max2 (a b : R) : R := if a <? b then b else a.

(** One iteration of [for obj in piece_objects]: the shelf afterwards and
    the object moved. *)
Definition place_piece (gap max_row_width : R) (st : Shelf R)
  (obj : PieceObject R) : result (Shelf R * PieceObject R) :=
let bb := bound_box obj in
let xs := map vec_x bb in
let ys := map vec_y bb in
max_x <- py_max nltb xs ;;
min_x <- py_min nltb xs ;;
let w := max_x - min_x in
max_y <- py_max nltb ys ;;
min_y <- py_min nltb ys ;;
let h := max_y - min_y in
ox <- py_min nltb xs ;;
oy <- py_min nltb ys ;;
let st :=
  if (cursor_x st + w >? max_row_width) && (cursor_x st >? of_int 0) then
    {| cursor_x := lit 0.0;
       cursor_y := cursor_y st + (row_height st + gap);
       row_height := lit 0.0 |}
  else st in
let '(lx, ly, lz) := po_location obj in
let obj := set_location (lx + (cursor_x st - ox), ly + (cursor_y st - oy), lz) obj in
Ok ({| cursor_x := cursor_x st + (w + gap);
       cursor_y := cursor_y st;
       row_height := py_max2 (row_height st) h |}, obj).

Fixpoint shelf_loop (gap max_row_width : R) (st : Shelf R)
  (piece_objects : list (PieceObject R)) : result (list (PieceObject R)) :=
match piece_objects with
| [] => Ok []
| obj :: rest =>
    '(st, obj) <- place_piece gap max_row_width st obj ;;
    rest <- shelf_loop gap max_row_width st rest ;;
    Ok (obj :: rest)
end.

(** The list [piece_objects] as the caller finds it afterwards: sorted in
    place, every object moved. *)
Definition layout_pieces_shelf (color : string)
  (piece_objects : list (PieceObject R)) (gap cell : R)
  : result (list (PieceObject R)) :=
match piece_objects with
| [] => Ok []
| _ :: _ =>
    piece_objects <- sort_by_area piece_objects ;;
    let st := {| cursor_x := lit 0.0; cursor_y := lit 0.0;
                 row_height := lit 0.0 |} in
    let max_row_width := cell * of_int 25 in
    shelf_loop gap max_row_width st piece_objects
end.

End Layout.

(** ** Vocabulary of the properties *)

(** The segments between consecutive vertices of a list, and the same
    with the closing segment from the last vertex back to the first. *)
Fixpoint path_edges (l : list Vertex) : list Edge :=
match l with
| [] => []
| a :: tl =>
    match tl with
    | [] => []
    | b :: _ => (a, b) :: path_edges tl
    end
end.

Definition cyclic_edges (l : list Vertex) : list Edge :=
match l with
| [] => []
| first :: _ => path_edges (l ++ [first])
end.

(** Twice the signed area enclosed by a closed polygon (shoelace sum). *)
Definition cross (e : Edge) : Z :=
fst (fst e) * snd (snd e) - fst (snd e) * snd (fst e).

Definition polygon_area2 (loop : list Vertex) : Z :=
fold_right Z.add 0 (map cross (cyclic_edges loop)).

(** [loop] is the outline of [cells] as one simple closed polygon: no
    vertex occurs twice, and its segments, closing segment included, are
    exactly the boundary edges of the cell union. *)
Definition simple_closed_outline (cells : list Cell) (loop : list Vertex) : Prop :=
NoDup loop /\
forall e, In e (boundary_edges cells) <-> In e (map sorted_key (cyclic_edges loop)).

(** Decision procedures for the above, used on the catalogue. *)
Fixpoint nodupb (l : list Vertex) : bool :=
match l with
| [] => true
| x :: xs => negb (existsb (vertex_eqb x) xs) && nodupb xs
end.

Definition same_edges (l1 l2 : list Edge) : bool :=
forallb (fun e => edge_mem e l2) l1 && forallb (fun e => edge_mem e l1) l2.

Definition outline_check (cells : list Cell) : bool :=
match cells_to_outline cells with
| Some loop =>
    nodupb loop
    && same_edges (boundary_edges cells) (map sorted_key (cyclic_edges loop))
    && (Z.abs (polygon_area2 loop) =? 2 * Z.of_nat (List.length cells))
| None => false
end.

(** [(min_x, max_x, min_y, max_y)] is the bounding box of the cells, in
    grid cells: each bound is attained and bounds every cell. *)
Definition bounding_box (cells : list Cell) (min_x max_x min_y max_y : Z) : Prop :=
(In min_x (map fst cells) /\ forall x, In x (map fst cells) -> min_x <= x) /\
(In max_x (map fst cells) /\ forall x, In x (map fst cells) -> x <= max_x) /\
(In min_y (map snd cells) /\ forall y, In y (map snd cells) -> min_y <= y) /\
(In max_y (map snd cells) /\ forall y, In y (map snd cells) -> y <= max_y).

(** The interval a cube occupies along one axis: a cube of edge [size]
    centred at [c], scaled by [s]. *)
Definition cube_low (size c s : Q) : Q := (c - size * s / 2)%Q.
Definition cube_high (size c s : Q) : Q := (c + size * s / 2)%Q.

(** A groove bar reaches at least [groove_w] beyond the footprint
    [[lo, hi]] at both ends of the axis it runs along: Y for the bars on
    the vertical grid lines, X for those on the horizontal ones. *)
Definition bar_overshoots (groove_w x_lo x_hi y_lo y_hi : Q) (bar : PrimObject Q) : Prop :=
match ob_name bar, ob_prim bar with
| Name_bar_x _, Cube size location scale =>
    (cube_low size (vec_y location) (vec_y scale) <= y_lo - groove_w)%Q /\
    (y_hi + groove_w <= cube_high size (vec_y location) (vec_y scale))%Q
| Name_bar_y _, Cube size location scale =>
    (cube_low size (vec_x location) (vec_x scale) <= x_lo - groove_w)%Q /\
    (x_hi + groove_w <= cube_high size (vec_x location) (vec_x scale))%Q
| _, _ => False
end.

(** The names of the solids joined into a tile. *)
Definition part_names {R} (tile : BoardTile R) : list ObjName :=
map (fun o => ob_name o) (joined_parts (tile_object tile)).

(** The base plate of tile [(tx, ty)] over the cells [cx_start..cx_end]
    by [cy_start..cy_end], widened by the frame on the outer edges of the
    board: the first cube [create_board_tile] makes. *)
Definition plate_over {R} {N : PyNum R} (p : BLK_Properties R)
  (tx ty cx_start cx_end cy_start cy_end : Z) : PrimObject R :=
let x_min := (of_int cx_start * cell p - (if tx =? 0 then frame_w p else of_int 0))%py in
let x_max :=
  (of_int cx_end * cell p + (if tx =? split_x p - 1 then frame_w p else of_int 0))%py in
let y_min := (of_int cy_start * cell p - (if ty =? 0 then frame_w p else of_int 0))%py in
let y_max :=
  (of_int cy_end * cell p + (if ty =? split_y p - 1 then frame_w p else of_int 0))%py in
cube_object (Name_base tx ty)
  ((x_min + x_max) / of_int 2, (y_min + y_max) / of_int 2, - board_t p / of_int 2)%py
  (x_max - x_min, y_max - y_min, board_t p)%py.

(** A tile covers grid cell [c] when it carries the ribs on the four grid
    lines around the cell: [_ribX_] on the lines [x] and [x + 1],
    [_ribY_] on the lines [y] and [y + 1]. *)
Definition tile_covers {R} (tile : BoardTile R) (c : Cell) : Prop :=
In (Name_ribX (fst c)) (part_names tile) /\ In (Name_ribX (fst c + 1)) (part_names tile) /\
In (Name_ribY (snd c)) (part_names tile) /\ In (Name_ribY (snd c + 1)) (part_names tile).

(** A dowel post: a cylinder that is not marked as a hole. *)
Definition is_post {R} (o : PrimObject R) : bool :=
match ob_prim o with
| Cylinder _ _ _ _ => negb (ob_is_hole o)
| Cube _ _ _ => false
end.

Definition b2z (b : bool) : Z := if b then 1 else 0.

Definition prim_location {R} (o : PrimObject R) : Vec3 R :=
match ob_prim o with
| Cube _ location _ => location
| Cylinder _ _ location _ => location
end.

Definition is_cube {R} (o : PrimObject R) : bool :=
match ob_prim o with
| Cube _ _ _ => negb (ob_is_hole o)
| Cylinder _ _ _ _ => false
end.

(** The extent of a piece's own bounding box, and the box the piece
    occupies on the plate. *)
Definition ext_min_x (o : PieceObject Q) : Q := Qmin (vec_x (po_bb_min o)) (vec_x (po_bb_max o)).
Definition ext_max_x (o : PieceObject Q) : Q := Qmax (vec_x (po_bb_min o)) (vec_x (po_bb_max o)).
Definition ext_min_y (o : PieceObject Q) : Q := Qmin (vec_y (po_bb_min o)) (vec_y (po_bb_max o)).
Definition ext_max_y (o : PieceObject Q) : Q := Qmax (vec_y (po_bb_min o)) (vec_y (po_bb_max o)).

Definition footprint_area (o : PieceObject Q) : Q :=
((ext_max_x o - ext_min_x o) * (ext_max_y o - ext_min_y o))%Q.

Definition placed_min_x (o : PieceObject Q) : Q := (vec_x (po_location o) + ext_min_x o)%Q.
Definition placed_max_x (o : PieceObject Q) : Q := (vec_x (po_location o) + ext_max_x o)%Q.
Definition placed_min_y (o : PieceObject Q) : Q := (vec_y (po_location o) + ext_min_y o)%Q.
Definition placed_max_y (o : PieceObject Q) : Q := (vec_y (po_location o) + ext_max_y o)%Q.

(** Two placed boxes overlap when their interiors meet. *)
Definition boxes_overlap (a b : PieceObject Q) : Prop :=
(placed_min_x a < placed_max_x b /\ placed_min_x b < placed_max_x a /\
 placed_min_y a < placed_max_y b /\ placed_min_y b < placed_max_y a)%Q.

(** The object is where [create_piece_mesh] leaves it: at the origin. *)
Definition at_origin (o : PieceObject Q) : Prop :=
(vec_x (po_location o) == 0 /\ vec_y (po_location o) == 0)%Q.

(** What identifies a piece whatever its location. *)
Definition piece_shape (o : PieceObject Q) : ObjName * Vec3 Q * Vec3 Q :=
(po_name o, po_bb_min o, po_bb_max o).

(** [b] is placed right after [a]: either in the same row, the cursor
    advanced by the width of [a] and the gap, or at the start of a new
    row above [a]. *)
Definition next_on_shelf (gap : Q) (a b : PieceObject Q) : Prop :=
(placed_min_y b == placed_min_y a /\ placed_min_x b == placed_max_x a + gap /\
 placed_min_x a <= placed_min_x b)%Q
\/
(placed_min_x b == 0 /\ placed_max_y a + gap <= placed_min_y b)%Q.

(** Invariants of the packing loop.  A placed box lies behind the shelf
    when it is below the current row, or in it and left of the cursor; a
    box lies ahead of the shelf when it is in the current row from the
    cursor on, or above the current row. *)
Definition shelf_ok (st : Shelf Q) : Prop :=
(0 <= cursor_x st /\ 0 <= row_height st)%Q.

Definition shelf_behind (st : Shelf Q) (b : PieceObject Q) : Prop :=
(placed_max_y b <= cursor_y st \/
 (placed_max_x b <= cursor_x st /\
  placed_max_y b <= cursor_y st + row_height st))%Q.

Definition shelf_ahead (st : Shelf Q) (b : PieceObject Q) : Prop :=
(cursor_y st <= placed_min_y b /\
 (cursor_x st <= placed_min_x b \/
  cursor_y st + row_height st <= placed_min_y b))%Q.

(** Where the next piece goes: at the cursor, or after a wrap at the
    start of the row above. *)
Definition first_on_shelf (gap : Q) (st : Shelf Q) (b : PieceObject Q) : Prop :=
(placed_min_x b == cursor_x st /\ placed_min_y b == cursor_y st)%Q
\/
(0 < cursor_x st /\ placed_min_x b == 0 /\
 placed_min_y b == cursor_y st + (row_height st + gap))%Q.

(** How often a key occurs in a list of edge keys, and a cell in a list
    of cells; the keys [cells_to_outline] counts, in the order it meets
    them. *)
Definition occ (k : Edge) (l : list Edge) : nat :=
List.length (filter (edge_eqb k) l).

Definition cnt (c : Cell) (l : list Cell) : nat :=
List.length (filter (vertex_eqb c) l).

Definition edge_keys (cells : list Cell) : list Edge :=
map sorted_key (flat_map cell_edges cells).

(** Connectivity, as [validate_pieces] means it: two cells are neighbours
    when they share a side; a cell is reachable from [c0] through steps
    between neighbours that stay inside the shape; a shape is connected
    when all its cells are reachable from the first. *)
Definition neighbours (a b : Cell) : Prop :=
b = (fst a + 1, snd a) \/ b = (fst a + -1, snd a) \/
b = (fst a, snd a + 1) \/ b = (fst a, snd a + -1).

Inductive reachable (cells : list Cell) (c0 : Cell) : Cell -> Prop :=
| reach_start : reachable cells c0 c0
| reach_step (a b : Cell) :
    reachable cells c0 a -> neighbours a b -> In b cells -> reachable cells c0 b.

Definition connected (cells : list Cell) : Prop :=
match cells with
| [] => True
| c0 :: _ => forall c, In c cells -> reachable cells c0 c
end.

(** The [for dx, dy in ...] loop inside the search, on its own. *)
Definition bfs_expand (cell_set : list Cell) (c : Cell) (ds : list (Z * Z))
  (vq : list Cell * list Cell) : list Cell * list Cell :=
fold_left
  (fun (vq : list Cell * list Cell) (d : Z * Z) =>
     let (visited, queue) := vq in
     let nb := (fst c + fst d, snd c + snd d) in
     if cell_mem nb cell_set && negb (cell_mem nb visited)
     then (visited ++ [nb], queue ++ [nb])
     else (visited, queue))
  ds vq.

(** ** 5.3.1 The extruded mesh

    The vertex objects of the bmesh are named after the Python lists that
    hold them, [bottom_verts[i]] and [top_verts[i]]; a face is the list
    of its vertices in winding order. *)
Inductive VertId : Type :=
| Bot (i : nat)
| Top (i : nat).

Definition Face : Type := list VertId.

Record BMesh (R : Type) := {
  bm_verts : list (VertId * Vec3 R);
  bm_faces : list Face
}.

(** The object [create_piece_mesh] returns: its name, the mesh written by
    [bm.to_mesh], and the width of the bevel modifier applied to it, if
    one was. *)
Record PieceMesh (R : Type) := {
  pm_name : ObjName;
  pm_mesh : BMesh R;
  pm_bevel_top : option R
}.

Section PieceMesh.
Context {R : Type} `{PyNum R}.
Local Open Scope py_scope.

(** [bm.faces.new(f)] raises when bmesh refuses the face;
    [faces_new_ok faces f] tells whether a mesh holding [faces] takes
    [f]. *)
Variable faces_new_ok : list Face -> Face -> bool.

(** [try: bm.faces.new(f)], [except Exception: pass]. *)
Definition try_faces_new (faces : list Face) (f : Face) : list Face :=
if faces_new_ok faces f then faces ++ [f] else faces.

Definition extrude_outline (outline : list Vertex) (cell_size piece_t : R) : BMesh R :=
let n := List.length outline in
let verts :=
  flat_map (fun iv : nat * Vertex =>
              let '(i, (gx, gy)) := iv in
              let x := of_int gx * cell_size in
              let y := of_int gy * cell_size in
              [(Bot i, (x, y, lit 0.0)); (Top i, (x, y, piece_t))])
           (combine (seq 0 n) outline) in
let bottom_verts := map Bot (seq 0 n) in
let top_verts := map Top (seq 0 n) in
(* Bottom face (reversed winding), then top face *)
let faces := try_faces_new [] (rev bottom_verts) in
let faces := try_faces_new faces top_verts in
(* Side faces *)
let faces :=
  fold_left (fun faces i =>
               let j := ((i + 1) mod n)%nat in
               try_faces_new faces [Bot i; Bot j; Top j; Top i])
            (seq 0 n) faces in
{| bm_verts := verts; bm_faces := faces |}.

(** The outer [None] stands for the fuel of the outline walk running out
    and the inner one for Python's [None]. *)
Definition create_piece_mesh (name : ObjName) (cells : list Cell)
  (cell_size piece_t bevel_top : R) : option (option (PieceMesh R)) :=
match cells_to_outline cells with
| None => None
| Some [] => Some None
| Some outline =>
    Some (Some {| pm_name := name;
                  pm_mesh := extrude_outline outline cell_size piece_t;
                  pm_bevel_top :=
                    if bevel_top >? of_int 0 then Some bevel_top else None |})
end.

End PieceMesh.

(** The directed edges of a face, in winding order, and those of a mesh.
    A mesh is closed and consistently oriented when no directed edge
    occurs twice and every directed edge occurs reversed as well: every
    edge is then shared by exactly two faces, which run along it in
    opposite directions. *)
Definition face_edges (f : Face) : list (VertId * VertId) :=
match f with
| [] => []
| v :: rest => combine f (rest ++ [v])
end.

Definition mesh_edges (faces : list Face) : list (VertId * VertId) :=
flat_map face_edges faces.

Definition closed_oriented (faces : list Face) : Prop :=
NoDup (mesh_edges faces) /\
forall a b, In (a, b) (mesh_edges faces) -> In (b, a) (mesh_edges faces).

Definition same_vertices (f g : Face) : Prop := forall v, In v f <-> In v g.

(** The slots of the directed edges of the extrusion: those of the
    bottom face, of the top face, and the four of each side face. *)
Inductive EdgeSlot : Type :=
| SlotBottom (i : nat)
| SlotTop (i : nat)
| SlotSide (k : nat) (i : nat).

Definition slot_edge (n : nat) (s : EdgeSlot) : VertId * VertId :=
let succ i := ((i + 1) mod n)%nat in
match s with
| SlotBottom i => (Bot (n - 1 - i)%nat, Bot (n - 1 - succ i)%nat)
| SlotTop i => (Top i, Top (succ i))
| SlotSide 0 i => (Bot i, Bot (succ i))
| SlotSide 1 i => (Bot (succ i), Top (succ i))
| SlotSide 2 i => (Top (succ i), Top i)
| SlotSide _ i => (Top i, Bot i)
end.

Definition extrusion_slots (n : nat) : list EdgeSlot :=
map SlotBottom (seq 0 n) ++ map SlotTop (seq 0 n) ++
flat_map (fun i => [SlotSide 0 i; SlotSide 1 i; SlotSide 2 i; SlotSide 3 i]) (seq 0 n).

(** The faces of the extrusion of an outline of [n] vertices when bmesh
    takes them all: bottom, top, then the sides. *)
Definition side_face (n i : nat) : Face :=
let j := ((i + 1) mod n)%nat in [Bot i; Bot j; Top j; Top i].

Definition extrusion_faces (n : nat) : list Face :=
[rev (map Bot (seq 0 n)); map Top (seq 0 n)] ++ map (side_face n) (seq 0 n).

Definition slot_valid (n : nat) (s : EdgeSlot) : Prop :=
match s with
| SlotBottom i | SlotTop i => (i < n)%nat
| SlotSide k i => (k < 4)%nat /\ (i < n)%nat
end.

Definition swap_edge (e : VertId * VertId) : VertId * VertId := (snd e, fst e).

(** A grid point that is a corner of one of the cells. *)
Definition cell_corner (cells : list Cell) (v : Vertex) : Prop :=
exists cx cy dx dy,
  In (cx, cy) cells /\ (dx = 0 \/ dx = 1) /\ (dy = 0 \/ dy = 1) /\
  v = (cx + dx, cy + dy).

(** ** Collections

    What the add-on keeps in Blender's data: the objects, the collections
    with the objects linked to each, the collections linked to the scene
    and the objects linked to the scene collection itself.  An object is
    known by its name, which Blender keeps unique. *)

Definition ObjName_eq_dec (a b : ObjName) : {a = b} + {a <> b}.
Proof. decide equality; try apply Z.eq_dec; apply string_dec. Defined.

Definition objname_eqb (a b : ObjName) : bool :=
if ObjName_eq_dec a b then true else false.

(** [obj.name in objects] and the list without the object. *)
Definition obj_mem (o : ObjName) (l : list ObjName) : bool := existsb (objname_eqb o) l.

Definition obj_remove (o : ObjName) (l : list ObjName) : list ObjName :=
filter (fun x => negb (objname_eqb o x)) l.

Record Scene := {
  data_objects : list ObjName;
  data_collections : list (string * list ObjName);
  scene_children : list string;
  scene_objects : list ObjName
}.

(** [name in bpy.data.collections] and [bpy.data.collections[name].objects]. *)
Definition has_collection (name : string) (sc : Scene) : bool :=
existsb (fun c => String.eqb (fst c) name) (data_collections sc).

Definition collection_objects (name : string) (sc : Scene) : list ObjName :=
dict_get_default String.eqb [] (data_collections sc) name.

Definition get_or_create_collection (name : string) (sc : Scene) : Scene :=
if has_collection name sc then sc
else
  {| data_objects := data_objects sc;
     data_collections := data_collections sc ++ [(name, [])];
     scene_children := scene_children sc ++ [name];
     scene_objects := scene_objects sc |}.

(** [bpy.data.objects.remove(obj, do_unlink=True)]: the object leaves the
    data and everything it was linked to. *)
Definition objects_remove (o : ObjName) (sc : Scene) : Scene :=
{| data_objects := obj_remove o (data_objects sc);
   data_collections :=
     map (fun c : string * list ObjName => (fst c, obj_remove o (snd c)))
         (data_collections sc);
   scene_children := scene_children sc;
   scene_objects := obj_remove o (scene_objects sc) |}.

(** [bpy.data.collections.remove(col)]. *)
Definition collections_remove (name : string) (sc : Scene) : Scene :=
{| data_objects := data_objects sc;
   data_collections :=
     filter (fun c : string * list ObjName => negb (String.eqb (fst c) name))
            (data_collections sc);
   scene_children := filter (fun n => negb (String.eqb n name)) (scene_children sc);
   scene_objects := scene_objects sc |}.

Definition wipe_collection (name : string) (sc : Scene) : Scene :=
if negb (has_collection name sc) then sc
else
  let objs := collection_objects name sc in
  let sc := fold_left (fun sc o => objects_remove o sc) objs sc in
  collections_remove name sc.

(** [col.objects.link(obj)] and [sc.objects.unlink(obj)]. *)
Definition collection_link (obj : ObjName) (name : string) (sc : Scene) : Scene :=
{| data_objects := data_objects sc;
   data_collections :=
     dict_update String.eqb [] (fun l : list ObjName => l ++ [obj]) name
                 (data_collections sc);
   scene_children := scene_children sc;
   scene_objects := scene_objects sc |}.

Definition scene_unlink (obj : ObjName) (sc : Scene) : Scene :=
{| data_objects := data_objects sc;
   data_collections := data_collections sc;
   scene_children := scene_children sc;
   scene_objects := obj_remove obj (scene_objects sc) |}.

Definition link_to_collection (obj : ObjName) (col_name : string) (sc : Scene) : Scene :=
let sc := get_or_create_collection col_name sc in
let sc :=
  if negb (obj_mem obj (collection_objects col_name sc))
  then collection_link obj col_name sc else sc in
(* unlink from scene collection if present *)
if obj_mem obj (scene_objects sc) then scene_unlink obj sc else sc.

Definition COLORS : list string := ["RED"%string; "BLUE"%string; "YELLOW"%string; "GREEN"%string].

Definition enabled_colors {R} (p : BLK_Properties R) : list string :=
let cols := [] in
let cols := if color_red p then cols ++ ["RED"%string] else cols in
let cols := if color_blue p then cols ++ ["BLUE"%string] else cols in
let cols := if color_yellow p then cols ++ ["YELLOW"%string] else cols in
let cols := if color_green p then cols ++ ["GREEN"%string] else cols in
cols.

(** [f"BLK_PIECES_{color}"]. *)
Definition pieces_collection (color : string) : string :=
String.append "BLK_PIECES_" color.

(** *** The operator [BLK_OT_Clean]: its return value, its report and the
    scene it leaves. *)
Definition BLK_OT_Clean_execute (sc : Scene)
  : OperatorStatus * list (ReportType * string) * Scene :=
let sc := wipe_collection "BLK_BOARD" sc in
let sc := fold_left (fun sc color => wipe_collection (pieces_collection color) sc)
                    COLORS sc in
let sc := wipe_collection "BLK_TMP" sc in
(FINISHED, [(INFO, "Cleaned all Blokus objects"%string)], sc).

(** A scene as Blender keeps it: no two collections under one name. *)
Definition collections_unique (sc : Scene) : Prop :=
NoDup (map fst (data_collections sc)).

(** The object is somewhere in the scene. *)
Definition object_known (o : ObjName) (sc : Scene) : Prop :=
In o (data_objects sc) \/ In o (scene_objects sc) \/
exists name, In o (collection_objects name sc).

(** The list without the objects of [objs]. *)
Definition remove_all (objs l : list ObjName) : list ObjName :=
filter (fun x => negb (obj_mem x objs)) l.

(** Wiping one collection after the other. *)
Definition wipe_all (names : list string) (sc : Scene) : Scene :=
fold_left (fun sc name => wipe_collection name sc) names sc.

(** The collections the add-on owns. *)
Definition BLK_collections : list string :=
["BLK_BOARD"%string] ++ map pieces_collection COLORS ++ ["BLK_TMP"%string].

(** ** What [apply_boolean] comes to

    The answer and the world after the call, read off the two solver
    attempts: both objects have their rotation and scale applied, the
    target's mesh is replaced when an attempt succeeds, the target is the
    active object and the solvers tried are logged. *)
Section BooleanOutcome.
Variables Mesh Xform : Type.
Variable bake : Xform -> Mesh -> Mesh.
Variable xf_id : Xform.
Variable solve : Solver -> Operation -> Mesh -> Mesh -> option Mesh.

Definition boolean_outcome (operation : Operation) (w : World Mesh Xform)
  : bool * World Mesh Xform :=
let target := apply_rot_scale bake xf_id (w_target w) in
let cutter := apply_rot_scale bake xf_id (w_cutter w) in
match solve EXACT operation (mo_data target) (mo_data cutter) with
| Some mesh =>
    (true, {| w_target := set_data mesh target; w_cutter := cutter;
              w_active := Some Target;
              w_solver_runs := w_solver_runs w ++ [EXACT] |})
| None =>
    match solve FAST operation (mo_data target) (mo_data cutter) with
    | Some mesh =>
        (true, {| w_target := set_data mesh target; w_cutter := cutter;
                  w_active := Some Target;
                  w_solver_runs := w_solver_runs w ++ [EXACT; FAST] |})
    | None =>
        (false, {| w_target := target; w_cutter := cutter;
                   w_active := Some Target;
                   w_solver_runs := w_solver_runs w ++ [EXACT; FAST] |})
    end
end.

End BooleanOutcome.

(** ** 5.3 The piece pipeline *)

(** An f-string: its parts, joined. *)
Definition fstr (parts : list string) : string := String.concat "" parts.

(** A finished piece: the object and its four custom properties. *)
Record Piece (R Mesh Xform : Type) := {
  piece_object : MeshObject Mesh Xform;
  piece_blk_cell : R;
  piece_blk_clear : R;
  piece_blk_piece_name : string;
  piece_blk_color : string
}.

(** The scene, and the calls of [apply_boolean] made so far: for each its
    operation and the solvers it ran. *)
Record PipeState := {
  ps_scene : Scene;
  ps_booleans : list (Operation * list Solver)
}.

Definition with_scene (f : Scene -> Scene) (st : PipeState) : PipeState :=
{| ps_scene := f (ps_scene st); ps_booleans := ps_booleans st |}.

(** A new object, linked to the scene collection: what
    [bpy.data.objects.new] followed by [scene.collection.objects.link]
    leaves, and what the operators of [bpy.ops] leave for the object they
    make. *)
Definition new_object (name : ObjName) (sc : Scene) : Scene :=
{| data_objects := data_objects sc ++ [name];
   data_collections := data_collections sc;
   scene_children := scene_children sc;
   scene_objects := scene_objects sc ++ [name] |}.

Section Pipeline.
Context {R : Type} `{PyNum R}.
Variables Mesh Xform : Type.
Variable bake : Xform -> Mesh -> Mesh.
Variable xf_id : Xform.
Variable solve : Solver -> Operation -> Mesh -> Mesh -> option Mesh.
Variable faces_new_ok : list Face -> Face -> bool.
(** [bm.to_mesh], the bevel modifier of the given width once applied, the
    mesh of the bars once joined, and
    [bpy.ops.mesh.normals_make_consistent]. *)
Variable to_mesh : BMesh R -> Mesh.
Variable bevel_apply : R -> Mesh -> Mesh.
Variable join_bars : list (PrimObject R) -> Mesh.
Variable normals_make_consistent : Mesh -> Mesh.

(** An object fresh from its builder: no rotation or scale left to
    apply, no modifier. *)
Definition mesh_object (name : ObjName) (data : Mesh) : MeshObject Mesh Xform :=
{| mo_name := name; mo_data := data; mo_rot_scale := xf_id; mo_modifiers := [] |}.

(** [apply_boolean(target, cutter, operation)]: the answer, the two
    objects afterwards, and the call logged. *)
Definition run_apply_boolean (target cutter : MeshObject Mesh Xform)
  (operation : Operation) (st : PipeState)
  : result bool * MeshObject Mesh Xform * MeshObject Mesh Xform * PipeState :=
let w := {| w_target := target; w_cutter := cutter;
            w_active := None; w_solver_runs := [] |} in
let rw := apply_boolean bake xf_id solve operation w in
(fst rw, w_target (snd rw), w_cutter (snd rw),
 {| ps_scene := ps_scene st;
    ps_booleans := ps_booleans st ++ [(operation, w_solver_runs (snd rw))] |}).

(** Steps 3 and 4 and the cleanup of the cutter. *)
Definition cut_grooves (piece_obj cutter : MeshObject Mesh Xform)
  (trim_name : ObjName) (keep_cutters : bool) (st : PipeState)
  : result (MeshObject Mesh Xform) * PipeState :=
(* a copy of the piece for the intersection *)
let piece_copy :=
  {| mo_name := trim_name; mo_data := mo_data piece_obj;
     mo_rot_scale := mo_rot_scale piece_obj;
     mo_modifiers := mo_modifiers piece_obj |} in
let st := with_scene (new_object trim_name) st in
let '(r, cutter, _, st) := run_apply_boolean cutter piece_copy INTERSECT st in
match r with
| Raise e => (Raise e, st)
| Ok ok =>
    (* remove the copy *)
    let st := with_scene (objects_remove trim_name) st in
    let '(r, piece_obj, cutter, st) :=
      if ok then run_apply_boolean piece_obj cutter DIFFERENCE st
      else (Ok false, piece_obj, cutter, st) in
    match r with
    | Raise e => (Raise e, st)
    | Ok _ =>
        let st :=
          if negb keep_cutters then
            if obj_mem (mo_name cutter) (data_objects (ps_scene st))
            then with_scene (objects_remove (mo_name cutter)) st else st
          else with_scene (link_to_collection (mo_name cutter) "BLK_TMP") st in
        (Ok piece_obj, st)
    end
end.

(** The outer [None] stands for the fuel of the outline walk running
    out. *)
Definition create_piece_with_grooves (piece_name : string) (cells : list Cell)
  (color : string) (p : BLK_Properties R) (st : PipeState)
  : option (result (option (Piece R Mesh Xform)) * PipeState) :=
let obj_name := Named (fstr ["BLK_P_"; color; "_"; piece_name]%string) in
let col_name := pieces_collection color in
(* 1) the extruded piece *)
match create_piece_mesh faces_new_ok obj_name cells (cell p) (piece_t p) (bevel_top p) with
| None => None
| Some None => Some (Ok None, st)
| Some (Some pm) =>
    let mesh := to_mesh (pm_mesh pm) in
    let mesh :=
      match pm_bevel_top pm with
      | Some width => bevel_apply width mesh
      | None => mesh
      end in
    let piece_obj := mesh_object (pm_name pm) mesh in
    let st := with_scene (new_object (pm_name pm)) st in
    (* 2) the groove cutter *)
    let cutter_name := Named (fstr ["_BLK_CUT_"; color; "_"; piece_name]%string) in
    match make_groove_cutter cutter_name cells (cell p) (groove_w p) (groove_d p)
                             (piece_t p) with
    | Raise e => Some (Raise e, st)
    | Ok cutter =>
        let '(r, st) :=
          match cutter with
          | Some c =>
              let st := with_scene (new_object (joined_name c)) st in
              cut_grooves piece_obj
                (mesh_object (joined_name c) (join_bars (joined_parts c)))
                (Named (fstr ["_trim_"; fstr ["BLK_P_"; color; "_"; piece_name]]%string))
                (keep_cutters p) st
          | None => (Ok piece_obj, st)
          end in
        match r with
        | Raise e => Some (Raise e, st)
        | Ok piece_obj =>
            (* normals, custom properties, collection *)
            let piece_obj :=
              set_data (normals_make_consistent (mo_data piece_obj)) piece_obj in
            let st := with_scene (link_to_collection (mo_name piece_obj) col_name) st in
            Some (Ok (Some {| piece_object := piece_obj;
                              piece_blk_cell := cell p;
                              piece_blk_clear := clear p;
                              piece_blk_piece_name := piece_name;
                              piece_blk_color := color |}), st)
        end
    end
end.

End Pipeline.

(** What the result of the pipeline is measured against: the answer of a
    Boolean with its retry, the solvers it runs, and the mesh of a piece
    extruded as [ext] once the bars [bars] have been trimmed to it and
    subtracted from it, with the calls of [apply_boolean] this takes. *)
Section Grooved.
Variables Mesh Xform : Type.
Variable bake : Xform -> Mesh -> Mesh.
Variable xf_id : Xform.
Variable solve : Solver -> Operation -> Mesh -> Mesh -> option Mesh.

Definition boolean_result (operation : Operation) (target tool : Mesh) : option Mesh :=
match solve EXACT operation target tool with
| Some mesh => Some mesh
| None => solve FAST operation target tool
end.

Definition solver_runs (operation : Operation) (target tool : Mesh) : list Solver :=
match solve EXACT operation target tool with
| Some _ => [EXACT]
| None => [EXACT; FAST]
end.

Definition grooved (ext bars : Mesh) : Mesh * list (Operation * list Solver) :=
match boolean_result INTERSECT (bake xf_id bars) (bake xf_id ext) with
| None =>
    (ext, [(INTERSECT, solver_runs INTERSECT (bake xf_id bars) (bake xf_id ext))])
| Some trimmed =>
    (match boolean_result DIFFERENCE (bake xf_id ext) (bake xf_id trimmed) with
     | Some mesh => mesh
     | None => bake xf_id ext
     end,
     [(INTERSECT, solver_runs INTERSECT (bake xf_id bars) (bake xf_id ext));
      (DIFFERENCE, solver_runs DIFFERENCE (bake xf_id ext) (bake xf_id trimmed))])
end.

End Grooved.

(** The scene after the cutter has been dealt with. *)
Definition cutter_cleanup (keep_cutters : bool) (cutter : ObjName) (sc : Scene) : Scene :=
if negb keep_cutters then
  if obj_mem cutter (data_objects sc) then objects_remove cutter sc else sc
else link_to_collection cutter "BLK_TMP" sc.

(** The names [create_piece_with_grooves] gives to the piece, to its
    cutter and to the copy it trims the cutter with. *)
Definition piece_object_name (color piece_name : string) : ObjName :=
Named (fstr ["BLK_P_"; color; "_"; piece_name]%string).

Definition cutter_object_name (color piece_name : string) : ObjName :=
Named (fstr ["_BLK_CUT_"; color; "_"; piece_name]%string).

Definition trim_object_name (color piece_name : string) : ObjName :=
Named (fstr ["_trim_"; fstr ["BLK_P_"; color; "_"; piece_name]]%string).

(** The mesh of the piece object before the grooves are cut. *)
Definition extruded_mesh {R Mesh} (to_mesh : BMesh R -> Mesh)
  (bevel_apply : R -> Mesh -> Mesh) (pm : PieceMesh R) : Mesh :=
match pm_bevel_top pm with
| Some width => bevel_apply width (to_mesh (pm_mesh pm))
| None => to_mesh (pm_mesh pm)
end.

(** The scene once a piece has gone through the pipeline. *)
Definition pipeline_scene (color piece_name : string) (keep_cutters : bool)
  (sc : Scene) : Scene :=
let pn := piece_object_name color piece_name in
let cn := cutter_object_name color piece_name in
let trim := trim_object_name color piece_name in
link_to_collection pn (pieces_collection color)
  (cutter_cleanup keep_cutters cn
     (objects_remove trim (new_object trim (new_object cn (new_object pn sc))))).

(** ** The operator [BLK_OT_GeneratePieces] *)

Inductive PiecesReport (R : Type) : Type :=
| Report_piece_msg (m : PieceMsg)
| Report_param_msg (m : ParamMsg R)
| Report_generated (total : Z).
Arguments Report_piece_msg {R} m.
Arguments Report_generated {R} total.

(** The return value of [execute], what it reported, the scene and the
    Boolean calls afterwards, and for each colour the pieces made, in the
    order of the catalogue, and the same pieces as the layout left them:
    sorted, moved, and shifted by the offset of the colour. *)
Record PiecesRun (R Mesh Xform : Type) := {
  pr_status : OperatorStatus;
  pr_reports : list (ReportType * PiecesReport R);
  pr_state : PipeState;
  pr_pieces : list (string * list (Piece R Mesh Xform));
  pr_placed : list (string * list (PieceObject R))
}.

Section GeneratePieces.
Context {R : Type} `{PyNum R}.
Variables Mesh Xform : Type.
Variable bake : Xform -> Mesh -> Mesh.
Variable xf_id : Xform.
Variable solve : Solver -> Operation -> Mesh -> Mesh -> option Mesh.
Variable faces_new_ok : list Face -> Face -> bool.
Variable to_mesh : BMesh R -> Mesh.
Variable bevel_apply : R -> Mesh -> Mesh.
Variable join_bars : list (PrimObject R) -> Mesh.
Variable normals_make_consistent : Mesh -> Mesh.
(** The two opposite corners of [obj.bound_box] for a mesh. *)
Variable bound_box_of : Mesh -> Vec3 R * Vec3 R.
Local Open Scope py_scope.

(** The loop [for piece_name, cells in PIECES.items()]: the objects
    that are not [None]. *)
Fixpoint create_pieces (pieces : list (string * list Cell)) (color : string)
  (p : BLK_Properties R) (st : PipeState)
  : option (result (list (Piece R Mesh Xform)) * PipeState) :=
match pieces with
| [] => Some (Ok [], st)
| (piece_name, cells) :: rest =>
    match create_piece_with_grooves bake xf_id solve faces_new_ok to_mesh bevel_apply
            join_bars normals_make_consistent piece_name cells color p st with
    | None => None
    | Some (Raise e, st) => Some (Raise e, st)
    | Some (Ok obj, st) =>
        match create_pieces rest color p st with
        | None => None
        | Some (Raise e, st) => Some (Raise e, st)
        | Some (Ok piece_objs, st) =>
            Some (Ok (match obj with
                      | Some o => o :: piece_objs
                      | None => piece_objs
                      end), st)
        end
    end
end.

(** A new piece as the layout sees it: at the origin, where Blender
    puts a new object. *)
Definition layout_view (pc : Piece R Mesh Xform) : PieceObject R :=
let data := mo_data (piece_object pc) in
{| po_name := mo_name (piece_object pc);
   po_bb_min := fst (bound_box_of data);
   po_bb_max := snd (bound_box_of data);
   po_location := (lit 0.0, lit 0.0, lit 0.0) |}.

(** [obj.location.y += color_offset_y]. *)
Definition shift_y (dy : R) (obj : PieceObject R) : PieceObject R :=
let '(lx, ly, lz) := po_location obj in set_location (lx, ly + dy, lz) obj.

(** The loop [for ci, color in enumerate(colors)]. *)
Fixpoint generate_colors (colors : list (Z * string)) (p : BLK_Properties R)
  (st : PipeState)
  : option (result (list (string * list (Piece R Mesh Xform))
                    * list (string * list (PieceObject R))) * PipeState) :=
match colors with
| [] => Some (Ok ([], []), st)
| (ci, color) :: rest =>
    match create_pieces PIECES color p st with
    | None => None
    | Some (Raise e, st) => Some (Raise e, st)
    | Some (Ok piece_objs, st) =>
        (* Layout with Y offset per color *)
        let color_offset_y := of_int ci * (cell p * of_int 12 + layout_gap p * of_int 5) in
        match layout_pieces_shelf color (map layout_view piece_objs)
                                  (layout_gap p) (cell p) with
        | Raise e => Some (Raise e, st)
        | Ok placed =>
            let placed := map (shift_y color_offset_y) placed in
            match generate_colors rest p st with
            | None => None
            | Some (Raise e, st) => Some (Raise e, st)
            | Some (Ok (made, laid), st) =>
                Some (Ok ((color, piece_objs) :: made, (color, placed) :: laid), st)
            end
        end
    end
end.

Definition total_pieces (made : list (string * list (Piece R Mesh Xform))) : Z :=
fold_left (fun total g => total + Z.of_nat (List.length (snd g)))%Z made 0%Z.

Definition BLK_OT_GeneratePieces_execute (p : BLK_Properties R) (st : PipeState)
  : option (result (PiecesRun R Mesh Xform)) :=
let cancelled reports :=
  {| pr_status := CANCELLED; pr_reports := reports; pr_state := st;
     pr_pieces := []; pr_placed := [] |} in
match validate_pieces with
| None => None
| Some (Raise e) => Some (Raise e)
| Some (Ok (ok_p, msgs_p)) =>
    if negb ok_p then
      Some (Ok (cancelled (map (fun m => (ERROR, Report_piece_msg m)) msgs_p)))
    else
      let (ok_v, msgs_v) := validate_params p in
      if negb ok_v then
        Some (Ok (cancelled (map (fun m => (ERROR, Report_param_msg m)) msgs_v)))
      else
        let colors := enabled_colors p in
        let st :=
          fold_left (fun st color =>
                       with_scene (wipe_collection (pieces_collection color)) st)
                    colors st in
        let st := with_scene (wipe_collection "BLK_TMP") st in
        match generate_colors (py_enumerate colors) p st with
        | None => None
        | Some (Raise e, _) => Some (Raise e)
        | Some (Ok (made, laid), st) =>
            let st :=
              if negb (keep_cutters p)
              then with_scene (wipe_collection "BLK_TMP") st else st in
            Some (Ok {| pr_status := FINISHED;
                        pr_reports := [(INFO, Report_generated (total_pieces made))];
                        pr_state := st;
                        pr_pieces := made;
                        pr_placed := laid |})
    end
end.

End GeneratePieces.

(** The scene once the pieces named [names] of one colour have gone
    through the pipeline, and once those of the catalogue have for each
    of [colors]. *)
Definition pieces_scene (color : string) (keep_cutters : bool) (names : list string)
  (sc : Scene) : Scene :=
fold_left (fun sc piece_name => pipeline_scene color piece_name keep_cutters sc) names sc.

Definition colors_scene (keep_cutters : bool) (colors : list string) (sc : Scene) : Scene :=
fold_left (fun sc color => pieces_scene color keep_cutters (map fst PIECES) sc) colors sc.

(** An object named as a piece is. *)
Definition piece_named (o : ObjName) : Prop :=
exists color piece_name, o = piece_object_name color piece_name.

(** What [execute] keeps of a piece: its four custom properties and the
    name of its object. *)
Definition piece_label {R Mesh Xform} (pc : Piece R Mesh Xform)
  : string * string * R * R * ObjName :=
(piece_blk_piece_name pc, piece_blk_color pc, piece_blk_cell pc, piece_blk_clear pc,
 mo_name (piece_object pc)).

(** ** 7. STL export *)

(** [s.lower()] on ASCII text. *)
Definition ascii_lower (c : Ascii.ascii) : Ascii.ascii :=
let n := Ascii.nat_of_ascii c in
if Nat.leb 65 n && Nat.leb n 90 then Ascii.ascii_of_nat (n + 32) else c.

Fixpoint lower (s : string) : string :=
match s with
| EmptyString => EmptyString
| String c s => String (ascii_lower c) (lower s)
end.

(** A file path: the components given to [os.path.join] before the file
    name, and the file name f"{stem}.stl", whose stem is the name of an
    object or a colour in lower case. *)
Inductive FileStem : Type :=
| Stem_object (o : ObjName)
| Stem_color (color : string).

Record StlPath := {
  path_dirs : list string;
  path_stem : FileStem
}.

(** What the export leaves to the operating system and to Blender, each
    call with what it raises, if anything: [os.makedirs(dirpath,
    exist_ok=True)], which raises OSError on a directory that cannot be
    made; the selection of a list of objects
    ([bpy.ops.object.select_all(action='DESELECT')], [obj.select_set(True)]
    on each); [bpy.ops.object.transform_apply] on the selected object; and
    [bpy.ops.export_mesh.stl] on a file and the selection. *)
Record ExportEnv := {
  os_makedirs : list string -> result unit;
  bpy_select : list ObjName -> result unit;
  bpy_transform_apply : ObjName -> result unit;
  bpy_export_stl : StlPath -> list ObjName -> result unit
}.

(** One call of [bpy.ops.export_mesh.stl]: the file, the objects selected,
    the active object and the objects whose rotation and scale have been
    applied. *)
Record StlExport := {
  stl_filepath : StlPath;
  stl_selected : list ObjName;
  stl_active : ObjName;
  stl_applied : list ObjName
}.

(** [objects[0]]. *)
Definition first_object (objects : list ObjName) : result ObjName :=
match objects with
| [] => Raise (IndexError "list index out of range")
| first :: _ => Ok first
end.

Definition export_stl_objects (env : ExportEnv) (objects : list ObjName)
  (filepath : StlPath) (apply_transforms : bool) : result StlExport :=
let dirpath := path_dirs filepath in
_ <- os_makedirs env dirpath ;;
_ <- bpy_select env objects ;;
active <- first_object objects ;;
active <-
  (if apply_transforms then
     _ <- result_map (fun obj =>
                        _ <- bpy_select env [obj] ;;
                        bpy_transform_apply env obj) objects ;;
     (* Re-select all *)
     _ <- bpy_select env objects ;;
     first_object objects
   else Ok active) ;;
_ <- bpy_export_stl env filepath objects ;;
Ok {| stl_filepath := filepath;
      stl_selected := objects;
      stl_active := active;
      stl_applied := if apply_transforms then objects else [] |}.

(** *** The operator [BLK_OT_ExportSTL] *)

Inductive ExportReport : Type :=
| Report_no_export_dir
| Report_exported (exported : Z) (base_dir : string).

(** The counter [exported] and the files written so far. *)
Definition ExportLog : Type := Z * list StlExport.

(** A call of [export_stl_objects] followed by [exported += 1]. *)
Definition export_and_count (env : ExportEnv) (objects : list ObjName)
  (filepath : StlPath) (apply_transforms : bool) (log : ExportLog) : result ExportLog :=
e <- export_stl_objects env objects filepath apply_transforms ;;
Ok (fst log + 1, snd log ++ [e]).

(** [for x in l: body], the body working on the log. *)
Fixpoint export_for {A} (body : A -> ExportLog -> result ExportLog) (l : list A)
  (log : ExportLog) : result ExportLog :=
match l with
| [] => Ok log
| x :: rest => log <- body x log ;; export_for body rest log
end.

(** The block exporting the board tiles, which occurs twice. *)
Definition export_board_tiles {R} (env : ExportEnv) (base_dir : string)
  (p : BLK_Properties R) (sc : Scene) (log : ExportLog) : result ExportLog :=
let col_name := "BLK_BOARD"%string in
if has_collection col_name sc then
  let board_dir := [base_dir; "board"%string] in
  export_for (fun obj log =>
                let fpath := {| path_dirs := board_dir; path_stem := Stem_object obj |} in
                export_and_count env [obj] fpath (apply_transforms p) log)
             (collection_objects col_name sc) log
else Ok log.

(** [execute], [base_dir] being [bpy.path.abspath(p.export_dir)]: the
    return value, the report and the files written. *)
Definition BLK_OT_ExportSTL_execute {R} (env : ExportEnv) (base_dir : string)
  (p : BLK_Properties R) (sc : Scene)
  : result (OperatorStatus * list (ReportType * ExportReport) * list StlExport) :=
if String.eqb base_dir "" then
  Ok (CANCELLED, [(ERROR, Report_no_export_dir)], [])
else
  let log : ExportLog := (0, []) in
  log <-
    match export_mode p with
    | BOARD_TILES => export_board_tiles env base_dir p sc log
    | PER_PIECE =>
        export_for
          (fun color log =>
             let col_name := pieces_collection color in
             if has_collection col_name sc then
               let piece_dir := [base_dir; "pieces"%string; lower color] in
               export_for
                 (fun obj log =>
                    let fpath := {| path_dirs := piece_dir;
                                    path_stem := Stem_object obj |} in
                    export_and_count env [obj] fpath (apply_transforms p) log)
                 (collection_objects col_name sc) log
             else Ok log)
          (enabled_colors p) log
    | PER_COLOR =>
        export_for
          (fun color log =>
             let col_name := pieces_collection color in
             if has_collection col_name sc then
               let objs := collection_objects col_name sc in
               match objs with
               | _ :: _ =>
                   let piece_dir := [base_dir; "pieces"%string] in
                   let fpath := {| path_dirs := piece_dir;
                                   path_stem := Stem_color (lower color) |} in
                   export_and_count env objs fpath (apply_transforms p) log
               | [] => Ok log
               end
             else Ok log)
          (enabled_colors p) log
    end ;;
  (* Also export board tiles if not in board-only mode *)
  log <-
    match export_mode p with
    | PER_PIECE | PER_COLOR => export_board_tiles env base_dir p sc log
    | BOARD_TILES => Ok log
    end ;;
  Ok (FINISHED, [(INFO, Report_exported (fst log) base_dir)], snd log).

(** The exception is one that a call of the environment raises. *)
Definition raised_by (env : ExportEnv) (e : exn) : Prop :=
(exists dirpath, os_makedirs env dirpath = Raise e) \/
(exists objects, bpy_select env objects = Raise e) \/
(exists obj, bpy_transform_apply env obj = Raise e) \/
(exists filepath objects, bpy_export_stl env filepath objects = Raise e).

(** An environment in which every directory can be made and Blender
    raises nothing. *)
Definition env_succeeds (env : ExportEnv) : Prop :=
(forall dirpath, os_makedirs env dirpath = Ok tt) /\
(forall objects, bpy_select env objects = Ok tt) /\
(forall obj, bpy_transform_apply env obj = Ok tt) /\
(forall filepath objects, bpy_export_stl env filepath objects = Ok tt).

(** The files of the three kinds, as [(path, objects)]. *)
Definition tile_files (base_dir : string) (sc : Scene) : list (StlPath * list ObjName) :=
map (fun obj => ({| path_dirs := [base_dir; "board"%string];
                    path_stem := Stem_object obj |}, [obj]))
    (collection_objects "BLK_BOARD" sc).

Definition piece_files (base_dir color : string) (sc : Scene)
  : list (StlPath * list ObjName) :=
map (fun obj => ({| path_dirs := [base_dir; "pieces"%string; lower color];
                    path_stem := Stem_object obj |}, [obj]))
    (collection_objects (pieces_collection color) sc).

Definition color_files (base_dir color : string) (sc : Scene)
  : list (StlPath * list ObjName) :=
match collection_objects (pieces_collection color) sc with
| [] => []
| objs => [({| path_dirs := [base_dir; "pieces"%string];
               path_stem := Stem_color (lower color) |}, objs)]
end.

(** What a log is checked for: the counter is the number of files, and
    every file has a selection, whose first object is the active one and
    whose transforms have been applied if asked for. *)
Definition export_view (files : list StlExport) : list (StlPath * list ObjName) :=
map (fun e => (stl_filepath e, stl_selected e)) files.

Definition export_sound (apply_transforms : bool) (e : StlExport) : Prop :=
(exists rest, stl_selected e = stl_active e :: rest) /\
stl_applied e = if apply_transforms then stl_selected e else [].

Definition log_sound (apply_transforms : bool) (log : ExportLog) : Prop :=
fst log = Z.of_nat (List.length (snd log)) /\
forall e, In e (snd log) -> export_sound apply_transforms e.

(** What a step of the export comes to, from a log [log]: either the log
    with the files [files] added and still sound, or an exception that
    the environment raised. *)
Definition export_step (env : ExportEnv) (apply_transforms : bool)
  (files : list (StlPath * list ObjName)) (log : ExportLog) (r : result ExportLog) : Prop :=
match r with
| Ok log' =>
    log_sound apply_transforms log' /\
    export_view (snd log') = export_view (snd log) ++ files
| Raise e => raised_by env e
end.

(** The files the operator writes in each mode. *)
Definition exported_files {R} (base_dir : string) (p : BLK_Properties R) (sc : Scene)
  : list (StlPath * list ObjName) :=
match export_mode p with
| BOARD_TILES => tile_files base_dir sc
| PER_PIECE =>
    flat_map (fun color => piece_files base_dir color sc) (enabled_colors p)
    ++ tile_files base_dir sc
| PER_COLOR =>
    flat_map (fun color => color_files base_dir color sc) (enabled_colors p)
    ++ tile_files base_dir sc
end.

(** ** The exact value of a binary64 float

    What a float computed by the code is worth as a number: a finite
    float is [(-1)^s * m * 2^e]; an infinity or a NaN has no value. *)
Definition sf_value (x : spec_float) : option Q :=
match x with
| S754_zero _ => Some 0%Q
| S754_finite s m e =>
    let z := if s then Zneg m else Zpos m in
    Some (if 0 <=? e then inject_Z (z * 2 ^ e) else (z # (2 ^ Z.to_pos (- e)))%Q)
| S754_infinity _ => None
| S754_nan => None
end.

Definition float_value (x : float) : option Q := sf_value (Prim2SF x).

Definition finite (x : float) : bool :=
match float_value x with Some _ => true | None => false end.

Definition valQ (x : float) : Q :=
match float_value x with Some q => q | None => 0%Q end.

(** A finite float that single precision can hold: Blender keeps the
    coordinates of a mesh and the location of an object in single
    precision, so that a value the code assigns is kept as it is only when
    it is of this kind.  With [m'] the odd part of the mantissa and [e']
    its exponent, the value [m' * 2^e'] is in single precision when [m']
    has at most 24 bits, [e'] is at least -149 and the value is below
    2^128. *)
Fixpoint odd_part (m : positive) : positive :=
match m with
| xO m' => odd_part m'
| _ => m
end.

Fixpoint trailing_zeros (m : positive) : Z :=
match m with
| xO m' => 1 + trailing_zeros m'
| _ => 0
end.

Definition single_precision (x : float) : bool :=
match Prim2SF x with
| S754_zero _ => true
| S754_finite _ m e =>
    let m' := Zpos (odd_part m) in
    let e' := e + trailing_zeros m in
    (Z.log2 m' <? 24) && (-149 <=? e') && (Z.log2 m' + e' <? 128)
| S754_infinity _ => false
| S754_nan => false
end.

Definition vec_val (v : Vec3 float) : Vec3 Q :=
(valQ (vec_x v), valQ (vec_y v), valQ (vec_z v)).

Definition vec_finite (v : Vec3 float) : bool :=
finite (vec_x v) && finite (vec_y v) && finite (vec_z v).

Definition vec_single (v : Vec3 float) : bool :=
single_precision (vec_x v) && single_precision (vec_y v) && single_precision (vec_z v).

(** Two triples of the same numbers. *)
Definition vec_equiv (u v : Vec3 Q) : Prop :=
(vec_x u == vec_x v /\ vec_y u == vec_y v /\ vec_z u == vec_z v)%Q.

(** *** Pieces on the plate, valued *)

Definition po_val (o : PieceObject float) : PieceObject Q :=
{| po_name := po_name o;
   po_bb_min := vec_val (po_bb_min o);
   po_bb_max := vec_val (po_bb_max o);
   po_location := vec_val (po_location o) |}.

Definition po_finite (o : PieceObject float) : bool :=
vec_finite (po_bb_min o) && vec_finite (po_bb_max o) && vec_finite (po_location o).

Definition po_equiv (a b : PieceObject Q) : Prop :=
po_name a = po_name b /\ vec_equiv (po_bb_min a) (po_bb_min b) /\
vec_equiv (po_bb_max a) (po_bb_max b) /\ vec_equiv (po_location a) (po_location b).

(** The binary64 run of the layout goes without rounding: the gap, the
    cell size and the boxes are finite, the run in exact arithmetic on
    their values returns the pieces in the same order with the same
    numbers, and the locations assigned are kept as they are by Blender. *)
Definition layout_exact (color : string) (pieces : list (PieceObject float))
  (gap cell : float) (placed : list (PieceObject float)) : Prop :=
finite gap = true /\ finite cell = true /\
Forall (fun o => po_finite o = true) pieces /\
Forall (fun o => po_finite o = true /\ vec_single (po_location o) = true) placed /\
exists exact,
  layout_pieces_shelf color (map po_val pieces) (valQ gap) (valQ cell) = Ok exact /\
  Forall2 po_equiv (map po_val placed) exact.

(** *** Primitives, valued *)

Definition prim_val (o : PrimObject float) : PrimObject Q :=
{| ob_name := ob_name o;
   ob_prim :=
     match ob_prim o with
     | Cube size location scale => Cube (valQ size) (vec_val location) (vec_val scale)
     | Cylinder radius depth location vertices =>
         Cylinder (valQ radius) (valQ depth) (vec_val location) vertices
     end;
   ob_is_hole := ob_is_hole o |}.

(** The numbers of a primitive are finite and kept as they are by
    Blender. *)
Definition prim_kept (o : PrimObject float) : bool :=
match ob_prim o with
| Cube size location scale =>
    finite size && vec_finite location && vec_finite scale
    && vec_single location && vec_single scale
| Cylinder radius depth location _ =>
    finite radius && finite depth && vec_finite location
    && single_precision radius && single_precision depth && vec_single location
end.

Definition prim_equiv (a b : PrimObject Q) : Prop :=
ob_name a = ob_name b /\
match ob_prim a, ob_prim b with
| Cube s l sc, Cube s' l' sc' => (s == s')%Q /\ vec_equiv l l' /\ vec_equiv sc sc'
| Cylinder r d l v, Cylinder r' d' l' v' =>
    (r == r')%Q /\ (d == d')%Q /\ vec_equiv l l' /\ v = v'
| _, _ => False
end.

(** The binary64 construction of a groove cutter goes without rounding:
    the sizes are finite, the footprint of the piece and the bars are
    computed to the numbers exact arithmetic gives on the same values,
    and Blender keeps the bars as they are. *)
Definition cutter_exact (name : ObjName) (cells : list Cell)
  (cell_size groove_w groove_d piece_t : float) (cutter : JoinedObject float) : Prop :=
finite cell_size = true /\ finite groove_w = true /\
Forall (fun bar => prim_kept bar = true) (joined_parts cutter) /\
(exists x_lo x_hi y_lo y_hi,
   piece_footprint cells cell_size = Ok (x_lo, x_hi, y_lo, y_hi) /\
   finite x_lo = true /\ finite x_hi = true /\ finite y_lo = true /\ finite y_hi = true /\
   exists qx_lo qx_hi qy_lo qy_hi,
     piece_footprint cells (valQ cell_size) = Ok (qx_lo, qx_hi, qy_lo, qy_hi) /\
     (valQ x_lo == qx_lo /\ valQ x_hi == qx_hi /\
      valQ y_lo == qy_lo /\ valQ y_hi == qy_hi)%Q) /\
exists exact,
  make_groove_cutter name cells (valQ cell_size) (valQ groove_w) (valQ groove_d)
    (valQ piece_t) = Ok (Some exact) /\
  Forall2 prim_equiv (map prim_val (joined_parts cutter)) (joined_parts exact).

(** * Part II: properties *)

(** ** Numbers *)

(** The decimal literals of [validate_params], read through [lit], are the
    binary64 values nearest to them. *)
Lemma float_literals :
  lit (R:=float) 1.6 = 0x1.999999999999ap+0%float /\
  lit (R:=float) 0.35 = 0x1.6666666666666p-2%float /\
  lit (R:=float) 0.25 = 0x1p-2%float.
Proof. repeat split. Qed.

(** ** Parameter validation *)

Section ValidationFacts.
Context {R : Type} `{PyNum R}.
Local Open Scope py_scope.

Lemma append_if_true_In {A} (m : A) msgs : In m (append_if true m msgs).
Proof. simpl. apply in_or_app. right. now left. Qed.

Lemma append_if_keeps {A} (c : bool) (m x : A) msgs :
  In x msgs -> In x (append_if c m msgs).
Proof. destruct c; simpl; auto using in_or_app. Qed.

Lemma nonempty_not_ok {A} (x : A) msgs :
  In x msgs -> Nat.eqb (List.length msgs) 0 = false.
Proof. destruct msgs; simpl; [contradiction | reflexivity]. Qed.

(** A message in the list makes [ok] false. *)
Lemma validate_params_msg_not_ok (p : BLK_Properties R) m :
  In m (snd (validate_params p)) -> fst (validate_params p) = false.
Proof. unfold validate_params. simpl. apply nonempty_not_ok. Qed.

Lemma remaining_wall_msg (p : BLK_Properties R) :
  (remaining p <? lit 1.6) = true ->
  In (Msg_remaining_wall (remaining p)) (snd (validate_params p)).
Proof.
  intros Hc. unfold validate_params. simpl. rewrite Hc.
  do 3 apply append_if_keeps. apply append_if_true_In.
Qed.

Lemma clearance_large_msg (p : BLK_Properties R) :
  (clear p >? lit 0.35) = true ->
  In (Msg_clearance_large (clear p)) (snd (validate_params p)).
Proof.
  intros Hc. unfold validate_params. simpl. rewrite Hc.
  apply append_if_keeps. apply append_if_true_In.
Qed.

Lemma groove_not_wider_msg (p : BLK_Properties R) :
  (groove_w p <=? rib_w p) = true ->
  In Msg_groove_not_wider (snd (validate_params p)).
Proof.
  intros Hc. unfold validate_params. simpl. rewrite Hc.
  apply append_if_true_In.
Qed.

(** The operator cancels, and leaves the board collection alone, as soon
    as one message is produced. *)
Lemma generate_board_cancelled (p : BLK_Properties R) board :
  fst (validate_params p) = false ->
  BLK_OT_GenerateBoard_execute p board =
  Ok {| run_status := CANCELLED;
        run_reports := map (fun m => (ERROR, Report_param m)) (snd (validate_params p));
        run_board := board |}.
Proof.
  intros Hok. unfold BLK_OT_GenerateBoard_execute.
  destruct (validate_params p) as [ok msgs]. simpl in *. now rewrite Hok.
Qed.

End ValidationFacts.

(** C1, as stated, fails: with the documented defaults and a clearance of
    0.5mm every other invariant holds, yet [validate_params] answers
    [ok = false] and board generation is cancelled. *)
Lemma C1_large_clearance_blocks_generation :
  let p := set_clear (lit 0.5) (default_params (R:=Q)) in
  other_invariants_hold p = true /\
  nltb (lit 0.35) (clear p) = true /\
  validate_params p = (false, [Msg_clearance_large 0.5%Q]) /\
  BLK_OT_GenerateBoard_execute p [] =
  Ok {| run_status := CANCELLED;
        run_reports := [(ERROR, Report_param (Msg_clearance_large 0.5%Q))];
        run_board := [] |}.
Proof. repeat split. Qed.

(** C1 (amended): a clearance above 0.35mm is a hard error like the
    others.  For every parameter record with [clear > 0.35], whatever the
    arithmetic, [validate_params] returns [ok = false] with the
    large-clearance message in its list, and [BLK_OT_GenerateBoard]
    reports it as an error and cancels without touching the board. *)
Theorem validate_params_large_clearance_is_error :
  forall (R : Type) (N : PyNum R) (p : BLK_Properties R),
    nltb (lit 0.35) (clear p) = true ->
    fst (validate_params p) = false /\
    In (Msg_clearance_large (clear p)) (snd (validate_params p)) /\
    forall board, exists reports,
      BLK_OT_GenerateBoard_execute p board =
      Ok {| run_status := CANCELLED; run_reports := reports; run_board := board |} /\
      In (ERROR, Report_param (Msg_clearance_large (clear p))) reports.
Proof.
  intros R N p Hc.
  pose proof (clearance_large_msg p Hc) as Hin.
  pose proof (validate_params_msg_not_ok p _ Hin) as Hok.
  split; [exact Hok | split; [exact Hin |]].
  intros board. eexists. split.
  - apply generate_board_cancelled. exact Hok.
  - apply in_map_iff. eexists. split; [reflexivity | exact Hin].
Qed.

Lemma validate_params_large_clearance_is_error_witness :
  fst (validate_params (set_clear (lit 0.5) (default_params (R:=float)))) = false.
Proof.
  apply (validate_params_large_clearance_is_error _
           (set_clear (lit 0.5) (default_params (R:=float)))).
  vm_compute. reflexivity.
Defined.

(** C8: [validate_params] rejects, with the matching message, every record
    whose remaining wall [piece_t - (rib_h + 0.25)] is below 1.6 and every
    record whose groove width [rib_w + 2 * clear] is at most [rib_w]; it
    accepts the documented defaults with no message, in exact arithmetic
    and in binary64. *)
Theorem validate_params_rejects_and_accepts_defaults :
  forall (R : Type) (N : PyNum R) (p : BLK_Properties R),
    (nltb (remaining p) (lit 1.6) = true ->
       fst (validate_params p) = false /\
       In (Msg_remaining_wall (remaining p)) (snd (validate_params p))) /\
    (nleb (groove_w p) (rib_w p) = true ->
       fst (validate_params p) = false /\
       In Msg_groove_not_wider (snd (validate_params p))) /\
    validate_params (default_params (R:=Q)) = (true, []) /\
    validate_params (default_params (R:=float)) = (true, []).
Proof.
  intros R N p. repeat split.
  - eapply validate_params_msg_not_ok, remaining_wall_msg; assumption.
  - apply remaining_wall_msg; assumption.
  - eapply validate_params_msg_not_ok, groove_not_wider_msg; assumption.
  - apply groove_not_wider_msg; assumption.
Qed.

Lemma validate_params_rejects_witness :
  fst (validate_params (set_piece_t (lit 2.0) (default_params (R:=float)))) = false /\
  fst (validate_params (set_clear (lit (-0.1)) (default_params (R:=float)))) = false.
Proof.
  split.
  - apply (proj1 (validate_params_rejects_and_accepts_defaults _
                    (set_piece_t (lit 2.0) (default_params (R:=float))))).
    vm_compute. reflexivity.
  - apply (proj1 (proj2 (validate_params_rejects_and_accepts_defaults _
                    (set_clear (lit (-0.1)) (default_params (R:=float)))))).
    vm_compute. reflexivity.
Defined.

(** ** The catalogue *)

(** The catalogue passes its own validation: [validate_pieces] returns
    [(True, [])].  There are 21 shapes and 89 cells, one shape of size 1,
    one of size 2, two of size 3, five of size 4 and twelve of size 5; no
    shape repeats a cell and each is 4-connected. *)
Theorem catalogue_is_valid :
  validate_pieces = Some (Ok (true, [])) /\
  List.length PIECES = 21%nat /\
  fold_left (fun t nc => t + Z.of_nat (List.length (snd nc))) PIECES 0 = 89 /\
  map (size_count PIECES) [1; 2; 3; 4; 5] = [1; 1; 2; 5; 12].
Proof. repeat split. Qed.

(** The connectivity check is where a shape in two parts is caught; a
    shape with a hole passes it. *)
Lemma validate_pieces_reports_disconnected_not_holes :
  check_piece "two" [(0, 0); (2, 0)] = Some (Ok [Msg_not_connected "two"]) /\
  check_piece "ring"
    [(0, 0); (1, 0); (2, 0); (0, 1); (2, 1); (0, 2); (1, 2); (2, 2)] = Some (Ok []).
Proof. split; reflexivity. Qed.

(** ** Outline extraction *)

Lemma vertex_eqb_eq (a b : Vertex) : vertex_eqb a b = true <-> a = b.
Proof.
  destruct a as [ax ay], b as [bx b_y]. unfold vertex_eqb. simpl.
  rewrite andb_true_iff, !Z.eqb_eq. split.
  - intros [-> ->]. reflexivity.
  - intros E. inversion E. auto.
Qed.

Lemma edge_eqb_eq (e f : Edge) : edge_eqb e f = true <-> e = f.
Proof.
  destruct e as [a b], f as [c d]. unfold edge_eqb. simpl.
  rewrite andb_true_iff, !vertex_eqb_eq. split.
  - intros [-> ->]. reflexivity.
  - intros E. inversion E. auto.
Qed.

Lemma edge_mem_In (e : Edge) (s : list Edge) : edge_mem e s = true <-> In e s.
Proof.
  unfold edge_mem. rewrite existsb_exists. split.
  - intros [x [Hin Heq]]. apply edge_eqb_eq in Heq. now subst.
  - intros Hin. exists e. split; [assumption | now apply edge_eqb_eq].
Qed.

Lemma nodupb_sound (l : list Vertex) : nodupb l = true -> NoDup l.
Proof.
  induction l as [|x xs IH]; simpl; intros Hb.
  - constructor.
  - apply andb_true_iff in Hb as [Hx Hxs]. constructor; [|auto].
    intros Hin. apply negb_true_iff in Hx.
    assert (existsb (vertex_eqb x) xs = true) as Ht.
    { apply existsb_exists. exists x. split; [assumption | now apply vertex_eqb_eq]. }
    congruence.
Qed.

Lemma same_edges_sound (l1 l2 : list Edge) :
  same_edges l1 l2 = true -> forall e, In e l1 <-> In e l2.
Proof.
  unfold same_edges. rewrite andb_true_iff, !forallb_forall.
  intros [H12 H21] e. split; intros Hin.
  - apply edge_mem_In. auto.
  - apply edge_mem_In. auto.
Qed.

Lemma outline_check_sound (cells : list Cell) :
  outline_check cells = true ->
  exists loop,
    cells_to_outline cells = Some loop /\
    simple_closed_outline cells loop /\
    Z.abs (polygon_area2 loop) = 2 * Z.of_nat (List.length cells).
Proof.
  unfold outline_check. destruct (cells_to_outline cells) as [loop|]; [|discriminate].
  rewrite !andb_true_iff. intros [[Hn Hs] Ha]. exists loop.
  split; [reflexivity|]. split.
  - split; [now apply nodupb_sound | now apply same_edges_sound].
  - now apply Z.eqb_eq.
Qed.

Lemma catalogue_outline_checks :
  forallb (fun nc => outline_check (snd nc)) PIECES = true.
Proof. vm_compute. reflexivity. Qed.

(** C5: for each of the 21 catalogue shapes [cells_to_outline] returns a
    loop that is one simple closed polygon (no vertex twice, the closing
    vertex dropped, its segments exactly the boundary edges of the shape)
    and whose enclosed area is the number of cells of the shape. *)
Theorem catalogue_outlines_are_simple_closed_polygons :
  forall (name : string) (cells : list Cell),
    In (name, cells) PIECES ->
    exists loop,
      cells_to_outline cells = Some loop /\
      simple_closed_outline cells loop /\
      Z.abs (polygon_area2 loop) = 2 * Z.of_nat (List.length cells).
Proof.
  intros name cells Hin. apply outline_check_sound.
  pose proof catalogue_outline_checks as Hall.
  rewrite forallb_forall in Hall. exact (Hall (name, cells) Hin).
Qed.

Lemma catalogue_outlines_witness :
  exists loop,
    cells_to_outline [(0, 0); (1, 0); (1, 1)] = Some loop /\
    simple_closed_outline [(0, 0); (1, 0); (1, 1)] loop /\
    Z.abs (polygon_area2 loop) = 2 * 3.
Proof.
  apply (catalogue_outlines_are_simple_closed_polygons (name:="L3")).
  simpl. auto.
Defined.

(** *** Dictionaries *)

Section DictFacts.
Context {K V : Type} (keq : K -> K -> bool).
Hypothesis keq_eq : forall a b, keq a b = true <-> a = b.

Lemma keq_refl k : keq k k = true.
Proof. now apply keq_eq. Qed.

Lemma dict_get_update (dflt : V) (f : V -> V) (k q : K) (d : list (K * V)) :
  dict_get keq (dict_update keq dflt f k d) q =
  if keq k q then Some (f (dict_get_default keq dflt d k)) else dict_get keq d q.
Proof.
  unfold dict_get_default.
  induction d as [|[k0 v] d IH]; simpl.
  - reflexivity.
  - destruct (keq k0 k) eqn:E0; simpl.
    + apply keq_eq in E0. subst k0. destruct (keq k q); reflexivity.
    + rewrite IH. destruct (keq k0 q) eqn:E1; [|reflexivity].
      apply keq_eq in E1. subst k0.
      destruct (keq k q) eqn:E2; [|reflexivity].
      apply keq_eq in E2. subst q. rewrite keq_refl in E0. discriminate.
Qed.

Lemma dict_update_keys (dflt : V) (f : V -> V) (k : K) (d : list (K * V)) x :
  In x (map fst (dict_update keq dflt f k d)) -> x = k \/ In x (map fst d).
Proof.
  induction d as [|[k0 v] d IH]; simpl.
  - intros [E|[]]. now left.
  - destruct (keq k0 k); simpl; intros [E|Hin]; auto.
    destruct (IH Hin); auto.
Qed.

End DictFacts.

Lemma fold_left_invariant {A B} (P : A -> Prop) (f : A -> B -> A) (l : list B) :
  (forall a x, In x l -> P a -> P (f a x)) ->
  forall a, P a -> P (fold_left f l a).
Proof.
  induction l as [|x l IH]; simpl; intros Hstep a Ha.
  - exact Ha.
  - apply IH; [intros; apply Hstep; auto | apply Hstep; auto].
Qed.

(** *** Edge keys *)

Lemma vertex_ltb_asym (a b : Vertex) : vertex_ltb a b = true -> vertex_ltb b a = false.
Proof.
  destruct a as [ax ay], b as [bx b_y]. unfold vertex_ltb. simpl.
  rewrite orb_true_iff, orb_false_iff, !andb_true_iff, !andb_false_iff,
    !Z.ltb_lt, !Z.ltb_ge, !Z.eqb_eq, !Z.eqb_neq. lia.
Qed.

Lemma vertex_ltb_total (a b : Vertex) :
  vertex_ltb a b = false -> vertex_ltb b a = false -> a = b.
Proof.
  destruct a as [ax ay], b as [bx b_y]. unfold vertex_ltb. simpl.
  rewrite !orb_false_iff, !andb_false_iff, !Z.ltb_ge, !Z.eqb_neq.
  intros. f_equal; lia.
Qed.

Lemma sorted_key_sym (a b : Vertex) : sorted_key (a, b) = sorted_key (b, a).
Proof.
  unfold sorted_key.
  destruct (vertex_ltb b a) eqn:Eba, (vertex_ltb a b) eqn:Eab; try reflexivity.
  - apply vertex_ltb_asym in Eba. congruence.
  - now rewrite (vertex_ltb_total _ _ Eab Eba).
Qed.

Lemma sorted_key_idem (e : Edge) : sorted_key (sorted_key e) = sorted_key e.
Proof.
  destruct e as [a b]. unfold sorted_key.
  destruct (vertex_ltb b a) eqn:Eba.
  - now rewrite (vertex_ltb_asym _ _ Eba).
  - now rewrite Eba.
Qed.

(** Every boundary edge is stored under its sorted key. *)
Lemma boundary_edges_sorted (cells : list Cell) (e : Edge) :
  In e (boundary_edges cells) -> sorted_key e = e.
Proof.
  unfold boundary_edges. intros Hin.
  assert (In e (map fst (count_edges cells))) as Hk.
  { apply in_map_iff in Hin as [[e' c] [<- Hf]]. apply filter_In in Hf as [Hf _].
    apply in_map_iff. now exists (e', c). }
  clear Hin. revert e Hk. unfold count_edges.
  apply (fold_left_invariant
           (fun d : list (Edge * Z) => forall e, In e (map fst d) -> sorted_key e = e)).
  - intros d c _ Hd.
    apply (fold_left_invariant
             (fun d : list (Edge * Z) => forall e, In e (map fst d) -> sorted_key e = e)).
    + intros d' e' _ Hd' e He.
      apply dict_update_keys in He as [->|He]; [apply sorted_key_idem | auto].
    + exact Hd.
  - intros e [].
Qed.

(** The neighbours in [adj] come from boundary edges only. *)
Lemma build_adj_sound (boundary : list Edge) (v nb : Vertex) :
  In nb (dict_get_default vertex_eqb [] (build_adj boundary) v) ->
  In (v, nb) boundary \/ In (nb, v) boundary.
Proof.
  unfold build_adj. revert v nb.
  apply (fold_left_invariant
           (fun adj : list (Vertex * list Vertex) =>
              forall v nb, In nb (dict_get_default vertex_eqb [] adj v) ->
                           In (v, nb) boundary \/ In (nb, v) boundary)).
  - intros adj [a b] Hab Hadj v nb. unfold dict_get_default.
    rewrite !(dict_get_update vertex_eqb vertex_eqb_eq).
    destruct (vertex_eqb b v) eqn:Eb.
    + apply vertex_eqb_eq in Eb. subst v. intros Hin.
      apply in_app_or in Hin as [Hin|[<-|[]]]; [|now right].
      unfold dict_get_default in Hin.
      rewrite (dict_get_update vertex_eqb vertex_eqb_eq) in Hin.
      destruct (vertex_eqb a b) eqn:Ea.
      * apply vertex_eqb_eq in Ea. subst b.
        apply in_app_or in Hin as [Hin|[<-|[]]]; [|now left].
        now apply Hadj.
      * now apply Hadj.
    + destruct (vertex_eqb a v) eqn:Ea.
      * apply vertex_eqb_eq in Ea. subst v. intros Hin.
        apply in_app_or in Hin as [Hin|[<-|[]]]; [|now left].
        now apply Hadj.
      * apply Hadj.
  - intros v nb [].
Qed.

(** *** The walk *)

Lemma path_edges_snoc (pre : list Vertex) (cur nb : Vertex) :
  path_edges ((pre ++ [cur]) ++ [nb]) = path_edges (pre ++ [cur]) ++ [(cur, nb)].
Proof.
  induction pre as [|a pre IH].
  - reflexivity.
  - destruct pre as [|b pre]; [reflexivity|].
    change (path_edges (((a :: b :: pre) ++ [cur]) ++ [nb]))
      with ((a, b) :: path_edges (((b :: pre) ++ [cur]) ++ [nb])).
    rewrite IH. reflexivity.
Qed.

Lemma path_edges_removelast (l : list Vertex) :
  exists rest, path_edges l = path_edges (removelast l) ++ rest.
Proof.
  induction l as [|a l IH].
  - exists []. reflexivity.
  - destruct l as [|b l].
    + exists []. reflexivity.
    + destruct IH as [rest IH]. destruct l as [|c l].
      * exists [(a, b)]. reflexivity.
      * exists rest.
        change (path_edges (a :: b :: c :: l)) with ((a, b) :: path_edges (b :: c :: l)).
        change (removelast (a :: b :: c :: l)) with (a :: removelast (b :: c :: l)).
        rewrite IH.
        change (removelast (b :: c :: l)) with (b :: removelast (c :: l)).
        reflexivity.
Qed.

Section WalkFacts.
Variable boundary : list Edge.
Hypothesis boundary_sorted : forall e, In e boundary -> sorted_key e = e.

Lemma next_vertex_edge visited cur nb :
  next_vertex (build_adj boundary) visited cur = Some nb ->
  In (sorted_key (cur, nb)) boundary /\ ~ In (sorted_key (cur, nb)) visited.
Proof.
  unfold next_vertex. intros Hf. apply find_some in Hf as [Hin Hneg]. split.
  - apply build_adj_sound in Hin as [Hb|Hb].
    + now rewrite boundary_sorted.
    + rewrite sorted_key_sym. now rewrite boundary_sorted.
  - apply negb_true_iff in Hneg. intros Hc. apply edge_mem_In in Hc. congruence.
Qed.

(** The loop breaks on its own: every iteration walks a boundary edge
    not walked before, so there are at most [length boundary] of them
    before the one that finds no edge. *)
Lemma walk_loop_terminates (fuel : nat) :
  forall visited cur loop,
    NoDup visited -> incl visited boundary ->
    (List.length boundary < fuel + List.length visited)%nat ->
    exists L, walk_loop fuel (build_adj boundary) visited cur loop = Some L.
Proof.
  induction fuel as [|fuel IH]; intros visited cur loop Hnd Hincl Hlen.
  - pose proof (NoDup_incl_length Hnd Hincl). simpl in Hlen. lia.
  - simpl. destruct (next_vertex (build_adj boundary) visited cur) as [nb|] eqn:En.
    + apply next_vertex_edge in En as [Hb Hv]. apply IH.
      * now constructor.
      * now apply incl_cons.
      * simpl. lia.
    + now exists loop.
Qed.

(** What the walk returns is a path along boundary edges, no edge twice. *)
Lemma walk_loop_edges (fuel : nat) :
  forall visited cur pre L,
    walk_loop fuel (build_adj boundary) visited cur (pre ++ [cur]) = Some L ->
    NoDup visited -> incl visited boundary ->
    map sorted_key (path_edges (pre ++ [cur])) = rev visited ->
    NoDup (map sorted_key (path_edges L)) /\
    incl (map sorted_key (path_edges L)) boundary.
Proof.
  induction fuel as [|fuel IH]; intros visited cur pre L Hw Hnd Hincl Hp.
  - discriminate.
  - simpl in Hw.
    destruct (next_vertex (build_adj boundary) visited cur) as [nb|] eqn:En.
    + apply next_vertex_edge in En as [Hb Hv].
      apply (IH _ nb (pre ++ [cur]) L Hw).
      * now constructor.
      * now apply incl_cons.
      * rewrite path_edges_snoc, map_app, Hp. reflexivity.
    + injection Hw as <-. rewrite Hp. split.
      * now apply NoDup_rev.
      * intros e He. apply Hincl. now apply in_rev.
Qed.

End WalkFacts.

Lemma drop_closing_vertex_edges (loop : list Vertex) :
  exists rest, path_edges loop = path_edges (drop_closing_vertex loop) ++ rest.
Proof.
  unfold drop_closing_vertex. destruct loop as [|first tl].
  - exists []. reflexivity.
  - destruct ((1 <? Z.of_nat (List.length (first :: tl)))
              && vertex_eqb (last (first :: tl) first) first).
    + apply path_edges_removelast.
    + exists []. now rewrite app_nil_r.
Qed.

(** C3, as stated, fails: no error is raised for a malformed shape.  For
    the two separate cells (0,0) and (2,0) the result is the square of the
    first cell alone, 4 of the 8 boundary edges; for the ring of 8 cells
    around the hole (1,1) it is the outer contour alone, 12 of the 16
    boundary edges. *)
Lemma C3_partial_loop_returned_silently :
  cells_to_outline [(0, 0); (2, 0)] = Some [(0, 0); (1, 0); (1, 1); (0, 1)] /\
  List.length (boundary_edges [(0, 0); (2, 0)]) = 8%nat /\
  cells_to_outline
    [(0, 0); (1, 0); (2, 0); (0, 1); (2, 1); (0, 2); (1, 2); (2, 2)] =
  Some [(0, 0); (1, 0); (2, 0); (3, 0); (3, 1); (3, 2); (3, 3); (2, 3);
        (1, 3); (0, 3); (0, 2); (0, 1)] /\
  List.length (boundary_edges
    [(0, 0); (1, 0); (2, 0); (0, 1); (2, 1); (0, 2); (1, 2); (2, 2)]) = 16%nat.
Proof. repeat split. Qed.

(** C3 (amended): the Outline Extractor has no malformed-shape error.  For
    every cell set, disconnected or with holes or not, the walk ends by
    itself and [cells_to_outline] returns a vertex list; consecutive
    vertices of the list are joined by boundary edges of the set, no edge
    twice.  Nothing says that the list covers the whole boundary. *)
Theorem cells_to_outline_always_returns_a_walk :
  forall cells : list Cell,
    exists loop,
      cells_to_outline cells = Some loop /\
      NoDup (map sorted_key (path_edges loop)) /\
      incl (map sorted_key (path_edges loop)) (boundary_edges cells).
Proof.
  intros cells. unfold cells_to_outline.
  pose proof (boundary_edges_sorted cells) as Hs.
  destruct (boundary_edges cells) as [|[start b] rest] eqn:Eb.
  - exists []. repeat split; [constructor | intros e []].
  - rewrite <- Eb in *.
    destruct (@walk_loop_terminates (boundary_edges cells) Hs
                (S (List.length (boundary_edges cells))) [] start [start])
      as [L HL].
    + constructor.
    + intros e [].
    + simpl. lia.
    + rewrite HL. exists (drop_closing_vertex L). split; [reflexivity|].
      destruct (@walk_loop_edges (boundary_edges cells) Hs _ [] start [] L HL)
        as [Hnd Hincl].
      * constructor.
      * intros e [].
      * reflexivity.
      * destruct (drop_closing_vertex_edges L) as [tl Htl].
        rewrite Htl, map_app in Hnd, Hincl. split.
        -- now apply NoDup_app_remove_r in Hnd.
        -- intros e He. apply Hincl. apply in_or_app. now left.
Qed.

(** ** Groove cutter *)

Lemma py_min_spec (l : list Z) (m : Z) :
  py_min Z.ltb l = Ok m -> In m l /\ forall y, In y l -> m <= y.
Proof.
  destruct l as [|x xs]; [discriminate|]. simpl. intros E. injection E as <-.
  revert x. induction xs as [|y ys IH]; intros x; simpl.
  - split; [now left | intros z [<-|[]]; lia].
  - destruct (IH (if y <? x then y else x)) as [Hin Hle]. split.
    + destruct Hin as [Hin|Hin]; [|now right; right].
      rewrite <- Hin. destruct (y <? x); [right; now left | now left].
    + intros z [<-|[<-|Hz]].
      * specialize (Hle _ (or_introl eq_refl)). destruct (Z.ltb_spec y x); lia.
      * specialize (Hle _ (or_introl eq_refl)). destruct (Z.ltb_spec y x); lia.
      * apply Hle. now right.
Qed.

Lemma py_max_spec (l : list Z) (m : Z) :
  py_max Z.ltb l = Ok m -> In m l /\ forall y, In y l -> y <= m.
Proof.
  destruct l as [|x xs]; [discriminate|]. simpl. intros E. injection E as <-.
  revert x. induction xs as [|y ys IH]; intros x; simpl.
  - split; [now left | intros z [<-|[]]; lia].
  - destruct (IH (if x <? y then y else x)) as [Hin Hle]. split.
    + destruct Hin as [Hin|Hin]; [|now right; right].
      rewrite <- Hin. destruct (x <? y); [right; now left | now left].
    + intros z [<-|[<-|Hz]].
      * specialize (Hle _ (or_introl eq_refl)). destruct (Z.ltb_spec x y); lia.
      * specialize (Hle _ (or_introl eq_refl)). destruct (Z.ltb_spec x y); lia.
      * apply Hle. now right.
Qed.

Lemma py_min_nonempty (l : list Z) : l <> [] -> exists m, py_min Z.ltb l = Ok m.
Proof. destruct l; [congruence | intros _; eexists; reflexivity]. Qed.

Lemma py_max_nonempty (l : list Z) : l <> [] -> exists m, py_max Z.ltb l = Ok m.
Proof. destruct l; [congruence | intros _; eexists; reflexivity]. Qed.

(** On a list with least element [m], [min] returns [m]; likewise [max]. *)
Lemma py_min_least (l : list Z) (m : Z) :
  In m l -> (forall y, In y l -> m <= y) -> py_min Z.ltb l = Ok m.
Proof.
  intros Hin Hle. destruct (py_min_nonempty (l:=l)) as [m' E].
  { intros ->. contradiction. }
  rewrite E. f_equal. apply py_min_spec in E as [Hin' Hle'].
  specialize (Hle _ Hin'). specialize (Hle' _ Hin). lia.
Qed.

Lemma py_max_greatest (l : list Z) (m : Z) :
  In m l -> (forall y, In y l -> y <= m) -> py_max Z.ltb l = Ok m.
Proof.
  intros Hin Hle. destruct (py_max_nonempty (l:=l)) as [m' E].
  { intros ->. contradiction. }
  rewrite E. f_equal. apply py_max_spec in E as [Hin' Hle'].
  specialize (Hle _ Hin'). specialize (Hle' _ Hin). lia.
Qed.

Lemma py_range_length (a b : Z) : List.length (py_range a b) = Z.to_nat (b - a).
Proof. unfold py_range. now rewrite length_map, length_seq. Qed.

(** C7: with no cells the first [min(xs)] raises before any bar is made;
    the guard [if not bars: return None] is never reached.  Evaluation at
    the empty piece, for every arithmetic and every size. *)
Theorem make_groove_cutter_empty_cells_raises :
  forall (R : Type) (N : PyNum R) (name : ObjName)
         (cell_size groove_w groove_d piece_t : R),
    get_grid_lines_for_piece [] = Raise (ValueError "min() arg is an empty sequence") /\
    make_groove_cutter name [] cell_size groove_w groove_d piece_t =
    Raise (ValueError "min() arg is an empty sequence").
Proof. intros. split; reflexivity. Qed.

Lemma bar_x_overshoots (cell_size groove_w groove_d x_lo x_hi y_lo y_hi : Q) (gx : Z) :
  bar_overshoots groove_w x_lo x_hi y_lo y_hi
    (bar_x cell_size groove_w groove_d y_lo y_hi gx).
Proof.
  unfold bar_overshoots, bar_x, cube_low, cube_high, vec_y. cbn.
  change (inject_Z 1) with 1%Q. change (inject_Z 2) with 2%Q.
  unfold Qdiv. change (/ 2)%Q with (1 # 2)%Q. split; lra.
Qed.

Lemma bar_y_overshoots (cell_size groove_w groove_d x_lo x_hi y_lo y_hi : Q) (gy : Z) :
  bar_overshoots groove_w x_lo x_hi y_lo y_hi
    (bar_y cell_size groove_w groove_d x_lo x_hi gy).
Proof.
  unfold bar_overshoots, bar_y, cube_low, cube_high, vec_x. cbn.
  change (inject_Z 1) with 1%Q. change (inject_Z 2) with 2%Q.
  unfold Qdiv. change (/ 2)%Q with (1 # 2)%Q. split; lra.
Qed.

(** The cutter in exact arithmetic, for a non-empty cell set with
    bounding box [min_x..max_x] by [min_y..max_y]: the bars are counted,
    and every bar reaches at least [groove_w] beyond the footprint of the
    bounding box at both ends of the axis it runs along. *)
Lemma groove_cutter_without_rounding :
  forall (name : ObjName) (cells : list Cell)
         (cell_size groove_w groove_d piece_t : Q)
         (min_x max_x min_y max_y : Z),
    bounding_box cells min_x max_x min_y max_y ->
    exists cutter,
      make_groove_cutter name cells cell_size groove_w groove_d piece_t
        = Ok (Some cutter) /\
      Z.of_nat (List.length (joined_parts cutter))
        = ((max_x - min_x + 1) + 1) + ((max_y - min_y + 1) + 1) /\
      forall bar, In bar (joined_parts cutter) ->
        bar_overshoots groove_w
          (inject_Z min_x * cell_size) (inject_Z (max_x + 1) * cell_size)
          (inject_Z min_y * cell_size) (inject_Z (max_y + 1) * cell_size) bar.
Proof.
  intros name cells cell_size gw gd pt min_x max_x min_y max_y
         [[Hx0 Hx0'] [[Hx1 Hx1'] [[Hy0 Hy0'] [Hy1 Hy1']]]].
  pose proof (Hx0' _ Hx1) as Hxle. pose proof (Hy0' _ Hy1) as Hyle.
  unfold make_groove_cutter, get_grid_lines_for_piece, piece_footprint.
  rewrite (py_min_least _ Hx0 Hx0'), (py_max_greatest _ Hx1 Hx1'),
          (py_min_least _ Hy0 Hy0'), (py_max_greatest _ Hy1 Hy1').
  cbn [bind app].
  set (bars := map _ (py_range min_x (max_x + 2)) ++ map _ (py_range min_y (max_y + 2))).
  assert (Z.of_nat (List.length bars)
          = ((max_x - min_x + 1) + 1) + ((max_y - min_y + 1) + 1)) as Hlen.
  { unfold bars. rewrite length_app, !length_map, !py_range_length. lia. }
  assert (forall bar, In bar bars ->
            bar_overshoots gw
              (inject_Z min_x * cell_size) (inject_Z (max_x + 1) * cell_size)
              (inject_Z min_y * cell_size) (inject_Z (max_y + 1) * cell_size) bar)
    as Hover.
  { intros bar Hin. unfold bars in Hin.
    apply in_app_or in Hin as [Hin|Hin]; apply in_map_iff in Hin as [g [<- _]].
    - apply bar_x_overshoots.
    - apply bar_y_overshoots. }
  destruct bars as [|b bs] eqn:Eb.
  - simpl in Hlen. lia.
  - eexists. split; [reflexivity|]. split; [exact Hlen | exact Hover].
Qed.

(** *** The groove cutter in binary64 *)

Lemma Forall2_In_l {A B} (P : A -> B -> Prop) (l : list A) (l' : list B) (x : A) :
  Forall2 P l l' -> In x l -> exists y, In y l' /\ P x y.
Proof.
  induction 1 as [|a b l l' Hab Hl IH]; intros Hin; [destruct Hin|].
  destruct Hin as [<-|Hin].
  - exists b. split; [now left | exact Hab].
  - destruct (IH Hin) as (y & Hy & Hp). exists y. split; [now right | exact Hp].
Qed.

(** Bars of the same numbers overshoot alike. *)
Lemma bar_overshoots_equiv (gw x_lo x_hi y_lo y_hi x_lo' x_hi' y_lo' y_hi' : Q)
  (a b : PrimObject Q) :
  prim_equiv a b ->
  (x_lo == x_lo')%Q -> (x_hi == x_hi')%Q -> (y_lo == y_lo')%Q -> (y_hi == y_hi')%Q ->
  bar_overshoots gw x_lo' x_hi' y_lo' y_hi' b ->
  bar_overshoots gw x_lo x_hi y_lo y_hi a.
Proof.
  unfold prim_equiv, bar_overshoots.
  destruct a as [na pa ha], b as [nb pb hb]. cbn [ob_name ob_prim].
  intros [<- Hp] Exl Exh Eyl Eyh.
  destruct pa as [s l sc|r d l v], pb as [s' l' sc'|r' d' l' v']; try contradiction;
    [|destruct na; exact (fun H => H)].
  destruct Hp as (Es & (Lx & Ly & _) & (Sx & Sy & _)).
  unfold cube_low, cube_high.
  destruct na; try exact (fun H => H);
    rewrite Exl, Exh, Eyl, Eyh, Es, Lx, Ly, Sx, Sy || rewrite Eyl, Eyh, Es, Ly, Sy
    || rewrite Exl, Exh, Es, Lx, Sx; exact (fun H => H).
Qed.




(** ** Boolean engine *)

Lemma modname_eqb_eq (a b : ModName) : modname_eqb a b = true <-> a = b.
Proof.
  destruct a as [s n], b as [s' n']. unfold modname_eqb. simpl.
  rewrite andb_true_iff, String.eqb_eq, Nat.eqb_eq. split.
  - intros [-> ->]. reflexivity.
  - intros E. inversion E. auto.
Qed.

Lemma modname_eqb_neq (a b : ModName) : a <> b -> modname_eqb a b = false.
Proof.
  intros Hne. destruct (modname_eqb a b) eqn:E; [|reflexivity].
  apply modname_eqb_eq in E. contradiction.
Qed.

(** [modifiers.new] never reuses a name of the stack. *)
Lemma unique_name_fresh (base : string) (ms : list Modifier) :
  ~ In (unique_name base ms) (map mod_name ms).
Proof.
  unfold unique_name.
  set (used := map mod_name ms).
  destruct (find _ (seq 0 (S (List.length used)))) as [n|] eqn:Ef.
  - apply find_some in Ef as [_ Hfree]. apply negb_true_iff in Hfree.
    intros Hin.
    assert (existsb (modname_eqb (base, n)) used = true) as Ht.
    { apply existsb_exists. exists (base, n). split; [assumption|].
      now apply modname_eqb_eq. }
    congruence.
  - exfalso.
    assert (incl (map (pair base) (seq 0 (S (List.length used)))) used) as Hincl.
    { intros x Hx. apply in_map_iff in Hx as [n [<- Hn]].
      pose proof (find_none _ _ Ef n Hn) as Hnf. simpl in Hnf.
      apply negb_false_iff in Hnf. apply existsb_exists in Hnf as [y [Hy Heq]].
      apply modname_eqb_eq in Heq. now subst y. }
    assert (NoDup (map (pair base) (seq 0 (S (List.length used))))) as Hnd.
    { apply Injective_map_NoDup; [|apply seq_NoDup].
      intros a b E. now inversion E. }
    pose proof (NoDup_incl_length Hnd Hincl) as Hlen.
    rewrite length_map, length_seq in Hlen. unfold ModName in Hlen. lia.
Qed.

Section StackFacts.
Variables (n : ModName) (ms : list Modifier) (m : Modifier).
Hypothesis fresh : ~ In n (map mod_name ms).
Hypothesis named : mod_name m = n.

Lemma update_modifier_last (f : Modifier -> Modifier) :
  update_modifier n f (ms ++ [m]) = ms ++ [f m].
Proof.
  induction ms as [|m0 ms' IH]; simpl in *.
  - rewrite named, (proj2 (modname_eqb_eq n n) eq_refl). reflexivity.
  - rewrite modname_eqb_neq by tauto. f_equal. apply IH. tauto.
Qed.

Lemma find_modifier_last : find_modifier n (ms ++ [m]) = Some m.
Proof.
  unfold find_modifier. induction ms as [|m0 ms' IH]; simpl in *.
  - rewrite named, (proj2 (modname_eqb_eq n n) eq_refl). reflexivity.
  - rewrite modname_eqb_neq by tauto. apply IH. tauto.
Qed.

Lemma remove_modifier_last : remove_modifier n (ms ++ [m]) = ms.
Proof.
  induction ms as [|m0 ms' IH]; simpl in *.
  - rewrite named, (proj2 (modname_eqb_eq n n) eq_refl). reflexivity.
  - rewrite modname_eqb_neq by tauto. f_equal. apply IH. tauto.
Qed.

Lemma name_listed_last :
  existsb (modname_eqb n) (map mod_name (ms ++ [m])) = true.
Proof.
  apply existsb_exists. exists n. split; [|now apply modname_eqb_eq].
  rewrite map_app. apply in_or_app. right. simpl. now left.
Qed.

End StackFacts.

Section BooleanFacts.
Variables Mesh Xform : Type.
Variable bake : Xform -> Mesh -> Mesh.
Variable xf_id : Xform.
Variable solve : Solver -> Operation -> Mesh -> Mesh -> option Mesh.

(** C4: [apply_boolean] runs the exact solver first; when that attempt
    raises it runs the fast solver, once; when both raise it returns
    [False].  In every case no Boolean modifier stays on the target.  After
    a double failure the target is the solid it was before the call, with
    its rotation and scale applied as the first lines of the function do:
    the very same object when it had none to apply, which is the case of
    every target the add-on builds. *)
Theorem apply_boolean_exact_then_fast_once :
  forall (operation : Operation) (w : World Mesh Xform),
    let target := apply_rot_scale bake xf_id (w_target w) in
    let cutter := apply_rot_scale bake xf_id (w_cutter w) in
    let exact := solve EXACT operation (mo_data target) (mo_data cutter) in
    let fast := solve FAST operation (mo_data target) (mo_data cutter) in
    let r := fst (apply_boolean bake xf_id solve operation w) in
    let w' := snd (apply_boolean bake xf_id solve operation w) in
    w_cutter w' = cutter /\
    mo_modifiers (w_target w') = mo_modifiers (w_target w) /\
    match exact, fast with
    | Some mesh, _ =>
        r = Ok true /\
        w_solver_runs w' = w_solver_runs w ++ [EXACT] /\
        w_target w' = set_data mesh target
    | None, Some mesh =>
        r = Ok true /\
        w_solver_runs w' = w_solver_runs w ++ [EXACT; FAST] /\
        w_target w' = set_data mesh target
    | None, None =>
        r = Ok false /\
        w_solver_runs w' = w_solver_runs w ++ [EXACT; FAST] /\
        w_target w' = target /\
        (mo_rot_scale (w_target w) = xf_id ->
         bake xf_id (mo_data (w_target w)) = mo_data (w_target w) ->
         w_target w' = w_target w)
    end.
Proof.
  intros operation w. destruct w as [t c act runs].
  pose proof (unique_name_fresh "Bool" (mo_modifiers t)) as F1.
  pose proof (unique_name_fresh "Bool2" (mo_modifiers t)) as F2.
  unfold apply_boolean, bindB, try_except, select_only, transform_apply,
    modifiers_new, configure_modifier, modifier_apply, modifiers_remove,
    modifier_names, retB, log_run.
  cbn -[find_modifier update_modifier remove_modifier unique_name existsb].
  rewrite !(@update_modifier_last _ _ _ F1) by reflexivity.
  rewrite !(@find_modifier_last _ _ _ F1) by reflexivity.
  cbn -[find_modifier update_modifier remove_modifier unique_name existsb].
  destruct (solve EXACT operation (bake (mo_rot_scale t) (mo_data t))
              (bake (mo_rot_scale c) (mo_data c))) as [mesh|].
  - cbn -[find_modifier update_modifier remove_modifier unique_name existsb].
    rewrite !(@remove_modifier_last _ _ _ F1) by reflexivity.
    repeat split.
  - cbn -[find_modifier update_modifier remove_modifier unique_name existsb].
    rewrite !(@find_modifier_last _ _ _ F1) by reflexivity.
    cbn -[find_modifier update_modifier remove_modifier unique_name existsb].
    rewrite !(@remove_modifier_last _ _ _ F1) by reflexivity.
    rewrite !(@update_modifier_last _ _ _ F2) by reflexivity.
    rewrite !(@find_modifier_last _ _ _ F2) by reflexivity.
    cbn -[find_modifier update_modifier remove_modifier unique_name existsb].
    destruct (solve FAST operation (bake (mo_rot_scale t) (mo_data t))
                (bake (mo_rot_scale c) (mo_data c))) as [mesh|].
    + cbn -[find_modifier update_modifier remove_modifier unique_name existsb].
      rewrite !(@remove_modifier_last _ _ _ F2) by reflexivity.
      rewrite <- app_assoc. repeat split.
    + cbn -[find_modifier update_modifier remove_modifier unique_name existsb].
      rewrite (@name_listed_last (unique_name "Bool2" (mo_modifiers t))
                 (mo_modifiers t)) by reflexivity.
      cbn -[find_modifier update_modifier remove_modifier unique_name existsb].
      rewrite !(@find_modifier_last _ _ _ F2) by reflexivity.
      cbn -[find_modifier update_modifier remove_modifier unique_name existsb].
      rewrite !(@remove_modifier_last _ _ _ F2) by reflexivity.
      rewrite <- app_assoc. repeat split.
      destruct t as [nm data rs ms]. unfold apply_rot_scale. cbn.
      intros -> ->. reflexivity.
Qed.

End BooleanFacts.

(** A run of C4's theorem: a solver that always fails, on a target with
    unit scale (meshes are lists of coordinates, a transform is a scale
    factor). *)
Lemma apply_boolean_double_failure_witness :
  let target := {| mo_name := Named "piece"; mo_data := [1; 2; 3];
                   mo_rot_scale := 1; mo_modifiers := [] |} in
  let cutter := {| mo_name := Named "cutter"; mo_data := [4];
                   mo_rot_scale := 1; mo_modifiers := [] |} in
  let w := {| w_target := target; w_cutter := cutter;
              w_active := None; w_solver_runs := [] |} in
  let run := apply_boolean (fun s m => map (Z.mul s) m) 1
               (fun _ _ _ _ => None) DIFFERENCE w in
  fst run = Ok false /\
  w_solver_runs (snd run) = [EXACT; FAST] /\
  w_target (snd run) = target.
Proof.
  intros target cutter w run.
  pose proof (@apply_boolean_exact_then_fast_once (list Z) Z
                (fun s m => map (Z.mul s) m) 1 (fun _ _ _ _ => None)
                DIFFERENCE w) as H.
  cbv zeta in H. destruct H as (_ & _ & Hr & Hruns & _ & Hsame).
  split; [exact Hr|]. split; [exact Hruns|].
  apply Hsame; reflexivity.
Defined.


(** ** Board tiles *)

Lemma py_range_In (a b i : Z) : In i (py_range a b) <-> a <= i < b.
Proof.
  unfold py_range. rewrite in_map_iff. split.
  - intros [n [<- Hn]]. apply in_seq in Hn. lia.
  - intros Hi. exists (Z.to_nat (i - a)). split; [lia|]. apply in_seq. lia.
Qed.

Lemma generated_tiles_In {R} (p : BLK_Properties R) (tx ty : Z) :
  In (tx, ty) (generated_tiles p) <-> 0 <= tx < split_x p /\ 0 <= ty < split_y p.
Proof.
  unfold generated_tiles. rewrite in_flat_map. split.
  - intros [x [Hx Hin]]. apply in_map_iff in Hin as [y [E Hy]].
    inversion E; subst. clear E. apply py_range_In in Hx, Hy. lia.
  - intros [Hx Hy]. exists tx. split; [now apply py_range_In|].
    apply in_map_iff. exists ty. split; [reflexivity | now apply py_range_In].
Qed.

Lemma tile_cell_range_ok {R} (p : BLK_Properties R) (tx ty : Z) :
  split_x p <> 0 -> split_y p <> 0 ->
  tile_cell_range tx ty p =
  Ok (tx * (20 / split_x p), tx * (20 / split_x p) + 20 / split_x p,
      ty * (20 / split_y p), ty * (20 / split_y p) + 20 / split_y p).
Proof.
  intros Hx Hy. unfold tile_cell_range, py_floordiv.
  apply Z.eqb_neq in Hx, Hy. rewrite Hx, Hy. reflexivity.
Qed.

(** Along one axis the tiles [0 .. split - 1], each [per_tile] cells wide,
    cover exactly the cells [0 .. split * per_tile - 1]. *)
Lemma tiles_cover_axis (split per_tile c : Z) :
  0 <= per_tile ->
  (exists t, 0 <= t < split /\ t * per_tile <= c < t * per_tile + per_tile) <->
  0 <= c < split * per_tile.
Proof.
  intros Hp. split.
  - intros [t [Ht Hc]]. nia.
  - intros Hc. assert (0 < per_tile) as Hpos.
    { destruct (Z.eq_dec per_tile 0) as [->|]; lia. }
    exists (c / per_tile). pose proof (Z.div_mod c per_tile ltac:(lia)) as Hdm.
    pose proof (Z.mod_pos_bound c per_tile Hpos) as Hmod.
    assert (0 <= c / per_tile) by (apply Z.div_pos; lia).
    assert (c / per_tile < split).
    { apply Z.div_lt_upper_bound; lia. }
    nia.
Qed.

Lemma result_map_ok {A B} (f : A -> result B) (l : list A) :
  (forall x, In x l -> exists y, f x = Ok y) ->
  exists ys, result_map f l = Ok ys /\ List.length ys = List.length l.
Proof.
  induction l as [|x l IH]; intros Hf.
  - exists []. split; reflexivity.
  - destruct (Hf x (or_introl eq_refl)) as [y Hy].
    destruct IH as [ys [Hys Hlen]]; [intros; apply Hf; now right|].
    exists (y :: ys). simpl. rewrite Hy, Hys. simpl. split; [reflexivity | now rewrite Hlen].
Qed.

Lemma create_board_tile_ok {R} {N : PyNum R} (p : BLK_Properties R) (tx ty : Z) :
  split_x p <> 0 -> split_y p <> 0 ->
  exists tile, create_board_tile tx ty p = Ok tile.
Proof.
  intros Hx Hy. unfold create_board_tile, create_board_tile_objs.
  rewrite (tile_cell_range_ok p tx ty Hx Hy). cbn [bind].
  eexists. reflexivity.
Qed.

Lemma result_map_each {A B} (f : A -> result B) (l : list A) (ys : list B) :
  result_map f l = Ok ys -> Forall2 (fun x y => f x = Ok y) l ys.
Proof.
  revert ys. induction l as [|x l IH]; intros ys; cbn [result_map].
  - intros E. injection E as <-. constructor.
  - destruct (f x) as [y|e] eqn:Ex; cbn [bind]; [|discriminate].
    destruct (result_map f l) as [ys'|e]; cbn [bind]; [|discriminate].
    intros E. injection E as <-. constructor; [exact Ex | now apply IH].
Qed.

(** The object [o] of hypothesis [Ho], one of the parts of a tile other
    than its ribs, does not have the name of the goal. *)
Ltac other_name Ho :=
  repeat match type of Ho with
         | In _ (if ?c then _ else _) => destruct c
         | In _ (flat_map _ _) => apply in_flat_map in Ho as (? & _ & Ho)
         end;
  first [ apply in_map_iff in Ho as ([? ?] & <- & _); cbn; discriminate
        | cbn in Ho; intuition (subst; cbn; discriminate) ].

(** The ribs a tile carries: those on the grid lines of its cell range,
    first and last included, and no other. *)
Lemma tile_rib_names {R} {N : PyNum R} (p : BLK_Properties R) (tx ty : Z) :
  split_x p <> 0 -> split_y p <> 0 ->
  exists tile,
    create_board_tile tx ty p = Ok tile /\
    blk_tile_x tile = tx /\ blk_tile_y tile = ty /\
    forall g,
      (In (Name_ribX g) (part_names tile) <->
       tx * (20 / split_x p) <= g <= tx * (20 / split_x p) + 20 / split_x p) /\
      (In (Name_ribY g) (part_names tile) <->
       ty * (20 / split_y p) <= g <= ty * (20 / split_y p) + 20 / split_y p).
Proof.
  intros Hx Hy. unfold create_board_tile, create_board_tile_objs.
  rewrite (tile_cell_range_ok p tx ty Hx Hy). cbn [bind].
  eexists. split; [reflexivity|]. split; [reflexivity|]. split; [reflexivity|].
  intros g. unfold part_names. cbn [tile_object joined_parts].
  rewrite !filter_app, !map_app, !in_app_iff.
  assert (forall (n : ObjName) (F : Z -> PrimObject R) (l : list Z),
            (forall z, ob_is_hole (F z) = false) ->
            (In n (map (fun o => ob_name o)
                       (filter (fun o => negb (ob_is_hole o)) (map F l)))
             <-> exists z, In z l /\ ob_name (F z) = n)) as Hmap.
  { intros n F l HF. rewrite in_map_iff. split.
    - intros (o & <- & Hin). apply filter_In in Hin as [Hin _].
      apply in_map_iff in Hin as (z & <- & Hz). now exists z.
    - intros (z & Hz & <-). exists (F z). split; [reflexivity|].
      apply filter_In. split; [now apply in_map | now rewrite HF]. }
  rewrite !Hmap by reflexivity.
  assert (forall (n : ObjName) (l : list (PrimObject R)),
            (forall o, In o l -> ob_name o <> n) ->
            ~ In n (map (fun o => ob_name o)
                        (filter (fun o => negb (ob_is_hole o)) l))) as Hnot.
  { intros n l Hl Hin. apply in_map_iff in Hin as (o & <- & Hin).
    apply filter_In in Hin as [Hin _]. now apply (Hl o). }
  split.
  - split.
    + intros H.
      repeat match type of H with
             | _ \/ _ => destruct H as [H|H]
             end;
        try (destruct H as (z & Hz & E); cbn in E; try discriminate;
             injection E as <-; apply py_range_In in Hz; lia);
        exfalso; revert H; apply Hnot; intros o Ho; other_name Ho.
    + intros Hg. left. left. left. left. left. left. left. left. left. left. right.
      exists g. split; [apply py_range_In; lia | reflexivity].
  - split.
    + intros H.
      repeat match type of H with
             | _ \/ _ => destruct H as [H|H]
             end;
        try (destruct H as (z & Hz & E); cbn in E; try discriminate;
             injection E as <-; apply py_range_In in Hz; lia);
        exfalso; revert H; apply Hnot; intros o Ho; other_name Ho.
    + intros Hg. left. left. left. left. left. left. left. left. left. right.
      exists g. split; [apply py_range_In; lia | reflexivity].
Qed.

(** The base plate of a tile is laid over the cell range of the tile. *)
Lemma tile_base_plate {R} {N : PyNum R} (p : BLK_Properties R) (tx ty : Z) :
  split_x p <> 0 -> split_y p <> 0 ->
  exists tile,
    create_board_tile tx ty p = Ok tile /\
    In (plate_over p tx ty
          (tx * (20 / split_x p)) (tx * (20 / split_x p) + 20 / split_x p)
          (ty * (20 / split_y p)) (ty * (20 / split_y p) + 20 / split_y p))
       (joined_parts (tile_object tile)).
Proof.
  intros Hx Hy. unfold create_board_tile, create_board_tile_objs.
  rewrite (tile_cell_range_ok p tx ty Hx Hy). cbn [bind].
  eexists. split; [reflexivity|]. cbn [tile_object joined_parts].
  apply filter_In. split; [|reflexivity].
  do 11 (apply in_or_app; left). left. reflexivity.
Qed.

(** C10: the board is fixed at 20 cells per axis and every tile gets
    [20 // split] cells.  With split counts of at least 1 and parameters
    that pass validation, [BLK_OT_GenerateBoard] finishes with its one
    INFO report and makes one tile per index pair; the tile of index
    [(tx, ty)] carries the ribs of the cells
    [tx * (20 // split_x) .. tx * (20 // split_x) + 20 // split_x - 1] by
    [ty * (20 // split_y) ..] and has its base plate laid over them, and
    a cell is covered by one of the tiles made exactly when it is among
    the first [split * (20 // split)] of each axis.  When the split count
    does not divide 20 that is fewer than 20 cells; nothing reports
    it. *)
Theorem board_tiles_cover_split_times_floor :
  forall (R : Type) (N : PyNum R) (p : BLK_Properties R) (board : list (BoardTile R)),
    1 <= split_x p -> 1 <= split_y p -> fst (validate_params p) = true ->
    exists tiles,
      BLK_OT_GenerateBoard_execute p board =
      Ok {| run_status := FINISHED;
            run_reports := [(INFO, Report_board_generated (split_x p) (split_y p))];
            run_board := tiles |} /\
      map (fun tile => (blk_tile_x tile, blk_tile_y tile)) tiles = generated_tiles p /\
      (forall tile (c : Cell), In tile tiles ->
         (tile_covers tile c <->
          blk_tile_x tile * (20 / split_x p) <= fst c
            < blk_tile_x tile * (20 / split_x p) + 20 / split_x p /\
          blk_tile_y tile * (20 / split_y p) <= snd c
            < blk_tile_y tile * (20 / split_y p) + 20 / split_y p)) /\
      (forall tile, In tile tiles ->
         In (plate_over p (blk_tile_x tile) (blk_tile_y tile)
               (blk_tile_x tile * (20 / split_x p))
               (blk_tile_x tile * (20 / split_x p) + 20 / split_x p)
               (blk_tile_y tile * (20 / split_y p))
               (blk_tile_y tile * (20 / split_y p) + 20 / split_y p))
            (joined_parts (tile_object tile))) /\
      (forall c : Cell,
         (exists tile, In tile tiles /\ tile_covers tile c) <->
         (0 <= fst c < split_x p * (20 / split_x p) /\
          0 <= snd c < split_y p * (20 / split_y p))) /\
      (20 mod split_x p <> 0 -> split_x p * (20 / split_x p) < 20) /\
      (20 mod split_y p <> 0 -> split_y p * (20 / split_y p) < 20).
Proof.
  intros R N p board Hsx Hsy Hok.
  assert (0 <= 20 / split_x p) as Hpx by (apply Z.div_pos; lia).
  assert (0 <= 20 / split_y p) as Hpy by (apply Z.div_pos; lia).
  unfold BLK_OT_GenerateBoard_execute.
  destruct (validate_params p) as [ok msgs]. cbn [fst] in Hok. subst ok. cbn [negb].
  destruct (result_map_ok (fun t : Z * Z => create_board_tile (fst t) (snd t) p)
              (generated_tiles p)) as [tiles [Ht _]].
  { intros [tx ty] _. apply create_board_tile_ok; lia. }
  exists tiles. rewrite Ht. cbn [bind]. split; [reflexivity|].
  apply result_map_each in Ht.
  (* every tile made is the tile of its index pair *)
  assert (Forall2 (fun (t : Z * Z) tile =>
                     (blk_tile_x tile, blk_tile_y tile) = t /\
                     In (plate_over p (fst t) (snd t)
                           (fst t * (20 / split_x p))
                           (fst t * (20 / split_x p) + 20 / split_x p)
                           (snd t * (20 / split_y p))
                           (snd t * (20 / split_y p) + 20 / split_y p))
                        (joined_parts (tile_object tile)) /\
                     forall c : Cell,
                       tile_covers tile c <->
                       fst t * (20 / split_x p) <= fst c
                         < fst t * (20 / split_x p) + 20 / split_x p /\
                       snd t * (20 / split_y p) <= snd c
                         < snd t * (20 / split_y p) + 20 / split_y p)
                  (generated_tiles p) tiles) as Hall.
  { eapply Forall2_impl; [|exact Ht]. intros [tx ty] tile E. cbn [fst snd] in *.
    destruct (@tile_rib_names R N p tx ty) as (tile' & E' & Htx & Hty & Hribs);
      [lia | lia |].
    rewrite E in E'. injection E' as <-. split; [now rewrite Htx, Hty|].
    split.
    { destruct (@tile_base_plate R N p tx ty) as (tile' & E' & Hplate); [lia | lia |].
      rewrite E in E'. injection E' as <-. exact Hplate. }
    intros c. unfold tile_covers.
    rewrite (proj1 (Hribs (fst c))), (proj1 (Hribs (fst c + 1))),
            (proj2 (Hribs (snd c))), (proj2 (Hribs (snd c + 1))). lia. }
  split; [|split; [|split; [|split; [|split]]]].
  - clear Ht. induction Hall as [|t tile ts tiles' [E _] _ IH]; [reflexivity|].
    cbn [map]. now rewrite E, IH.
  - intros tile c Hin.
    clear Ht. induction Hall as [|t tile' ts tiles' (E & _ & Hc) _ IH]; [destruct Hin|].
    destruct Hin as [<-|Hin]; [|now apply IH].
    subst t. apply Hc.
  - intros tile Hin.
    clear Ht. induction Hall as [|t tile' ts tiles' (E & Hp & _) _ IH]; [destruct Hin|].
    destruct Hin as [<-|Hin]; [|now apply IH].
    subst t. exact Hp.
  - intros c. split.
    + intros (tile & Hin & Hc).
      assert (exists t, In t (generated_tiles p) /\
                fst t * (20 / split_x p) <= fst c
                  < fst t * (20 / split_x p) + 20 / split_x p /\
                snd t * (20 / split_y p) <= snd c
                  < snd t * (20 / split_y p) + 20 / split_y p) as ([tx ty] & Ht' & Hx & Hy).
      { clear Ht. induction Hall as [|t tile' ts tiles' (E & _ & Hc') _ IH];
          [destruct Hin|].
        destruct Hin as [->|Hin].
        - exists t. split; [now left | now apply Hc'].
        - destruct (IH Hin) as (t' & Hin' & H'). exists t'. split; [now right | exact H']. }
      apply generated_tiles_In in Ht'. cbn [fst snd] in Hx, Hy.
      split; apply tiles_cover_axis; try assumption.
      * exists tx. lia.
      * exists ty. lia.
    + intros [Hx Hy].
      apply tiles_cover_axis in Hx as [tx [Htx Hx]]; [|assumption].
      apply tiles_cover_axis in Hy as [ty [Hty Hy]]; [|assumption].
      assert (In (tx, ty) (generated_tiles p)) as Hin
        by (apply generated_tiles_In; lia).
      clear Ht. induction Hall as [|t tile' ts tiles' (E & _ & Hc') _ IH]; [destruct Hin|].
      destruct Hin as [->|Hin].
      * exists tile'. split; [now left|]. apply Hc'. cbn [fst snd]. lia.
      * destruct (IH Hin) as (tile & Hin' & H'). exists tile. split; [now right | exact H'].
  - intros Hm. pose proof (Z.div_mod 20 (split_x p) ltac:(lia)).
    pose proof (Z.mod_pos_bound 20 (split_x p) ltac:(lia)). lia.
  - intros Hm. pose proof (Z.div_mod 20 (split_y p) ltac:(lia)).
    pose proof (Z.mod_pos_bound 20 (split_y p) ltac:(lia)). lia.
Qed.

Lemma board_tiles_cover_witness :
  exists tiles,
    BLK_OT_GenerateBoard_execute (set_split 3 3 (default_params (R:=float))) [] =
    Ok {| run_status := FINISHED;
          run_reports := [(INFO, Report_board_generated 3 3)];
          run_board := tiles |} /\
    List.length tiles = 9%nat /\
    ~ (exists tile, In tile tiles /\ tile_covers tile (18, 0)).
Proof.
  destruct (@board_tiles_cover_split_times_floor float _
              (set_split 3 3 (default_params (R:=float))) [])
    as (tiles & E & Hidx & _ & _ & Hcov & _).
  - cbn. lia.
  - cbn. lia.
  - vm_compute. reflexivity.
  - exists tiles. split; [exact E|]. split.
    + apply (f_equal (@List.length _)) in Hidx. rewrite length_map in Hidx.
      rewrite Hidx. reflexivity.
    + intros Hc. apply Hcov in Hc. cbn [fst snd split_x split_y set_split] in Hc.
      change (20 / 3) with 6 in Hc. lia.
Defined.

(** *** Dowels *)

Lemma cubes_are_no_dowels {R} (l : list (PrimObject R)) :
  Forall (fun o => is_cube o = true) l ->
  filter is_post l = [] /\ filter (fun o => ob_is_hole o) l = [].
Proof.
  induction 1 as [|o l Ho _ [IH1 IH2]]; [split; reflexivity|].
  destruct o as [name prim hole]. unfold is_cube in Ho. simpl in Ho.
  destruct prim; [|discriminate].
  apply negb_true_iff in Ho. subst hole. cbn. rewrite IH1, IH2.
  split; reflexivity.
Qed.

Ltac cube_list :=
  solve [ repeat first
    [ apply Forall_nil
    | apply Forall_cons; [reflexivity|]
    | apply Forall_map, Forall_forall; intros; reflexivity
    | apply Forall_flat_map, Forall_forall; intros
    | match goal with |- Forall _ (if ?c then _ else _) => destruct c end ] ].

Ltac drop_cubes :=
  repeat match goal with
  | |- context [filter _ ?L] =>
      let H := fresh "Hcubes" in
      assert (H : Forall (fun o => is_cube o = true) L) by cube_list;
      destruct (cubes_are_no_dowels H) as [? ?];
      repeat match goal with
             | E : filter _ L = [] |- _ => rewrite E; clear E
             end;
      clear H
  end.

(** Membership in the [n]-th block from the end of a left-nested
    chain of appends. *)
Tactic Notation "in_block" integer(n) :=
  do n (apply in_or_app; left); apply in_or_app; right; simpl; auto.

Section DowelFacts.
Context {R : Type} {N : PyNum R} (p : BLK_Properties R).
Hypothesis split_x_nonzero : split_x p <> 0.
Hypothesis split_y_nonzero : split_y p <> 0.
Local Open Scope py_scope.

(** A tile has two posts for each neighbour of higher index and two holes
    for each neighbour of lower index, and no other dowel. *)
Lemma dowel_counts (tx ty : Z) :
  exists objs,
    create_board_tile_objs tx ty p = Ok objs /\
    Z.of_nat (List.length (filter is_post objs))
      = (2 * (b2z (tx <? split_x p - 1) + b2z (ty <? split_y p - 1)))%Z /\
    Z.of_nat (List.length (filter (fun o => ob_is_hole o) objs))
      = (2 * (b2z (tx >? 0) + b2z (ty >? 0)))%Z.
Proof.
  unfold create_board_tile_objs.
  rewrite (tile_cell_range_ok p tx ty split_x_nonzero split_y_nonzero).
  cbn [bind]. eexists. split; [reflexivity|].
  rewrite !filter_app, !length_app. drop_cubes.
  destruct (tx <? split_x p - 1)%Z, (ty <? split_y p - 1)%Z,
           (tx >? 0)%Z, (ty >? 0)%Z; split; reflexivity.
Qed.

(** The two posts on the right edge of a tile that has a right-hand
    neighbour, and the two holes on the left edge of a tile that has a
    left-hand neighbour, with their coordinates. *)
Lemma right_posts_emitted (tx ty : Z) :
  (tx < split_x p - 1)%Z ->
  let edge_x := of_int (tx * (20 / split_x p) + 20 / split_x p)%Z * cell p in
  let mid_y := of_int (ty * (20 / split_y p)
                       + (ty * (20 / split_y p) + 20 / split_y p))%Z
               * cell p / of_int 2 in
  let spacing := of_int (ty * (20 / split_y p) + 20 / split_y p
                         - ty * (20 / split_y p))%Z * cell p / of_int 3 in
  let z := - board_t p - dowel_len p / of_int 2 in
  exists objs,
    create_board_tile_objs tx ty p = Ok objs /\
    In (add_cylinder edge_x (mid_y + - spacing / of_int 2) z
          (dowel_d p / of_int 2) (dowel_len p)
          (Name_dowel_post_r tx ty 0) false) objs /\
    In (add_cylinder edge_x (mid_y + spacing / of_int 2) z
          (dowel_d p / of_int 2) (dowel_len p)
          (Name_dowel_post_r tx ty 1) false) objs.
Proof.
  intros Hlt. apply Z.ltb_lt in Hlt. unfold create_board_tile_objs.
  rewrite (tile_cell_range_ok p tx ty split_x_nonzero split_y_nonzero).
  cbn [bind]. rewrite Hlt. eexists. split; [reflexivity|]. split; in_block 3.
Qed.

Lemma left_holes_emitted (tx ty : Z) :
  (0 < tx)%Z ->
  let edge_x := of_int (tx * (20 / split_x p))%Z * cell p in
  let mid_y := of_int (ty * (20 / split_y p)
                       + (ty * (20 / split_y p) + 20 / split_y p))%Z
               * cell p / of_int 2 in
  let spacing := of_int (ty * (20 / split_y p) + 20 / split_y p
                         - ty * (20 / split_y p))%Z * cell p / of_int 3 in
  let z := - board_t p - dowel_len p / of_int 2 in
  exists objs,
    create_board_tile_objs tx ty p = Ok objs /\
    In (add_cylinder edge_x (mid_y + - spacing / of_int 2) z
          (dowel_d p / of_int 2 + dowel_clear p) (dowel_len p + lit 0.5)
          (Name_dowel_hole_l tx ty 0) true) objs /\
    In (add_cylinder edge_x (mid_y + spacing / of_int 2) z
          (dowel_d p / of_int 2 + dowel_clear p) (dowel_len p + lit 0.5)
          (Name_dowel_hole_l tx ty 1) true) objs.
Proof.
  intros Hlt. apply Z.gtb_lt in Hlt. unfold create_board_tile_objs.
  rewrite (tile_cell_range_ok p tx ty split_x_nonzero split_y_nonzero).
  cbn [bind]. rewrite Hlt. eexists. split; [reflexivity|]. split; in_block 2.
Qed.

(** The same on the top edge and on the bottom edge. *)
Lemma top_posts_emitted (tx ty : Z) :
  (ty < split_y p - 1)%Z ->
  let edge_y := of_int (ty * (20 / split_y p) + 20 / split_y p)%Z * cell p in
  let mid_x := of_int (tx * (20 / split_x p)
                       + (tx * (20 / split_x p) + 20 / split_x p))%Z
               * cell p / of_int 2 in
  let spacing := of_int (tx * (20 / split_x p) + 20 / split_x p
                         - tx * (20 / split_x p))%Z * cell p / of_int 3 in
  let z := - board_t p - dowel_len p / of_int 2 in
  exists objs,
    create_board_tile_objs tx ty p = Ok objs /\
    In (add_cylinder (mid_x + - spacing / of_int 2) edge_y z
          (dowel_d p / of_int 2) (dowel_len p)
          (Name_dowel_post_t tx ty 0) false) objs /\
    In (add_cylinder (mid_x + spacing / of_int 2) edge_y z
          (dowel_d p / of_int 2) (dowel_len p)
          (Name_dowel_post_t tx ty 1) false) objs.
Proof.
  intros Hlt. apply Z.ltb_lt in Hlt. unfold create_board_tile_objs.
  rewrite (tile_cell_range_ok p tx ty split_x_nonzero split_y_nonzero).
  cbn [bind]. rewrite Hlt. eexists. split; [reflexivity|]. split; in_block 1.
Qed.

Lemma bottom_holes_emitted (tx ty : Z) :
  (0 < ty)%Z ->
  let edge_y := of_int (ty * (20 / split_y p))%Z * cell p in
  let mid_x := of_int (tx * (20 / split_x p)
                       + (tx * (20 / split_x p) + 20 / split_x p))%Z
               * cell p / of_int 2 in
  let spacing := of_int (tx * (20 / split_x p) + 20 / split_x p
                         - tx * (20 / split_x p))%Z * cell p / of_int 3 in
  let z := - board_t p - dowel_len p / of_int 2 in
  exists objs,
    create_board_tile_objs tx ty p = Ok objs /\
    In (add_cylinder (mid_x + - spacing / of_int 2) edge_y z
          (dowel_d p / of_int 2 + dowel_clear p) (dowel_len p + lit 0.5)
          (Name_dowel_hole_b tx ty 0) true) objs /\
    In (add_cylinder (mid_x + spacing / of_int 2) edge_y z
          (dowel_d p / of_int 2 + dowel_clear p) (dowel_len p + lit 0.5)
          (Name_dowel_hole_b tx ty 1) true) objs.
Proof.
  intros Hlt. apply Z.gtb_lt in Hlt. unfold create_board_tile_objs.
  rewrite (tile_cell_range_ok p tx ty split_x_nonzero split_y_nonzero).
  cbn [bind]. rewrite Hlt. eexists. split; [reflexivity|]. split; in_block 0.
Qed.

End DowelFacts.

(** C2, as stated, fails: with the default 2 x 2 split the posts on the
    boundary between tiles (0,0) and (1,0) belong to tile (0,0), the one
    with the smaller index.  Tile (0,0) has no hole at all and four posts
    (right and top edge); tile (1,0) has its two holes on the shared edge
    x = 200 and posts on its top edge only. *)
Lemma C2_posts_on_smaller_index_tile :
  exists lo hi,
    create_board_tile 0 0 (default_params (R:=Q)) = Ok lo /\
    create_board_tile 1 0 (default_params (R:=Q)) = Ok hi /\
    tile_holes lo = [] /\
    map (fun o => (ob_name o, Qred (vec_x (prim_location o))))
        (filter is_post (joined_parts (tile_object lo)))
      = [(Name_dowel_post_r 0 0 0, 200%Q); (Name_dowel_post_r 0 0 1, 200%Q);
         (Name_dowel_post_t 0 0 0, (200 # 3)%Q); (Name_dowel_post_t 0 0 1, (400 # 3)%Q)] /\
    map (fun o => (ob_name o, Qred (vec_x (prim_location o)))) (tile_holes hi)
      = [(Name_dowel_hole_l 1 0 0, 200%Q); (Name_dowel_hole_l 1 0 1, 200%Q)] /\
    map (fun o => ob_name o) (filter is_post (joined_parts (tile_object hi)))
      = [Name_dowel_post_t 1 0 0; Name_dowel_post_t 1 0 1].
Proof.
  do 2 eexists. split; [vm_compute; reflexivity|].
  split; [vm_compute; reflexivity|]. vm_compute. repeat split.
Qed.

(** C2 (amended): on every boundary between two adjacent tiles the two
    posts are emitted on the tile with the smaller index (on its right or
    top edge) and the two matching holes on the tile with the larger
    index (on its left or bottom edge), at the same positions; the hole
    radius is the post radius plus [dowel_clear] and the hole length is
    [dowel_len + 0.5].  A tile has no other dowels: two posts per
    neighbour of higher index, two holes per neighbour of lower index. *)
Theorem dowel_posts_on_lower_tile_holes_on_higher :
  forall (R : Type) (N : PyNum R) (p : BLK_Properties R) (tx ty : Z),
    split_x p <> 0 -> split_y p <> 0 ->
    exists objs,
      create_board_tile_objs tx ty p = Ok objs /\
      Z.of_nat (List.length (filter is_post objs))
        = 2 * (b2z (tx <? split_x p - 1) + b2z (ty <? split_y p - 1)) /\
      Z.of_nat (List.length (filter (fun o => ob_is_hole o) objs))
        = 2 * (b2z (tx >? 0) + b2z (ty >? 0)) /\
      (0 <= tx -> tx + 1 < split_x p ->
       exists objs',
         create_board_tile_objs (tx + 1) ty p = Ok objs' /\
         forall di, di = 0 \/ di = 1 ->
           exists x y z,
             In (add_cylinder x y z (ndiv (dowel_d p) (of_int 2)) (dowel_len p)
                   (Name_dowel_post_r tx ty di) false) objs /\
             In (add_cylinder x y z
                   (nadd (ndiv (dowel_d p) (of_int 2)) (dowel_clear p))
                   (nadd (dowel_len p) (lit 0.5))
                   (Name_dowel_hole_l (tx + 1) ty di) true) objs') /\
      (0 <= ty -> ty + 1 < split_y p ->
       exists objs',
         create_board_tile_objs tx (ty + 1) p = Ok objs' /\
         forall di, di = 0 \/ di = 1 ->
           exists x y z,
             In (add_cylinder x y z (ndiv (dowel_d p) (of_int 2)) (dowel_len p)
                   (Name_dowel_post_t tx ty di) false) objs /\
             In (add_cylinder x y z
                   (nadd (ndiv (dowel_d p) (of_int 2)) (dowel_clear p))
                   (nadd (dowel_len p) (lit 0.5))
                   (Name_dowel_hole_b tx (ty + 1) di) true) objs').
Proof.
  intros R N p tx ty Hx Hy.
  destruct (dowel_counts p Hx Hy tx ty) as [objs [Hobjs [Hposts Hholes]]].
  exists objs. split; [exact Hobjs|]. split; [exact Hposts|]. split; [exact Hholes|].
  split.
  - intros H0 H1.
    destruct (@right_posts_emitted _ _ p Hx Hy tx ty ltac:(lia)) as [o1 [E1 [P0 P1]]].
    destruct (@left_holes_emitted _ _ p Hx Hy (tx + 1) ty ltac:(lia)) as [o2 [E2 [Q0 Q1]]].
    rewrite Hobjs in E1. injection E1 as <-.
    replace ((tx + 1) * (20 / split_x p)) with (tx * (20 / split_x p) + 20 / split_x p)
      in Q0, Q1 by ring.
    exists o2. split; [exact E2|].
    intros di [-> | ->]; do 3 eexists; split; eassumption.
  - intros H0 H1.
    destruct (@top_posts_emitted _ _ p Hx Hy tx ty ltac:(lia)) as [o1 [E1 [P0 P1]]].
    destruct (@bottom_holes_emitted _ _ p Hx Hy tx (ty + 1) ltac:(lia)) as [o2 [E2 [Q0 Q1]]].
    rewrite Hobjs in E1. injection E1 as <-.
    replace ((ty + 1) * (20 / split_y p)) with (ty * (20 / split_y p) + 20 / split_y p)
      in Q0, Q1 by ring.
    exists o2. split; [exact E2|].
    intros di [-> | ->]; do 3 eexists; split; eassumption.
Qed.

(** ** Shelf layout (exact arithmetic) *)

Lemma Qlt_bool_iff (a b : Q) : Qlt_bool a b = true <-> (a < b)%Q.
Proof.
  unfold Qlt_bool. rewrite negb_true_iff. split.
  - intros Hf. apply Qnot_le_lt. intros Hle.
    apply Qle_bool_iff in Hle. congruence.
  - intros Hlt. destruct (Qle_bool b a) eqn:E; [|reflexivity].
    apply Qle_bool_iff in E. apply Qlt_not_le in Hlt. contradiction.
Qed.

Lemma Qlt_bool_false (a b : Q) : Qlt_bool a b = false <-> (b <= a)%Q.
Proof.
  unfold Qlt_bool. rewrite negb_false_iff. apply Qle_bool_iff.
Qed.

Lemma py_min_Q_spec (l : list Q) (m : Q) :
  py_min Qlt_bool l = Ok m -> In m l /\ forall y, In y l -> (m <= y)%Q.
Proof.
  destruct l as [|x xs]; [discriminate|]. simpl. intros E. injection E as <-.
  revert x. induction xs as [|y ys IH]; intros x; simpl.
  - split; [now left | intros z [<-|[]]; apply Qle_refl].
  - destruct (IH (if Qlt_bool y x then y else x)) as [Hin Hle]. split.
    + destruct Hin as [Hin|Hin]; [|now right; right].
      rewrite <- Hin. destruct (Qlt_bool y x); [right; now left | now left].
    + pose proof (Hle _ (or_introl eq_refl)) as Hhd.
      intros z [<-|[<-|Hz]].
      * destruct (Qlt_bool y x) eqn:E; [apply Qlt_bool_iff in E; lra | exact Hhd].
      * destruct (Qlt_bool y x) eqn:E; [exact Hhd | apply Qlt_bool_false in E; lra].
      * apply Hle. now right.
Qed.

Lemma py_max_Q_spec (l : list Q) (m : Q) :
  py_max Qlt_bool l = Ok m -> In m l /\ forall y, In y l -> (y <= m)%Q.
Proof.
  destruct l as [|x xs]; [discriminate|]. simpl. intros E. injection E as <-.
  revert x. induction xs as [|y ys IH]; intros x; simpl.
  - split; [now left | intros z [<-|[]]; apply Qle_refl].
  - destruct (IH (if Qlt_bool x y then y else x)) as [Hin Hle]. split.
    + destruct Hin as [Hin|Hin]; [|now right; right].
      rewrite <- Hin. destruct (Qlt_bool x y); [right; now left | now left].
    + pose proof (Hle _ (or_introl eq_refl)) as Hhd.
      intros z [<-|[<-|Hz]].
      * destruct (Qlt_bool x y) eqn:E; [apply Qlt_bool_iff in E; lra | exact Hhd].
      * destruct (Qlt_bool x y) eqn:E; [exact Hhd | apply Qlt_bool_false in E; lra].
      * apply Hle. now right.
Qed.

Lemma max_of_two (a b m : Q) :
  m = a \/ m = b -> (a <= m)%Q -> (b <= m)%Q -> (m == Qmax a b)%Q.
Proof.
  intros Hm Ha Hb. destruct (Q.max_spec a b) as [[Hlt E]|[Hle E]]; rewrite E;
    destruct Hm; subst; lra.
Qed.

Lemma min_of_two (a b m : Q) :
  m = a \/ m = b -> (m <= a)%Q -> (m <= b)%Q -> (m == Qmin a b)%Q.
Proof.
  intros Hm Ha Hb. destruct (Q.min_spec a b) as [[Hlt E]|[Hle E]]; rewrite E;
    destruct Hm; subst; lra.
Qed.

(** The four extremes the code reads off [bound_box]. *)
Lemma bound_box_extremes (o : PieceObject Q) :
  exists max_x min_x max_y min_y,
    py_max Qlt_bool (map vec_x (bound_box o)) = Ok max_x /\
    py_min Qlt_bool (map vec_x (bound_box o)) = Ok min_x /\
    py_max Qlt_bool (map vec_y (bound_box o)) = Ok max_y /\
    py_min Qlt_bool (map vec_y (bound_box o)) = Ok min_y /\
    (max_x == ext_max_x o /\ min_x == ext_min_x o /\
     max_y == ext_max_y o /\ min_y == ext_min_y o)%Q.
Proof.
  destruct o as [name [[x0 y0] z0] [[x1 y1] z1] loc].
  unfold ext_max_x, ext_min_x, ext_max_y, ext_min_y, bound_box.
  cbn [po_bb_min po_bb_max map vec_x vec_y fst snd].
  destruct (py_max Qlt_bool [x0; x0; x0; x0; x1; x1; x1; x1]) as [max_x|] eqn:E1;
    [|unfold py_max in E1; discriminate].
  destruct (py_min Qlt_bool [x0; x0; x0; x0; x1; x1; x1; x1]) as [min_x|] eqn:E2;
    [|unfold py_min in E2; discriminate].
  destruct (py_max Qlt_bool [y0; y0; y1; y1; y0; y0; y1; y1]) as [max_y|] eqn:E3;
    [|unfold py_max in E3; discriminate].
  destruct (py_min Qlt_bool [y0; y0; y1; y1; y0; y0; y1; y1]) as [min_y|] eqn:E4;
    [|unfold py_min in E4; discriminate].
  apply py_max_Q_spec in E1 as [I1 L1]. apply py_min_Q_spec in E2 as [I2 L2].
  apply py_max_Q_spec in E3 as [I3 L3]. apply py_min_Q_spec in E4 as [I4 L4].
  exists max_x, min_x, max_y, min_y. repeat split.
  - apply max_of_two; [simpl in I1; intuition auto | apply L1 | apply L1]; simpl; auto 10.
  - apply min_of_two; [simpl in I2; intuition auto | apply L2 | apply L2]; simpl; auto 10.
  - apply max_of_two; [simpl in I3; intuition auto | apply L3 | apply L3]; simpl; auto 10.
  - apply min_of_two; [simpl in I4; intuition auto | apply L4 | apply L4]; simpl; auto 10.
Qed.

Lemma py_max2_Qmax (a b : Q) : (py_max2 (R:=Q) a b == Qmax a b)%Q.
Proof.
  unfold py_max2. change (@nltb Q Q_PyNum) with Qlt_bool.
  destruct (Qlt_bool a b) eqn:E.
  - apply Qlt_bool_iff in E. destruct (Q.max_spec a b) as [[? Hm]|[? Hm]]; rewrite Hm; lra.
  - apply Qlt_bool_false in E. destruct (Q.max_spec a b) as [[? Hm]|[? Hm]]; rewrite Hm; lra.
Qed.

(** One iteration of the packing loop.  [(ux, uy)] is the cursor the
    piece is placed at and [urh] the row height it meets: those of the
    shelf, or after a wrap (possible only when the cursor is not at the
    start of a row) the start of a new row. *)
Lemma place_piece_spec (gap max_row_width : Q) (st : Shelf Q) (o : PieceObject Q) :
  exists st' o' ux uy urh,
    place_piece gap max_row_width st o = Ok (st', o') /\
    piece_shape o' = piece_shape o /\
    ((ux == cursor_x st /\ uy == cursor_y st /\ urh == row_height st) \/
     (0 < cursor_x st /\ ux == 0 /\
      uy == cursor_y st + (row_height st + gap) /\ urh == 0))%Q /\
    (vec_x (po_location o') == vec_x (po_location o) + (ux - ext_min_x o) /\
     vec_y (po_location o') == vec_y (po_location o) + (uy - ext_min_y o) /\
     cursor_x st' == ux + ((ext_max_x o - ext_min_x o) + gap) /\
     cursor_y st' == uy /\
     row_height st' == Qmax urh (ext_max_y o - ext_min_y o))%Q.
Proof.
  destruct (bound_box_extremes o)
    as (max_x & min_x & max_y & min_y & E1 & E2 & E3 & E4 & H1 & H2 & H3 & H4).
  unfold place_piece. change (@nltb Q Q_PyNum) with Qlt_bool.
  rewrite E1, E2, E3, E4. cbn [bind].
  destruct o as [name bmin bmax [[lx ly] lz]].
  cbn [po_location set_location].
  set (wrap := Qlt_bool max_row_width (cursor_x st + (max_x - min_x))%py
               && Qlt_bool (of_int 0) (cursor_x st)).
  set (st1 := if wrap then _ else st).
  exists {| cursor_x := (cursor_x st1 + (max_x - min_x + gap))%py;
            cursor_y := cursor_y st1;
            row_height := py_max2 (row_height st1) (max_y - min_y)%py |}.
  eexists. exists (cursor_x st1), (cursor_y st1), (row_height st1).
  split; [reflexivity|]. split; [reflexivity|]. split.
  - subst st1. destruct wrap eqn:Ew.
    + right. subst wrap. apply andb_true_iff in Ew as [_ Ew].
      apply Qlt_bool_iff in Ew. cbn [cursor_x cursor_y row_height].
      repeat split; try reflexivity. exact Ew.
    + left. repeat split; reflexivity.
  - clearbody st1. unfold set_location, vec_x, vec_y.
    cbn [po_location fst snd cursor_x cursor_y row_height].
    change (@nadd Q Q_PyNum) with Qplus. change (@nsub Q Q_PyNum) with Qminus.
    split; [lra|]. split; [lra|]. split; [lra|]. split; [lra|].
    rewrite py_max2_Qmax. apply Q.max_compat; [reflexivity | lra].
Qed.

Lemma ext_x_ordered (o : PieceObject Q) : (ext_min_x o <= ext_max_x o)%Q.
Proof.
  unfold ext_min_x, ext_max_x.
  apply Qle_trans with (vec_x (po_bb_min o)); [apply Q.le_min_l | apply Q.le_max_l].
Qed.

Lemma ext_y_ordered (o : PieceObject Q) : (ext_min_y o <= ext_max_y o)%Q.
Proof.
  unfold ext_min_y, ext_max_y.
  apply Qle_trans with (vec_y (po_bb_min o)); [apply Q.le_min_l | apply Q.le_max_l].
Qed.

Lemma piece_shape_ext (a b : PieceObject Q) :
  piece_shape a = piece_shape b ->
  ext_min_x a = ext_min_x b /\ ext_max_x a = ext_max_x b /\
  ext_min_y a = ext_min_y b /\ ext_max_y a = ext_max_y b /\
  footprint_area a = footprint_area b.
Proof.
  unfold piece_shape, footprint_area, ext_min_x, ext_max_x, ext_min_y, ext_max_y.
  intros E. injection E as _ -> ->. repeat split.
Qed.

(** One iteration on a piece that starts at the origin: the box it ends
    up in, [w] by [h] with its minimum corner at the cursor used. *)
Lemma place_piece_at_origin (gap max_row_width : Q) (st : Shelf Q) (o : PieceObject Q) :
  at_origin o ->
  exists st' o' ux uy urh w h,
    place_piece gap max_row_width st o = Ok (st', o') /\
    piece_shape o' = piece_shape o /\
    (0 <= w /\ 0 <= h)%Q /\
    ((ux == cursor_x st /\ uy == cursor_y st /\ urh == row_height st) \/
     (0 < cursor_x st /\ ux == 0 /\
      uy == cursor_y st + (row_height st + gap) /\ urh == 0))%Q /\
    (placed_min_x o' == ux /\ placed_max_x o' == ux + w /\
     placed_min_y o' == uy /\ placed_max_y o' == uy + h /\
     cursor_x st' == ux + (w + gap) /\ cursor_y st' == uy /\
     urh <= row_height st' /\ h <= row_height st')%Q.
Proof.
  intros [Ox Oy].
  destruct (place_piece_spec gap max_row_width st o)
    as (st' & o' & ux & uy & urh & E & Hs & Hu & Lx & Ly & Cx & Cy & Rh).
  exists st', o', ux, uy, urh, (ext_max_x o - ext_min_x o)%Q,
         (ext_max_y o - ext_min_y o)%Q.
  destruct (piece_shape_ext Hs) as (X0 & X1 & Y0 & Y1 & _).
  pose proof (ext_x_ordered o). pose proof (ext_y_ordered o).
  pose proof (Q.le_max_l urh (ext_max_y o - ext_min_y o)).
  pose proof (Q.le_max_r urh (ext_max_y o - ext_min_y o)).
  split; [exact E|]. split; [exact Hs|]. split; [split; lra|]. split; [exact Hu|].
  unfold placed_min_x, placed_max_x, placed_min_y, placed_max_y.
  rewrite X0, X1, Y0, Y1. repeat split; lra.
Qed.

(** The packing loop on pieces that start at the origin. *)
Lemma shelf_loop_spec (gap max_row_width : Q) :
  (0 <= gap)%Q ->
  forall objs st,
    shelf_ok st -> Forall at_origin objs ->
    exists placed,
      shelf_loop gap max_row_width st objs = Ok placed /\
      map piece_shape placed = map piece_shape objs /\
      Forall (shelf_ahead st) placed /\
      ForallOrdPairs (fun a b => ~ boxes_overlap a b) placed /\
      Sorted (next_on_shelf gap) placed /\
      match placed with
      | [] => True
      | b :: _ => first_on_shelf gap st b
      end.
Proof.
  intros Hgap objs. induction objs as [|o rest IH]; intros st [Hcx Hrh] Hor.
  - exists []. simpl. repeat split; constructor.
  - inversion Hor as [|? ? Ho Hrest]; subst.
    destruct (place_piece_at_origin gap max_row_width st Ho)
      as (st' & o' & ux & uy & urh & w & h & E & Hs & [Hw Hh] & Hu
          & Px0 & Px1 & Py0 & Py1 & Cx & Cy & R1 & R2).
    assert (shelf_ok st') as Hok'.
    { unfold shelf_ok. destruct Hu as [(U1 & U2 & U3)|(U0 & U1 & U2 & U3)]; split; lra. }
    destruct (IH st' Hok' Hrest)
      as (placed & El & Hmap & Hahead & Hpairs & Hsorted & Hfirst).
    exists (o' :: placed). simpl shelf_loop. rewrite E. cbn [bind].
    rewrite El. cbn [bind].
    split; [reflexivity|].
    split; [simpl; now rewrite Hs, Hmap|].
    split; [|split; [|split]].
    + constructor.
      * unfold shelf_ahead.
        destruct Hu as [(U1 & U2 & U3)|(U0 & U1 & U2 & U3)].
        -- split; [lra | left; lra].
        -- split; [lra | right; lra].
      * eapply Forall_impl; [|exact Hahead].
        intros b [A1 A2]. unfold shelf_ahead.
        destruct Hu as [(U1 & U2 & U3)|(U0 & U1 & U2 & U3)].
        -- split; [lra|]. destruct A2 as [A2|A2]; [left; lra | right; lra].
        -- split; [lra | right; lra].
    + constructor; [|exact Hpairs].
      eapply Forall_impl; [|exact Hahead].
      intros b [A1 A2] (O1 & O2 & O3 & O4).
      destruct A2 as [A2|A2]; lra.
    + constructor; [exact Hsorted|].
      destruct placed as [|b placed']; constructor.
      unfold next_on_shelf.
      destruct Hfirst as [(F1 & F2)|(F0 & F1 & F2)].
      * left. repeat split; lra.
      * right. split; lra.
    + unfold first_on_shelf.
      destruct Hu as [(U1 & U2 & U3)|(U0 & U1 & U2 & U3)].
      * left. split; lra.
      * right. repeat split; lra.
Qed.

(** *** The sort *)

Lemma insert_desc_perm {A} (x : Q * A) (l : list (Q * A)) :
  Permutation (insert_desc x l) (x :: l).
Proof.
  induction l as [|y ys IH]; simpl.
  - reflexivity.
  - change (@nltb Q Q_PyNum) with Qlt_bool.
    destruct (Qlt_bool (fst x) (fst y)).
    + apply perm_trans with (y :: x :: ys); [now apply perm_skip | apply perm_swap].
    + reflexivity.
Qed.

Lemma sort_desc_perm {A} (l : list (Q * A)) : Permutation (sort_desc l) l.
Proof.
  induction l as [|x l IH]; simpl.
  - reflexivity.
  - apply perm_trans with (x :: sort_desc l);
      [apply insert_desc_perm | now apply perm_skip].
Qed.

Lemma insert_desc_sorted {A} (x : Q * A) (l : list (Q * A)) :
  StronglySorted (fun a b => (fst b <= fst a)%Q) l ->
  StronglySorted (fun a b => (fst b <= fst a)%Q) (insert_desc x l).
Proof.
  induction 1 as [|y ys Hs IH Hy]; simpl.
  - repeat constructor.
  - change (@nltb Q Q_PyNum) with Qlt_bool.
    destruct (Qlt_bool (fst x) (fst y)) eqn:E.
    + apply Qlt_bool_iff in E. constructor; [exact IH|].
      apply (Permutation_Forall (x := x :: ys)).
      * symmetry. apply insert_desc_perm.
      * constructor; [lra | exact Hy].
    + apply Qlt_bool_false in E. constructor.
      * now constructor.
      * constructor; [exact E|].
        eapply Forall_impl; [|exact Hy]. intros z Hz. simpl in Hz. lra.
Qed.

Lemma sort_desc_sorted {A} (l : list (Q * A)) :
  StronglySorted (fun a b => (fst b <= fst a)%Q) (sort_desc l).
Proof.
  induction l as [|x l IH]; simpl; [constructor | now apply insert_desc_sorted].
Qed.

Lemma bbox_area_spec (o : PieceObject Q) :
  exists k, bbox_area o = Ok k /\ (k == footprint_area o)%Q.
Proof.
  destruct (bound_box_extremes o)
    as (max_x & min_x & max_y & min_y & E1 & E2 & E3 & E4 & H1 & H2 & H3 & H4).
  unfold bbox_area. change (@nltb Q Q_PyNum) with Qlt_bool.
  rewrite E1, E2, E3, E4. cbn [bind]. eexists. split; [reflexivity|].
  unfold footprint_area.
  change (@nmul Q Q_PyNum) with Qmult. change (@nsub Q Q_PyNum) with Qminus.
  rewrite H1, H2, H3, H4. reflexivity.
Qed.

Lemma keyed_areas (pieces : list (PieceObject Q)) :
  exists keyed,
    result_map (fun obj => k <- bbox_area obj ;; Ok (k, obj)) pieces = Ok keyed /\
    map snd keyed = pieces /\
    Forall (fun ko => (fst ko == footprint_area (snd ko))%Q) keyed.
Proof.
  induction pieces as [|o rest (keyed & E & Hm & Hk)].
  - exists []. repeat split. constructor.
  - destruct (bbox_area_spec o) as (k & Ek & Hk0).
    exists ((k, o) :: keyed). simpl. rewrite Ek. cbn [bind]. rewrite E. cbn [bind].
    split; [reflexivity|]. split; [simpl; now rewrite Hm|]. now constructor.
Qed.

Lemma areas_sorted (keyed : list (Q * PieceObject Q)) :
  Forall (fun ko => (fst ko == footprint_area (snd ko))%Q) keyed ->
  StronglySorted (fun a b => (fst b <= fst a)%Q) keyed ->
  StronglySorted (fun a b => (footprint_area b <= footprint_area a)%Q) (map snd keyed).
Proof.
  intros Hk Hs. induction Hs as [|y ys Hs IH Hy]; simpl; [constructor|].
  inversion Hk as [|? ? Hy0 Hys]; subst. constructor; [auto|].
  apply Forall_map. rewrite Forall_forall in *.
  intros z Hz. specialize (Hy z Hz). specialize (Hys z Hz). simpl in *. lra.
Qed.

(** The list after the sort: the same pieces, largest footprint first. *)
Lemma sort_by_area_spec (pieces : list (PieceObject Q)) :
  exists sorted,
    sort_by_area pieces = Ok sorted /\
    Permutation sorted pieces /\
    StronglySorted (fun a b => (footprint_area b <= footprint_area a)%Q) sorted.
Proof.
  destruct (keyed_areas pieces) as (keyed & E & Hm & Hk).
  exists (map snd (sort_desc keyed)). unfold sort_by_area. rewrite E. cbn [bind].
  split; [reflexivity|]. split.
  - rewrite <- Hm. apply Permutation_map, sort_desc_perm.
  - apply areas_sorted; [|apply sort_desc_sorted].
    apply (Permutation_Forall (x := keyed)); [|exact Hk].
    symmetry. apply sort_desc_perm.
Qed.

(** The layout in exact arithmetic, on pieces located at the origin and
    with a gap >= 0: the same pieces, the one with the largest
    bounding-box area first and with its minimum corner at (0,0); each
    next piece either in the same row, at the x-cursor advanced by the
    width of the previous piece plus the gap, or at x = 0 of a new row
    above; no two placed bounding boxes overlapping. *)
Lemma layout_without_rounding :
  forall (color : string) (pieces : list (PieceObject Q)) (gap cell : Q),
    pieces <> [] -> (0 <= gap)%Q -> Forall at_origin pieces ->
    exists first rest,
      layout_pieces_shelf color pieces gap cell = Ok (first :: rest) /\
      Permutation (map piece_shape (first :: rest)) (map piece_shape pieces) /\
      (forall o, In o pieces -> (footprint_area o <= footprint_area first)%Q) /\
      (placed_min_x first == 0 /\ placed_min_y first == 0)%Q /\
      Sorted (next_on_shelf gap) (first :: rest) /\
      ForallOrdPairs (fun a b => ~ boxes_overlap a b) (first :: rest).
Proof.
  intros color pieces gap cell Hne Hgap Hor.
  destruct (sort_by_area_spec pieces) as (sorted & Es & Hperm & Hsorted).
  assert (Forall at_origin sorted) as Hor'.
  { apply (Permutation_Forall (x := pieces)); [now symmetry | exact Hor]. }
  set (st0 := {| cursor_x := lit (R:=Q) 0.0; cursor_y := lit (R:=Q) 0.0;
                 row_height := lit (R:=Q) 0.0 |}).
  assert (shelf_ok st0) as Hok0.
  { unfold shelf_ok, st0. simpl. split; lra. }
  destruct (@shelf_loop_spec gap (nmul cell (of_int 25)) Hgap sorted st0 Hok0 Hor')
    as (placed & El & Hmap & _ & Hpairs & Hchain & Hfirst).
  unfold layout_pieces_shelf.
  destruct pieces as [|p0 ps]; [congruence|].
  rewrite Es. cbn [bind]. fold st0. rewrite El.
  destruct placed as [|first rest].
  - destruct sorted; [|discriminate Hmap].
    apply Permutation_nil in Hperm. discriminate.
  - exists first, rest. split; [reflexivity|].
    destruct sorted as [|s0 ss]; [discriminate Hmap|].
    pose proof (f_equal (hd (piece_shape first)) Hmap) as Hs0. simpl in Hs0.
    destruct (piece_shape_ext Hs0) as (_ & _ & _ & _ & Harea).
    split; [|split; [|split; [|split]]].
    + rewrite Hmap. now apply Permutation_map.
    + intros o Ho. rewrite Harea.
      apply StronglySorted_inv in Hsorted as [_ Hhd].
      apply (Permutation_in _ (Permutation_sym Hperm)) in Ho.
      destruct Ho as [<-|Ho]; [apply Qle_refl|].
      rewrite Forall_forall in Hhd. now apply Hhd.
    + destruct Hfirst as [(F1 & F2)|(F0 & _)].
      * unfold st0 in F1, F2. simpl in F1, F2. split; lra.
      * unfold st0 in F0. simpl in F0. lra.
    + exact Hchain.
    + exact Hpairs.
Qed.

(** *** The layout in binary64 *)

(** Whatever the arithmetic, the layout raises nothing and returns the
    pieces it was given. *)
Section LayoutNames.
Context {R : Type} {N : PyNum R}.

Lemma insert_desc_permutation {A} (x : R * A) (l : list (R * A)) :
  Permutation (insert_desc x l) (x :: l).
Proof.
  induction l as [|y ys IH]; cbn [insert_desc]; [reflexivity|].
  destruct (nltb (fst x) (fst y)); [|reflexivity].
  apply perm_trans with (y :: x :: ys); [now apply perm_skip | apply perm_swap].
Qed.

Lemma sort_desc_permutation {A} (l : list (R * A)) : Permutation (sort_desc l) l.
Proof.
  induction l as [|x l IH]; cbn [sort_desc fold_right]; [reflexivity|].
  apply perm_trans with (x :: sort_desc l);
    [apply insert_desc_permutation | now apply perm_skip].
Qed.

Lemma bbox_area_returns (obj : PieceObject R) : exists a, bbox_area obj = Ok a.
Proof.
  unfold bbox_area, bound_box.
  destruct (po_bb_min obj) as [[x0 y0] z0], (po_bb_max obj) as [[x1 y1] z1].
  eexists. reflexivity.
Qed.

Lemma sort_by_area_permutation (objs : list (PieceObject R)) :
  exists sorted, sort_by_area objs = Ok sorted /\ Permutation sorted objs.
Proof.
  unfold sort_by_area.
  assert (exists keyed,
            result_map (fun obj => bind (bbox_area obj) (fun k => Ok (k, obj))) objs
            = Ok keyed /\ map snd keyed = objs) as (keyed & E & Hk).
  { induction objs as [|o objs (keyed & E & Hk)].
    - exists []. split; reflexivity.
    - destruct (bbox_area_returns o) as [a Ea]. exists ((a, o) :: keyed).
      cbn [result_map]. rewrite Ea. cbn [bind]. rewrite E. cbn [bind map snd].
      split; [reflexivity | now rewrite Hk]. }
  rewrite E. cbn [bind]. eexists. split; [reflexivity|].
  rewrite <- Hk. apply Permutation_map, sort_desc_permutation.
Qed.

Lemma place_piece_name (gap max_row_width : R) (st : Shelf R) (obj : PieceObject R) :
  exists st' obj',
    place_piece gap max_row_width st obj = Ok (st', obj') /\ po_name obj' = po_name obj.
Proof.
  unfold place_piece, bound_box.
  destruct (po_bb_min obj) as [[x0 y0] z0], (po_bb_max obj) as [[x1 y1] z1].
  cbn [map py_max py_min bind]. destruct (po_location obj) as [[lx ly] lz].
  do 2 eexists. split; reflexivity.
Qed.

Lemma shelf_loop_names (gap max_row_width : R) (objs : list (PieceObject R)) :
  forall st, exists placed,
    shelf_loop gap max_row_width st objs = Ok placed /\
    map (fun o => po_name o) placed = map (fun o => po_name o) objs.
Proof.
  induction objs as [|o objs IH]; intros st.
  - exists []. split; reflexivity.
  - destruct (place_piece_name gap max_row_width st o) as (st' & o' & E & Hn).
    destruct (IH st') as (placed & E' & Hp).
    exists (o' :: placed). cbn [shelf_loop]. rewrite E. cbn [bind]. rewrite E'.
    cbn [bind map]. split; [reflexivity | now rewrite Hn, Hp].
Qed.

Lemma layout_pieces_shelf_names (color : string) (objs : list (PieceObject R))
  (gap cell : R) :
  exists placed,
    layout_pieces_shelf color objs gap cell = Ok placed /\
    Permutation (map (fun o => po_name o) placed) (map (fun o => po_name o) objs).
Proof.
  unfold layout_pieces_shelf. destruct objs as [|o objs].
  - exists []. split; reflexivity.
  - destruct (sort_by_area_permutation (o :: objs)) as (sorted & E & Hperm).
    rewrite E. cbn [bind].
    match goal with
    | |- context [shelf_loop ?g ?w ?st sorted] =>
        destruct (shelf_loop_names g w sorted st) as (placed & E' & Hn)
    end.
    exists placed. split; [exact E'|]. rewrite Hn. now apply Permutation_map.
Qed.

End LayoutNames.

(** Boxes of the same numbers are placed alike. *)
Lemma po_equiv_box (a b : PieceObject Q) :
  po_equiv a b ->
  (placed_min_x a == placed_min_x b /\ placed_max_x a == placed_max_x b /\
   placed_min_y a == placed_min_y b /\ placed_max_y a == placed_max_y b /\
   footprint_area a == footprint_area b)%Q.
Proof.
  intros (_ & (X0 & Y0 & _) & (X1 & Y1 & _) & (LX & LY & _)).
  assert (ext_min_x a == ext_min_x b)%Q as E1 by (now apply Q.min_compat).
  assert (ext_max_x a == ext_max_x b)%Q as E2 by (now apply Q.max_compat).
  assert (ext_min_y a == ext_min_y b)%Q as E3 by (now apply Q.min_compat).
  assert (ext_max_y a == ext_max_y b)%Q as E4 by (now apply Q.max_compat).
  unfold placed_min_x, placed_max_x, placed_min_y, placed_max_y, footprint_area.
  rewrite E1, E2, E3, E4, LX, LY. repeat split; reflexivity.
Qed.

Lemma Sorted_Forall2 {A} (P : A -> A -> Prop) (E : A -> A -> Prop) :
  (forall a a' b b', E a a' -> E b b' -> P a' b' -> P a b) ->
  forall l l', Forall2 E l l' -> Sorted P l' -> Sorted P l.
Proof.
  intros HP l l' H. induction H as [|a a' l l' Ha Hl IH]; intros Hs; [constructor|].
  apply Sorted_inv in Hs as [Hs Hhd]. constructor; [now apply IH|].
  destruct Hl as [|b b' l l' Hb Hl]; constructor.
  apply HdRel_inv in Hhd. now apply (HP a a' b b').
Qed.

Lemma ForallOrdPairs_Forall2 {A} (P : A -> A -> Prop) (E : A -> A -> Prop) :
  (forall a a' b b', E a a' -> E b b' -> P a' b' -> P a b) ->
  forall l l', Forall2 E l l' -> ForallOrdPairs P l' -> ForallOrdPairs P l.
Proof.
  intros HP l l' H. induction H as [|a a' l l' Ha Hl IH]; intros Hs; [constructor|].
  inversion Hs as [|? ? Hall Hrest]; subst. constructor; [|now apply IH].
  clear IH Hs Hrest. induction Hl as [|b b' l l' Hb Hl IHl]; [constructor|].
  inversion Hall; subst. constructor; [now apply (HP a a' b b') | now apply IHl].
Qed.





Lemma dowel_posts_and_holes_witness :
  exists objs objs' x y z,
    create_board_tile_objs 0 0 (default_params (R:=Q)) = Ok objs /\
    create_board_tile_objs 1 0 (default_params (R:=Q)) = Ok objs' /\
    In (add_cylinder x y z (ndiv (dowel_d (default_params (R:=Q))) (of_int 2))
          (dowel_len (default_params (R:=Q))) (Name_dowel_post_r 0 0 0) false) objs /\
    In (add_cylinder x y z
          (nadd (ndiv (dowel_d (default_params (R:=Q))) (of_int 2))
                (dowel_clear (default_params (R:=Q))))
          (nadd (dowel_len (default_params (R:=Q))) (lit 0.5))
          (Name_dowel_hole_l 1 0 0) true) objs'.
Proof.
  destruct (@dowel_posts_on_lower_tile_holes_on_higher Q _ (default_params (R:=Q)) 0 0)
    as (objs & E & _ & _ & Hx & _).
  - simpl. discriminate.
  - simpl. discriminate.
  - destruct Hx as (objs' & E' & Hd).
    + lia.
    + simpl. lia.
    + destruct (Hd 0 (or_introl eq_refl)) as (x & y & z & P & H).
      exists objs, objs', x, y, z. repeat split; assumption.
Defined.

(** * Part III: further properties of the code *)

(** ** The parameter validator, characterised *)

(** [ok] is true exactly when none of the four tests fires. *)
Lemma validate_params_ok_iff {R} {N : PyNum R} (p : BLK_Properties R) :
  fst (validate_params p) = true <->
  nltb (remaining p) (lit 1.6) = false /\ nltb (clear p) (of_int 0) = false /\
  nltb (lit 0.35) (clear p) = false /\ nleb (groove_w p) (rib_w p) = false.
Proof.
  unfold validate_params.
  destruct (nltb (remaining p) (lit 1.6)), (nltb (clear p) (of_int 0)),
           (nltb (lit 0.35) (clear p)), (nleb (groove_w p) (rib_w p));
    simpl; intuition congruence.
Qed.

(** ** Groove bars, line by line *)

(** X4: every side of every cell gets a groove, whatever the arithmetic.
    For a cell [(x, y)] of the piece the cutter holds the bar the code
    builds on each of the grid lines [x], [x+1] (named [_bar_x_..]) and
    [y], [y+1] (named [_bar_y_..]): a cube of size 1 scaled to [groove_w]
    across its grid line and to [groove_d] in height, centred on
    [line * cell_size] across and on [groove_d / 2] in height, as the
    code computes them.  The cutter holds nothing but such bars. *)
Theorem groove_cutter_bars_on_every_cell_side :
  forall (R : Type) (N : PyNum R) (name : ObjName) (cells : list Cell)
         (cell_size groove_w groove_d piece_t : R) (x y : Z),
    In (x, y) cells ->
    exists cutter y_lo y_hi x_lo x_hi,
      make_groove_cutter name cells cell_size groove_w groove_d piece_t
        = Ok (Some cutter) /\
      (forall gx, gx = x \/ gx = x + 1 ->
         In {| ob_name := Name_bar_x gx;
               ob_prim := Cube (of_int 1)
                 (nmul (of_int gx) cell_size,
                  ndiv (nadd y_lo y_hi) (of_int 2), ndiv groove_d (of_int 2))
                 (groove_w, nadd (nsub y_hi y_lo) (nmul groove_w (of_int 2)), groove_d);
               ob_is_hole := false |} (joined_parts cutter)) /\
      (forall gy, gy = y \/ gy = y + 1 ->
         In {| ob_name := Name_bar_y gy;
               ob_prim := Cube (of_int 1)
                 (ndiv (nadd x_lo x_hi) (of_int 2),
                  nmul (of_int gy) cell_size, ndiv groove_d (of_int 2))
                 (nadd (nsub x_hi x_lo) (nmul groove_w (of_int 2)), groove_w, groove_d);
               ob_is_hole := false |} (joined_parts cutter)) /\
      (forall bar, In bar (joined_parts cutter) ->
         exists g,
           bar = bar_x cell_size groove_w groove_d y_lo y_hi g \/
           bar = bar_y cell_size groove_w groove_d x_lo x_hi g).
Proof.
  intros R N name cells cs gw gd pt x y Hin.
  assert (In x (map fst cells)) as Hx by (apply in_map_iff; exists (x, y); auto).
  assert (In y (map snd cells)) as Hy by (apply in_map_iff; exists (x, y); auto).
  destruct (py_min_nonempty (l := map fst cells)) as [min_x E1]; [intros E; now rewrite E in Hx|].
  destruct (py_max_nonempty (l := map fst cells)) as [max_x E2]; [intros E; now rewrite E in Hx|].
  destruct (py_min_nonempty (l := map snd cells)) as [min_y E3]; [intros E; now rewrite E in Hy|].
  destruct (py_max_nonempty (l := map snd cells)) as [max_y E4]; [intros E; now rewrite E in Hy|].
  unfold make_groove_cutter, get_grid_lines_for_piece, piece_footprint.
  rewrite E1, E2, E3, E4. cbn [bind app].
  apply py_min_spec in E1 as [_ L1]. apply py_max_spec in E2 as [_ L2].
  apply py_min_spec in E3 as [_ L3]. apply py_max_spec in E4 as [_ L4].
  specialize (L1 _ Hx). specialize (L2 _ Hx). specialize (L3 _ Hy). specialize (L4 _ Hy).
  set (y_lo := nmul (of_int min_y) cs). set (y_hi := nmul (of_int (max_y + 1)) cs).
  set (x_lo := nmul (of_int min_x) cs). set (x_hi := nmul (of_int (max_x + 1)) cs).
  set (bars := map _ (py_range min_x (max_x + 2)) ++ map _ (py_range min_y (max_y + 2))).
  assert (forall gx, gx = x \/ gx = x + 1 -> In (bar_x cs gw gd y_lo y_hi gx) bars) as Hbx.
  { intros gx Hgx. apply in_or_app. left. apply in_map. apply py_range_In. lia. }
  assert (forall gy, gy = y \/ gy = y + 1 -> In (bar_y cs gw gd x_lo x_hi gy) bars) as Hby.
  { intros gy Hgy. apply in_or_app. right. apply in_map. apply py_range_In. lia. }
  assert (forall bar, In bar bars ->
            exists g, bar = bar_x cs gw gd y_lo y_hi g \/ bar = bar_y cs gw gd x_lo x_hi g)
    as Hall.
  { intros bar Hb. unfold bars in Hb.
    apply in_app_or in Hb as [Hb|Hb]; apply in_map_iff in Hb as [g [<- _]];
      exists g; auto. }
  destruct bars as [|b bs] eqn:Eb.
  - destruct (Hbx x (or_introl eq_refl)).
  - exists {| joined_name := name; joined_parts := b :: bs |}, y_lo, y_hi, x_lo, x_hi.
    split; [reflexivity|]. cbn [joined_parts]. auto.
Qed.

Lemma groove_cutter_bars_witness :
  exists cutter bar,
    make_groove_cutter (Named "cutter") [(0, 0); (1, 0); (1, 1)]
      (lit (R:=float) 20.0) (lit 1.6) (lit 1.15) (lit 3.2) = Ok (Some cutter) /\
    In bar (joined_parts cutter) /\ ob_name bar = Name_bar_x 2.
Proof.
  destruct (@groove_cutter_bars_on_every_cell_side float _ (Named "cutter")
              [(0, 0); (1, 0); (1, 1)] (lit 20.0) (lit 1.6) (lit 1.15) (lit 3.2) 1 1)
    as (cutter & y_lo & y_hi & x_lo & x_hi & E & Hx & _).
  - simpl. auto.
  - exists cutter. eexists. split; [exact E|].
    split; [apply (Hx 2); right; reflexivity | reflexivity].
Defined.

(** ** Board tiles: the parts two neighbours share *)

(** *** The rib on a shared grid line *)

Section RibFacts.
Context {R : Type} {N : PyNum R} (p : BLK_Properties R).
Hypothesis split_x_nonzero : split_x p <> 0.
Hypothesis split_y_nonzero : split_y p <> 0.
Local Open Scope py_scope.

(** A tile has a rib on every vertical grid line from its first to its
    last, both included. *)
Lemma rib_x_emitted (tx ty gx : Z) :
  (tx * (20 / split_x p) <= gx <= tx * (20 / split_x p) + 20 / split_x p)%Z ->
  let rib_y_min := of_int (ty * (20 / split_y p))%Z * cell p in
  let rib_y_max := of_int (ty * (20 / split_y p) + 20 / split_y p)%Z * cell p in
  exists objs,
    create_board_tile_objs tx ty p = Ok objs /\
    In (cube_object (Name_ribX gx)
          (of_int gx * cell p, (rib_y_min + rib_y_max) / of_int 2, rib_h p / of_int 2)
          (rib_w p, rib_y_max - rib_y_min, rib_h p)) objs.
Proof.
  intros Hgx. unfold create_board_tile_objs.
  rewrite (tile_cell_range_ok p tx ty split_x_nonzero split_y_nonzero).
  cbn [bind]. eexists. split; [reflexivity|].
  do 10 (apply in_or_app; left). apply in_or_app. right.
  apply in_map_iff. exists gx. split; [reflexivity|]. apply py_range_In. lia.
Qed.

(** The dowels of a tile, whatever their edge, have one shape each: the
    posts and the holes differ in radius and depth only. *)
Lemma dowel_shapes (tx ty : Z) :
  exists objs,
    create_board_tile_objs tx ty p = Ok objs /\
    (forall o, In o objs -> is_post o = true ->
       exists x y name,
         o = add_cylinder x y (- board_t p - dowel_len p / of_int 2)
               (dowel_d p / of_int 2) (dowel_len p) name false) /\
    (forall o, In o objs -> ob_is_hole o = true ->
       exists x y name,
         o = add_cylinder x y (- board_t p - dowel_len p / of_int 2)
               (dowel_d p / of_int 2 + dowel_clear p) (dowel_len p + lit 0.5)
               name true).
Proof.
  unfold create_board_tile_objs.
  rewrite (tile_cell_range_ok p tx ty split_x_nonzero split_y_nonzero).
  cbn [bind]. eexists. split; [reflexivity|]. split.
  - intros o Hin Hpost.
    assert (In o (filter is_post
      (* the list again, through the hypothesis *) _)) as Hf
      by (apply filter_In; split; [exact Hin | exact Hpost]).
    clear Hin. rewrite !filter_app in Hf. revert Hf. drop_cubes.
    destruct (tx <? split_x p - 1)%Z, (ty <? split_y p - 1)%Z,
             (tx >? 0)%Z, (ty >? 0)%Z; cbn; intros Hf;
      repeat (destruct Hf as [<-|Hf]; [do 3 eexists; reflexivity|]);
      contradiction.
  - intros o Hin Hhole.
    assert (In o (filter (fun o => ob_is_hole o) _)) as Hf
      by (apply filter_In; split; [exact Hin | exact Hhole]).
    clear Hin. rewrite !filter_app in Hf. revert Hf. drop_cubes.
    destruct (tx <? split_x p - 1)%Z, (ty <? split_y p - 1)%Z,
             (tx >? 0)%Z, (ty >? 0)%Z; cbn; intros Hf;
      repeat (destruct Hf as [<-|Hf]; [do 3 eexists; reflexivity|]);
      contradiction.
Qed.

End RibFacts.

(** X6: the rib on a grid line shared by two tiles is built twice,
    whatever the arithmetic.  For two neighbours [(tx, ty)] and
    [(tx + 1, ty)] both tiles hold a rib [_ribX_g] on the shared line
    [g = (tx + 1) * (20 // split_x)], and it is the same cube in both:
    at its full width [rib_w], centred on [g * cell] as the code computes
    it, over the cells of the row [ty].  Neither tile leaves the shared
    rib to the other or halves it. *)
Theorem boundary_rib_emitted_by_both_tiles :
  forall (R : Type) (N : PyNum R) (p : BLK_Properties R) (tx ty : Z),
    0 <= tx -> tx + 1 < split_x p -> split_y p <> 0 ->
    let g := (tx + 1) * (20 / split_x p) in
    let rib_y_min := nmul (of_int (ty * (20 / split_y p))) (cell p) in
    let rib_y_max := nmul (of_int (ty * (20 / split_y p) + 20 / split_y p)) (cell p) in
    let rib :=
      {| ob_name := Name_ribX g;
         ob_prim := Cube (of_int 1)
           (nmul (of_int g) (cell p), ndiv (nadd rib_y_min rib_y_max) (of_int 2),
            ndiv (rib_h p) (of_int 2))
           (rib_w p, nsub rib_y_max rib_y_min, rib_h p);
         ob_is_hole := false |} in
    exists left_tile right_tile,
      create_board_tile tx ty p = Ok left_tile /\
      create_board_tile (tx + 1) ty p = Ok right_tile /\
      In rib (joined_parts (tile_object left_tile)) /\
      In rib (joined_parts (tile_object right_tile)).
Proof.
  intros R N p tx ty H0 H1 Hy g rib_y_min rib_y_max rib.
  assert (split_x p <> 0) as Hx by lia.
  assert (0 <= 20 / split_x p) as Hper by (apply Z.div_pos; lia).
  destruct (@rib_x_emitted R N p Hx Hy tx ty g ltac:(unfold g; lia)) as (o1 & F1 & R1).
  destruct (@rib_x_emitted R N p Hx Hy (tx + 1) ty g ltac:(unfold g; lia))
    as (o2 & F2 & R2).
  unfold create_board_tile. rewrite F1, F2. cbn [bind].
  do 2 eexists. split; [reflexivity|]. split; [reflexivity|].
  cbn [tile_object joined_parts].
  split; apply filter_In; (split; [assumption | reflexivity]).
Qed.

Lemma boundary_rib_witness :
  exists left_tile right_tile rib,
    create_board_tile 0 0 (default_params (R:=float)) = Ok left_tile /\
    create_board_tile 1 0 (default_params (R:=float)) = Ok right_tile /\
    In rib (joined_parts (tile_object left_tile)) /\
    In rib (joined_parts (tile_object right_tile)) /\
    ob_name rib = Name_ribX 10.
Proof.
  destruct (@boundary_rib_emitted_by_both_tiles float _ (default_params (R:=float)) 0 0)
    as (left_tile & right_tile & E1 & E2 & I1 & I2).
  - lia.
  - cbn. lia.
  - cbn. lia.
  - exists left_tile, right_tile. eexists.
    split; [exact E1|]. split; [exact E2|]. split; [exact I1|]. split; [exact I2|].
    reflexivity.
Defined.

(** ** Outline extraction: which edges are kept *)

Lemma fold_left_map {A B C} (f : A -> C -> A) (g : B -> C) (l : list B) (a : A) :
  fold_left f (map g l) a = fold_left (fun a x => f a (g x)) l a.
Proof. revert a. induction l as [|x l IH]; intros a; simpl; [reflexivity | apply IH]. Qed.

(** The two nested loops are one pass over the keys. *)
Lemma count_edges_fold (cells : list Cell) :
  count_edges cells =
  fold_left (fun d k => dict_update edge_eqb 0 Z.succ k d) (edge_keys cells) [].
Proof.
  unfold count_edges, edge_keys. generalize (@nil (Edge * Z)) as d.
  induction cells as [|c cells IH]; intros d; simpl; [reflexivity|].
  rewrite map_app, fold_left_app, IH. f_equal. symmetry. apply fold_left_map.
Qed.

Section DictInvariants.
Context {K V : Type} (keq : K -> K -> bool).
Hypothesis keq_eq : forall a b, keq a b = true <-> a = b.

Lemma dict_update_NoDup (dflt : V) (f : V -> V) (k : K) (d : list (K * V)) :
  NoDup (map fst d) -> NoDup (map fst (dict_update keq dflt f k d)).
Proof.
  induction d as [|[k0 v] d IH]; simpl; intros Hnd.
  - constructor; [intros [] | constructor].
  - inversion Hnd as [|? ? Hnotin Hnd']; subst.
    destruct (keq k0 k) eqn:E; simpl.
    + constructor; assumption.
    + constructor; [|auto].
      intros Hin. apply (dict_update_keys keq) in Hin as [->|Hin]; [|contradiction].
      rewrite (keq_refl keq keq_eq) in E. discriminate.
Qed.

(** With distinct keys, an item is in the dict exactly when looking its
    key up returns its value. *)
Lemma dict_get_In (d : list (K * V)) (k : K) (v : V) :
  NoDup (map fst d) -> (In (k, v) d <-> dict_get keq d k = Some v).
Proof.
  induction d as [|[k0 v0] d IH]; simpl; intros Hnd.
  - split; [intros [] | discriminate].
  - inversion Hnd as [|? ? Hnotin Hnd']; subst.
    destruct (keq k0 k) eqn:E.
    + apply keq_eq in E. subst k0. split.
      * intros [Heq|Hin]; [congruence|].
        exfalso. apply Hnotin. apply in_map_iff. now exists (k, v).
      * intros Heq. left. congruence.
    + rewrite <- (IH Hnd'). split.
      * intros [Heq|Hin]; [|exact Hin]. injection Heq as -> ->.
        rewrite (keq_refl keq keq_eq) in E. discriminate.
      * intros Hin. now right.
Qed.

Lemma filter_keys_NoDup (f : K * V -> bool) (d : list (K * V)) :
  NoDup (map fst d) -> NoDup (map fst (filter f d)).
Proof.
  induction d as [|kv d IH]; simpl; intros Hnd; [constructor|].
  inversion Hnd as [|? ? Hnotin Hnd']; subst.
  destruct (f kv); simpl; [|auto]. constructor; [|auto].
  intros Hin. apply Hnotin. apply in_map_iff in Hin as [x [Hx Hf]].
  apply filter_In in Hf as [Hf _]. apply in_map_iff. now exists x.
Qed.

End DictInvariants.

Lemma edge_eqb_sym (a b : Edge) : edge_eqb a b = edge_eqb b a.
Proof.
  destruct (edge_eqb a b) eqn:E1, (edge_eqb b a) eqn:E2; try reflexivity.
  - apply edge_eqb_eq in E1. subst. rewrite (proj2 (edge_eqb_eq b b) eq_refl) in E2.
    discriminate.
  - apply edge_eqb_eq in E2. subst. rewrite (proj2 (edge_eqb_eq a a) eq_refl) in E1.
    discriminate.
Qed.

Lemma occ_app (k : Edge) (l1 l2 : list Edge) : occ k (l1 ++ l2) = (occ k l1 + occ k l2)%nat.
Proof. unfold occ. now rewrite filter_app, length_app. Qed.

(** After the counting pass the dict has distinct keys and holds, for
    every key met, the number of times it was met. *)
Lemma counts_spec (l : list Edge) :
  let d := fold_left (fun d k => dict_update edge_eqb 0 Z.succ k d) l [] in
  NoDup (map fst d) /\
  forall k, dict_get edge_eqb d k =
            if Nat.eqb (occ k l) 0 then None else Some (Z.of_nat (occ k l)).
Proof.
  induction l as [|x l [IHnd IHget]] using rev_ind; simpl.
  - split; [constructor | reflexivity].
  - rewrite fold_left_app. simpl. split.
    + apply (dict_update_NoDup edge_eqb edge_eqb_eq). exact IHnd.
    + intros k. rewrite (dict_get_update edge_eqb edge_eqb_eq).
      rewrite occ_app. unfold occ at 2 4. simpl. rewrite (edge_eqb_sym k x).
      destruct (edge_eqb x k) eqn:E.
      * apply edge_eqb_eq in E. subst x. simpl.
        replace (occ k l + 1)%nat with (S (occ k l)) by lia. simpl Nat.eqb. cbv iota.
        unfold dict_get_default. rewrite IHget.
        destruct (Nat.eqb (occ k l) 0) eqn:E0; f_equal.
        -- apply Nat.eqb_eq in E0. rewrite E0. reflexivity.
        -- lia.
      * simpl. rewrite Nat.add_0_r. apply IHget.
Qed.

Lemma boundary_edges_occ (cells : list Cell) (e : Edge) :
  In e (boundary_edges cells) <-> occ e (edge_keys cells) = 1%nat.
Proof.
  unfold boundary_edges. rewrite count_edges_fold.
  destruct (counts_spec (edge_keys cells)) as [Hnd Hget].
  set (d := fold_left _ (edge_keys cells) []) in *.
  rewrite in_map_iff. split.
  - intros [[e' c] [He Hf]]. simpl in He. subst e'.
    apply filter_In in Hf as [Hin Hc]. simpl in Hc. apply Z.eqb_eq in Hc. subst c.
    apply (dict_get_In edge_eqb edge_eqb_eq _ _ _ Hnd) in Hin.
    rewrite Hget in Hin. destruct (Nat.eqb (occ e (edge_keys cells)) 0); [discriminate|].
    injection Hin as Hin. lia.
  - intros Hocc. exists (e, 1). split; [reflexivity|].
    apply filter_In. split; [|reflexivity].
    apply (dict_get_In edge_eqb edge_eqb_eq _ _ _ Hnd).
    rewrite Hget, Hocc. reflexivity.
Qed.

Lemma boundary_edges_NoDup (cells : list Cell) : NoDup (boundary_edges cells).
Proof.
  unfold boundary_edges. rewrite count_edges_fold.
  apply filter_keys_NoDup. apply counts_spec.
Qed.

(** The four edges of a cell are written with their smaller end first. *)
Lemma cell_edges_sorted (c : Cell) : map sorted_key (cell_edges c) = cell_edges c.
Proof.
  destruct c as [cx cy]. unfold cell_edges, sorted_key, vertex_ltb. simpl.
  replace (cx + 1 <? cx) with false by (symmetry; apply Z.ltb_ge; lia).
  replace (cx + 1 =? cx) with false by (symmetry; apply Z.eqb_neq; lia).
  replace (cy + 1 <? cy) with false by (symmetry; apply Z.ltb_ge; lia).
  rewrite !Z.ltb_irrefl, !Z.eqb_refl. reflexivity.
Qed.

Lemma edge_keys_cons (c : Cell) (cells : list Cell) :
  edge_keys (c :: cells) = cell_edges c ++ edge_keys cells.
Proof. unfold edge_keys. simpl. now rewrite map_app, cell_edges_sorted. Qed.

(** A horizontal unit edge is the bottom of the cell above it and the top
    of the cell below it; a vertical one is the left of the cell to its
    right and the right of the cell to its left. *)
Lemma occ_horizontal (cells : list Cell) (x y : Z) :
  occ ((x, y), (x + 1, y)) (edge_keys cells)
  = Nat.add (cnt (x, y) cells) (cnt (x, y - 1) cells).
Proof.
  induction cells as [|[cx cy] cells IH]; [reflexivity|].
  rewrite edge_keys_cons, occ_app, IH. unfold cnt. simpl filter.
  unfold occ at 1, cell_edges, edge_eqb, vertex_eqb. simpl.
  destruct (Z.eqb_spec x cx), (Z.eqb_spec y cy), (Z.eqb_spec (x + 1) (cx + 1)),
           (Z.eqb_spec x (cx + 1)), (Z.eqb_spec y (cy + 1)), (Z.eqb_spec (x + 1) cx),
           (Z.eqb_spec (y - 1) cy);
    simpl; try lia.
Qed.

Lemma occ_vertical (cells : list Cell) (x y : Z) :
  occ ((x, y), (x, y + 1)) (edge_keys cells)
  = Nat.add (cnt (x, y) cells) (cnt (x - 1, y) cells).
Proof.
  induction cells as [|[cx cy] cells IH]; [reflexivity|].
  rewrite edge_keys_cons, occ_app, IH. unfold cnt. simpl filter.
  unfold occ at 1, cell_edges, edge_eqb, vertex_eqb. simpl.
  destruct (Z.eqb_spec x cx), (Z.eqb_spec y cy), (Z.eqb_spec (y + 1) (cy + 1)),
           (Z.eqb_spec x (cx + 1)), (Z.eqb_spec y (cy + 1)), (Z.eqb_spec (y + 1) cy),
           (Z.eqb_spec (x - 1) cx);
    simpl; try lia.
Qed.

Lemma cnt_In (c : Cell) (cells : list Cell) :
  NoDup cells ->
  (In c cells -> cnt c cells = 1%nat) /\ (~ In c cells -> cnt c cells = 0%nat).
Proof.
  unfold cnt. induction 1 as [|c0 cells Hnotin Hnd [IH1 IH0]]; simpl.
  - split; [intros [] | reflexivity].
  - destruct (vertex_eqb c c0) eqn:E.
    + apply vertex_eqb_eq in E. subst c0. split.
      * intros _. simpl. now rewrite IH0.
      * intros Hc. exfalso. apply Hc. now left.
    + split.
      * intros [->|Hin]; [|auto].
        rewrite (proj2 (vertex_eqb_eq c c) eq_refl) in E. discriminate.
      * intros Hc. apply IH0. intros Hin. apply Hc. now right.
Qed.

Lemma one_of_two (A B : Prop) (a b : nat) :
  (A -> a = 1%nat) -> (~ A -> a = 0%nat) -> (B -> b = 1%nat) -> (~ B -> b = 0%nat) ->
  (A \/ ~ A) -> (B \/ ~ B) ->
  ((a + b)%nat = 1%nat <-> (A /\ ~ B) \/ (~ A /\ B)).
Proof.
  intros A1 A0 B1 B0 [HA|HA] [HB|HB];
    try (specialize (A1 HA)); try (specialize (A0 HA));
    try (specialize (B1 HB)); try (specialize (B0 HB)); subst;
    split; try tauto; try lia; intros [[? ?]|[? ?]]; tauto.
Qed.

Lemma cell_In_dec (c : Cell) (cells : list Cell) : In c cells \/ ~ In c cells.
Proof.
  destruct (in_dec (fun a b : Cell =>
    ltac:(decide equality; apply Z.eq_dec) : {a = b} + {a <> b}) c cells); auto.
Qed.

(** X3: the outline is made of the sides that belong to one cell only.
    For a list of distinct cells, [boundary_edges] holds no edge twice,
    holds only unit edges written from their lower or left end, and holds
    the horizontal edge from [(x, y)] to [(x + 1, y)] exactly when one, not
    both, of the cells above and below it, [(x, y)] and [(x, y - 1)], is
    in the list; likewise a vertical edge and the cells right and left of
    it.  A side shared by two cells never reaches the walk. *)
Theorem boundary_edges_are_the_unshared_sides :
  forall cells : list Cell,
    NoDup cells ->
    NoDup (boundary_edges cells) /\
    (forall e, In e (boundary_edges cells) ->
       exists x y, e = ((x, y), (x + 1, y)) \/ e = ((x, y), (x, y + 1))) /\
    (forall x y,
       In ((x, y), (x + 1, y)) (boundary_edges cells) <->
       (In (x, y) cells /\ ~ In (x, y - 1) cells) \/
       (~ In (x, y) cells /\ In (x, y - 1) cells)) /\
    (forall x y,
       In ((x, y), (x, y + 1)) (boundary_edges cells) <->
       (In (x, y) cells /\ ~ In (x - 1, y) cells) \/
       (~ In (x, y) cells /\ In (x - 1, y) cells)).
Proof.
  intros cells Hnd. split; [apply boundary_edges_NoDup|]. split; [|split].
  - intros e He. apply boundary_edges_occ in He.
    assert (In e (edge_keys cells)) as Hin.
    { unfold occ in He. destruct (filter (edge_eqb e) (edge_keys cells)) as [|k ks] eqn:Ef;
        [discriminate|].
      assert (In k (filter (edge_eqb e) (edge_keys cells))) as Hk by (rewrite Ef; now left).
      apply filter_In in Hk as [Hk Heq]. apply edge_eqb_eq in Heq. now subst. }
    clear He Hnd. induction cells as [|[cx cy] cells IH]; [destruct Hin|].
    rewrite edge_keys_cons in Hin. apply in_app_or in Hin as [Hin|Hin]; [|auto].
    simpl in Hin. destruct Hin as [<-|[<-|[<-|[<-|[]]]]].
    + exists cx, cy. now left.
    + exists (cx + 1), cy. now right.
    + exists cx, (cy + 1). now left.
    + exists cx, cy. now right.
  - intros x y. rewrite boundary_edges_occ, occ_horizontal.
    apply one_of_two; try apply cnt_In; try apply cell_In_dec; assumption.
  - intros x y. rewrite boundary_edges_occ, occ_vertical.
    apply one_of_two; try apply cnt_In; try apply cell_In_dec; assumption.
Qed.

Lemma boundary_edges_witness :
  In ((0, 0), (1, 0)) (boundary_edges [(0, 0); (1, 0)]) /\
  ~ In ((1, 0), (1, 1)) (boundary_edges [(0, 0); (1, 0)]).
Proof.
  pose proof (@boundary_edges_are_the_unshared_sides [(0, 0); (1, 0)]) as H.
  destruct H as (_ & _ & Hh & Hv).
  - repeat constructor; simpl; intuition congruence.
  - split.
    + apply Hh. left. split; [simpl; auto|]. simpl. intuition congruence.
    + intros Hin. apply Hv in Hin. simpl in Hin. intuition congruence.
Defined.

(** ** The board operator as a whole *)

Lemma generated_tiles_length {R} (p : BLK_Properties R) :
  List.length (generated_tiles p) = (Z.to_nat (split_x p) * Z.to_nat (split_y p))%nat.
Proof.
  unfold generated_tiles.
  assert (forall l : list Z,
            List.length (flat_map (fun tx => map (fun ty => (tx, ty))
                                               (py_range 0 (split_y p))) l)
            = (List.length l * Z.to_nat (split_y p))%nat) as H.
  { induction l as [|a l IH]; simpl; [reflexivity|].
    rewrite length_app, length_map, py_range_length, IH. f_equal. f_equal. lia. }
  rewrite H, py_range_length. f_equal. f_equal. lia.
Qed.

(** X9: a split count of 0 makes [create_board_tile] raise
    [ZeroDivisionError], whatever the tile asked for, and it raises in no
    other case; [BLK_OT_GenerateBoard] never gets there.  For every
    parameter record and every arithmetic the operator returns: CANCELLED
    with the collection as it was when validation fails, otherwise
    FINISHED with [max(split_x, 0) * max(split_y, 0)] tiles, which is no
    tile at all when a split count is 0 or negative. *)
Theorem generate_board_never_raises :
  forall (R : Type) (N : PyNum R) (p : BLK_Properties R) (board : list (BoardTile R)),
    (forall tx ty,
       (exists e, create_board_tile tx ty p = Raise e) <->
       (split_x p = 0 \/ split_y p = 0)) /\
    (forall tx ty e,
       create_board_tile tx ty p = Raise e ->
       e = ZeroDivisionError "integer division or modulo by zero") /\
    exists run,
      BLK_OT_GenerateBoard_execute p board = Ok run /\
      (fst (validate_params p) = false ->
         run_status run = CANCELLED /\ run_board run = board) /\
      (fst (validate_params p) = true ->
         run_status run = FINISHED /\
         List.length (run_board run)
           = (Z.to_nat (split_x p) * Z.to_nat (split_y p))%nat).
Proof.
  intros R N p board. split; [|split].
  - intros tx ty. split.
    + intros [e He].
      destruct (Z.eq_dec (split_x p) 0) as [|Hx]; [now left|].
      destruct (Z.eq_dec (split_y p) 0) as [|Hy]; [now right|].
      destruct (create_board_tile_ok p tx ty Hx Hy) as [tile Ht]. congruence.
    + unfold create_board_tile, create_board_tile_objs, tile_cell_range, py_floordiv.
      intros [H0|H0]; rewrite H0; simpl.
      * eexists. reflexivity.
      * destruct (split_x p =? 0); eexists; reflexivity.
  - intros tx ty e.
    unfold create_board_tile, create_board_tile_objs, tile_cell_range, py_floordiv.
    destruct (split_x p =? 0); simpl; [congruence|].
    destruct (split_y p =? 0); simpl; congruence.
  - unfold BLK_OT_GenerateBoard_execute.
    destruct (validate_params p) as [ok msgs]. simpl fst. destruct ok; simpl negb; cbv iota.
    + destruct (result_map_ok (fun t : Z * Z => create_board_tile (fst t) (snd t) p)
                  (generated_tiles p)) as [tiles [Ht Hlen]].
      * intros [tx ty] Hin. apply generated_tiles_In in Hin.
        apply create_board_tile_ok; lia.
      * rewrite Ht. cbn [bind]. eexists. split; [reflexivity|]. split; [discriminate|].
        intros _. cbn [run_status run_board]. split; [reflexivity|].
        rewrite Hlen. apply generated_tiles_length.
    + eexists. split; [reflexivity|]. split; [|discriminate].
      intros _. split; reflexivity.
Qed.

(** ** The catalogue validator on any shape *)

Lemma cell_mem_In (c : Cell) (s : list Cell) : cell_mem c s = true <-> In c s.
Proof.
  unfold cell_mem. rewrite existsb_exists. split.
  - intros [x [Hin Heq]]. apply vertex_eqb_eq in Heq. now subst.
  - intros Hin. exists c. split; [exact Hin | now apply vertex_eqb_eq].
Qed.

Lemma cell_mem_false (c : Cell) (s : list Cell) : cell_mem c s = false <-> ~ In c s.
Proof.
  rewrite <- cell_mem_In. destruct (cell_mem c s); intuition congruence.
Qed.

(** [set(cells)]: the same cells, each once. *)
Lemma cell_set_of_spec (cells : list Cell) :
  NoDup (cell_set_of cells) /\ forall c, In c (cell_set_of cells) <-> In c cells.
Proof.
  unfold cell_set_of.
  assert (forall s, NoDup s ->
            NoDup (fold_left (fun s c => if cell_mem c s then s else s ++ [c]) cells s) /\
            forall c, In c (fold_left (fun s c => if cell_mem c s then s else s ++ [c])
                                      cells s) <-> In c s \/ In c cells) as H.
  { induction cells as [|x cells IH]; intros s Hnd; simpl.
    - split; [exact Hnd | intuition].
    - destruct (cell_mem x s) eqn:E.
      + destruct (IH s Hnd) as [H1 H2]. split; [exact H1|].
        intros c. rewrite H2. apply cell_mem_In in E.
        split; [intuition | intros [?|[<-|?]]; auto].
      + apply cell_mem_false in E.
        assert (NoDup (s ++ [x])) as Hnd'.
        { apply NoDup_app; [exact Hnd | repeat constructor; intros [] |].
          intros a Ha [<-|[]]. contradiction. }
        destruct (IH (s ++ [x]) Hnd') as [H1 H2]. split; [exact H1|].
        intros c. rewrite H2, in_app_iff. simpl. intuition. }
  destruct (H [] (NoDup_nil _)) as [H1 H2]. split; [exact H1|].
  intros c. rewrite H2. simpl. intuition.
Qed.

Lemma cell_set_of_length (cells : list Cell) :
  List.length (cell_set_of cells) = List.length cells <-> NoDup cells.
Proof.
  destruct (cell_set_of_spec cells) as [Hnd Hin]. split.
  - intros Hlen. apply (NoDup_incl_NoDup Hnd); [lia|].
    intros c Hc. now apply Hin.
  - intros Hnd'. apply Permutation_length. apply NoDup_Permutation; assumption.
Qed.

Lemma bfs_loop_step (fuel : nat) (cs visited queue : list Cell) (c : Cell) :
  bfs_loop (S fuel) cs visited (c :: queue) =
  bfs_loop fuel cs
    (fst (bfs_expand cs c [(1, 0); (-1, 0); (0, 1); (0, -1)] (visited, queue)))
    (snd (bfs_expand cs c [(1, 0); (-1, 0); (0, 1); (0, -1)] (visited, queue))).
Proof.
  destruct c as [cx cy]. cbn [bfs_loop]. unfold bfs_expand. cbn [fst snd].
  destruct (fold_left _ _ _) as [v q]. reflexivity.
Qed.

Lemma neighbours_dirs (c nb : Cell) :
  neighbours c nb <->
  exists d, In d [(1, 0); (-1, 0); (0, 1); (0, -1)] /\
            nb = (fst c + fst d, snd c + snd d).
Proof.
  unfold neighbours. split.
  - intros [-> | [-> | [-> | ->]]];
      [exists (1, 0) | exists (-1, 0) | exists (0, 1) | exists (0, -1)];
      simpl; rewrite ?Z.add_0_r; auto 6.
  - intros [d [Hd ->]]. simpl in Hd.
    destruct Hd as [<-|[<-|[<-|[<-|[]]]]]; simpl; rewrite ?Z.add_0_r; auto.
Qed.

(** What the inner loop adds: the neighbours of [c] in the shape that
    were not seen before, once each, to both lists. *)
Lemma bfs_expand_spec (cs : list Cell) (c : Cell) (ds : list (Z * Z)) :
  forall visited queue,
  exists new,
    bfs_expand cs c ds (visited, queue) = (visited ++ new, queue ++ new) /\
    (NoDup visited -> NoDup (visited ++ new)) /\
    (forall n, In n new ->
       In n cs /\ exists d, In d ds /\ n = (fst c + fst d, snd c + snd d)) /\
    (forall d, In d ds -> In (fst c + fst d, snd c + snd d) cs ->
       In (fst c + fst d, snd c + snd d) (visited ++ new)).
Proof.
  induction ds as [|d ds IH]; intros visited queue.
  - exists []. rewrite !app_nil_r. split; [reflexivity|]. split; [auto|].
    split; [intros n [] | intros d []].
  - unfold bfs_expand. cbn [fold_left].
    set (nb := (fst c + fst d, snd c + snd d)).
    destruct (cell_mem nb cs) eqn:Ecs; cbn [andb];
      [destruct (cell_mem nb visited) eqn:Ev; cbn [negb]|].
    + destruct (IH visited queue) as (new & E & Hnd & Hnew & Hall).
      exists new. split; [exact E|]. split; [exact Hnd|]. split.
      * intros n Hn. destruct (Hnew n Hn) as [H1 [d' [Hd' H2]]].
        split; [exact H1|]. exists d'. split; [now right | exact H2].
      * intros d' [<-|Hd'] Hin; [|now apply Hall].
        apply in_or_app. left. now apply cell_mem_In.
    + destruct (IH (visited ++ [nb]) (queue ++ [nb])) as (new & E & Hnd & Hnew & Hall).
      exists (nb :: new). fold (bfs_expand cs c ds (visited ++ [nb], queue ++ [nb])).
      rewrite E, <- !app_assoc. split; [reflexivity|]. split; [|split].
      * intros Hv. change (visited ++ nb :: new) with (visited ++ [nb] ++ new).
        rewrite app_assoc. apply Hnd.
        apply NoDup_app; [exact Hv | repeat constructor; intros [] |].
        intros a Ha [<-|[]]. apply cell_mem_false in Ev. contradiction.
      * intros n [<-|Hn].
        -- split; [now apply cell_mem_In|]. exists d. split; [now left | reflexivity].
        -- destruct (Hnew n Hn) as [H1 [d' [Hd' H2]]].
           split; [exact H1|]. exists d'. split; [now right | exact H2].
      * intros d' [<-|Hd'] Hin.
        -- apply in_or_app. right. now left.
        -- change (visited ++ nb :: new) with (visited ++ [nb] ++ new).
           rewrite app_assoc. now apply Hall.
    + destruct (IH visited queue) as (new & E & Hnd & Hnew & Hall).
      exists new. split; [exact E|]. split; [exact Hnd|]. split.
      * intros n Hn. destruct (Hnew n Hn) as [H1 [d' [Hd' H2]]].
        split; [exact H1|]. exists d'. split; [now right | exact H2].
      * intros d' [<-|Hd'] Hin; [|now apply Hall].
        apply cell_mem_false in Ecs. contradiction.
Qed.

Section SearchFacts.
Variables (cells cs : list Cell) (c0 : Cell).
Hypothesis cs_cells : forall c, In c cs <-> In c cells.

(** The search: with fuel beyond the number of cells not yet seen plus
    the length of the queue it returns, and what it returns is closed
    under neighbours and made of cells reachable from the start. *)
Lemma bfs_loop_spec (fuel : nat) :
  forall visited queue,
    NoDup visited -> incl queue visited ->
    (forall v, In v visited -> In v cs /\ reachable cells c0 v) ->
    (forall v, In v visited ->
       In v queue \/ forall nb, neighbours v nb -> In nb cs -> In nb visited) ->
    (List.length cs - List.length visited + List.length queue < fuel)%nat ->
    exists res,
      bfs_loop fuel cs visited queue = Some res /\
      incl visited res /\
      (forall v, In v res -> In v cs /\ reachable cells c0 v) /\
      (forall v, In v res -> forall nb, neighbours v nb -> In nb cs -> In nb res).
Proof.
  induction fuel as [|fuel IH]; intros visited queue Hnd Hq Hreach Hclosed Hfuel; [lia|].
  destruct queue as [|c queue].
  - exists visited. split; [reflexivity|]. split; [apply incl_refl|].
    split; [exact Hreach|].
    intros v Hv. destruct (Hclosed v Hv) as [[]|H]. exact H.
  - rewrite bfs_loop_step.
    destruct (bfs_expand_spec cs c [(1, 0); (-1, 0); (0, 1); (0, -1)] visited queue)
      as (new & E & Hnd' & Hnew & Hall).
    rewrite E. cbn [fst snd]. specialize (Hnd' Hnd).
    assert (In c visited) as Hc by (apply Hq; now left).
    assert (forall v, In v (visited ++ new) -> In v cs /\ reachable cells c0 v) as Hreach'.
    { intros v Hv. apply in_app_or in Hv as [Hv|Hv]; [auto|].
      destruct (Hnew v Hv) as [H1 [d [Hd ->]]]. split; [exact H1|].
      apply reach_step with c; [apply Hreach, Hc | | now apply cs_cells].
      apply neighbours_dirs. now exists d. }
    assert (List.length (visited ++ new) <= List.length cs)%nat as Hlen.
    { apply NoDup_incl_length; [exact Hnd'|]. intros v Hv. now apply Hreach'. }
    destruct (IH (visited ++ new) (queue ++ new)) as (res & Eres & Hincl & Hres & Hcl).
    + exact Hnd'.
    + intros v Hv. apply in_app_or in Hv as [Hv|Hv]; apply in_or_app;
        [left; apply Hq; now right | now right].
    + exact Hreach'.
    + intros v Hv. apply in_app_or in Hv as [Hv|Hv].
      * destruct (Hclosed v Hv) as [[<-|Hin]|Hdone].
        -- right. intros nb Hnb Hcs. apply neighbours_dirs in Hnb as [d [Hd ->]].
           now apply Hall.
        -- left. apply in_or_app. now left.
        -- right. intros nb Hnb Hcs. apply in_or_app. left. now apply Hdone.
      * left. apply in_or_app. now right.
    + rewrite length_app in Hlen. rewrite !length_app. simpl in Hfuel. lia.
    + exists res. split; [exact Eres|]. split; [|split; assumption].
      intros v Hv. apply Hincl. apply in_or_app. now left.
Qed.

End SearchFacts.

Lemma reachable_closed (cells : list Cell) (c0 : Cell) (res : list Cell) :
  In c0 res ->
  (forall v, In v res -> forall nb, neighbours v nb -> In nb cells -> In nb res) ->
  forall c, reachable cells c0 c -> In c res.
Proof.
  intros H0 Hcl c Hr. induction Hr as [|a b _ IH Hn Hb]; [assumption|].
  now apply (Hcl a IH b).
Qed.

Lemma set_eqb_spec (a b : list Cell) :
  set_eqb a b = true <-> forall c, In c a <-> In c b.
Proof.
  unfold set_eqb. rewrite andb_true_iff, !forallb_forall. split.
  - intros [H1 H2] c. split; intros Hc; apply cell_mem_In; auto.
  - intros H. split; intros c Hc; apply cell_mem_In; now apply H.
Qed.

Lemma two_messages {A} (b1 b2 : bool) (m1 m2 : A) :
  m1 <> m2 ->
  (In m1 (append_if b2 m2 (append_if b1 m1 [])) <-> b1 = true) /\
  (In m2 (append_if b2 m2 (append_if b1 m1 [])) <-> b2 = true) /\
  (forall m, In m (append_if b2 m2 (append_if b1 m1 [])) -> m = m1 \/ m = m2).
Proof.
  intros Hne. destruct b1, b2; simpl; intuition congruence.
Qed.

(** X2: what the per-shape check of [validate_pieces] finds.  On a shape
    with at least one cell the search always runs to its end within the
    fuel given, and the check appends the duplicate-cells message exactly
    when some cell is listed twice, the not-connected message exactly
    when some cell cannot be reached from the first one through cells of
    the shape that share a side, and nothing else.  On a shape without
    cells [cells[0]] raises IndexError. *)
Theorem check_piece_detects_duplicates_and_disconnection :
  forall (name : string) (c0 : Cell) (rest : list Cell),
    check_piece name [] = Some (Raise (IndexError "list index out of range")) /\
    exists msgs,
      check_piece name (c0 :: rest) = Some (Ok msgs) /\
      (In (Msg_duplicate_cells name) msgs <-> ~ NoDup (c0 :: rest)) /\
      (In (Msg_not_connected name) msgs <-> ~ connected (c0 :: rest)) /\
      (forall m, In m msgs ->
         m = Msg_duplicate_cells name \/ m = Msg_not_connected name).
Proof.
  intros name c0 rest. split; [reflexivity|].
  set (cells := c0 :: rest).
  destruct (cell_set_of_spec cells) as [Hnd Hin].
  assert (In c0 (cell_set_of cells)) as Hc0 by (apply Hin; now left).
  assert (List.length (cell_set_of cells) <= List.length cells)%nat as Hle.
  { apply NoDup_incl_length; [exact Hnd|]. intros c Hc. now apply Hin. }
  destruct (@bfs_loop_spec cells (cell_set_of cells) c0 Hin
              (S (S (List.length cells))) [c0] [c0])
    as (res & Eres & Hincl & Hres & Hcl).
  { repeat constructor. intros []. }
  { apply incl_refl. }
  { intros v [<-|[]]. split; [exact Hc0 | constructor]. }
  { intros v Hv. now left. }
  { change (List.length [c0]) with 1%nat. lia. }
  assert (set_eqb res (cell_set_of cells) = true <-> connected cells) as Hconn.
  { rewrite set_eqb_spec. unfold connected, cells. fold cells. split.
    - intros Heq c Hc. apply Hres. apply Heq. now apply Hin.
    - intros Hall c. split; [intros Hc; now apply Hres|].
      intros Hc. apply (reachable_closed (cells := cells) (c0 := c0)).
      + apply Hincl. now left.
      + intros v Hv nb Hnb Hnbc. apply (Hcl v Hv nb Hnb). now apply Hin.
      + apply Hall. now apply Hin. }
  pose proof (cell_set_of_length cells) as Hdup.
  subst cells. unfold check_piece. cbv iota. rewrite Eres.
  eexists. split; [reflexivity|].
  destruct (@two_messages PieceMsg
              (negb (Nat.eqb (List.length (cell_set_of (c0 :: rest)))
                             (List.length (c0 :: rest))))
              (negb (set_eqb res (cell_set_of (c0 :: rest))))
              (Msg_duplicate_cells name) (Msg_not_connected name))
    as (A & B & C); [discriminate|].
  split; [|split; [|exact C]].
  - rewrite A, negb_true_iff, Nat.eqb_neq. now rewrite Hdup.
  - rewrite B, negb_true_iff, <- Hconn, not_true_iff_false. reflexivity.
Qed.

(** ** The extruded mesh is closed *)

Lemma succ_mod (n i : nat) :
  (i < n)%nat -> ((i + 1) mod n)%nat = if Nat.eqb (i + 1) n then 0%nat else (i + 1)%nat.
Proof.
  intros Hi. destruct (Nat.eqb_spec (i + 1) n) as [E|E].
  - rewrite E. apply Nat.Div0.mod_same.
  - apply Nat.mod_small. lia.
Qed.

Lemma seq_rotated (m : nat) :
  seq 1 m ++ [0%nat] = map (fun i => ((i + 1) mod (S m))%nat) (seq 0 (S m)).
Proof.
  rewrite seq_S, map_app. cbn [map]. change (0 + m)%nat with m. f_equal.
  - rewrite <- seq_shift. apply map_ext_in. intros i Hi. apply in_seq in Hi.
    rewrite Nat.mod_small; lia.
  - replace (m + 1)%nat with (S m) by lia. now rewrite Nat.Div0.mod_same.
Qed.

Lemma combine_map_same {A B C} (f : A -> B) (g : A -> C) (l : list A) :
  combine (map f l) (map g l) = map (fun x => (f x, g x)) l.
Proof. induction l as [|x l IH]; simpl; [reflexivity | now rewrite IH]. Qed.

(** The directed edges of a face given by its vertices [f 0 .. f (n-1)]. *)
Lemma face_edges_map (f : nat -> VertId) (n : nat) :
  face_edges (map f (seq 0 n)) = map (fun i => (f i, f ((i + 1) mod n)%nat)) (seq 0 n).
Proof.
  destruct n as [|m]; [reflexivity|].
  assert (face_edges (map f (seq 0 (S m)))
          = combine (map f (seq 0 (S m))) (map f (seq 1 m ++ [0%nat]))) as E
    by (rewrite map_app; reflexivity).
  rewrite E, seq_rotated, map_map. apply combine_map_same.
Qed.

Lemma rev_seq (n : nat) : rev (seq 0 n) = map (fun i => (n - 1 - i)%nat) (seq 0 n).
Proof.
  induction n as [|n IH]; [reflexivity|].
  rewrite seq_S at 1. rewrite rev_app_distr. simpl rev. simpl app.
  change (seq 0 (S n)) with (0%nat :: seq 1 n). simpl map.
  f_equal; [lia|]. rewrite IH, <- seq_shift, map_map.
  apply map_ext. intros i. lia.
Qed.

Lemma Bot_inj_NoDup (l : list nat) : NoDup l -> NoDup (map Bot l).
Proof.
  intros Hl. apply NoDup_map_NoDup_ForallPairs; [|exact Hl].
  intros x y _ _ E. now injection E.
Qed.

Lemma Top_inj_NoDup (l : list nat) : NoDup l -> NoDup (map Top l).
Proof.
  intros Hl. apply NoDup_map_NoDup_ForallPairs; [|exact Hl].
  intros x y _ _ E. now injection E.
Qed.

Lemma side_face_In (n i : nat) (v : VertId) :
  In v (side_face n i) <->
  v = Bot i \/ v = Bot ((i + 1) mod n)%nat \/ v = Top ((i + 1) mod n)%nat \/ v = Top i.
Proof. unfold side_face. simpl. intuition congruence. Qed.

Section MeshFacts.
Variable faces_new_ok : list Face -> Face -> bool.
Hypothesis faces_new_ok_spec :
  forall faces f,
    (3 <= List.length f)%nat -> NoDup f ->
    (forall g, In g faces -> ~ same_vertices f g) ->
    faces_new_ok faces f = true.

Variable n : nat.
Hypothesis n_ge_3 : (3 <= n)%nat.

(** No side face has the vertices of an earlier face. *)
Lemma side_face_fresh (k : nat) :
  (k < n)%nat ->
  forall g,
    In g ([rev (map Bot (seq 0 n)); map Top (seq 0 n)] ++ map (side_face n) (seq 0 k)) ->
    ~ same_vertices (side_face n k) g.
Proof.
  intros Hk g Hg Hsame. apply in_app_or in Hg as [[<-|[<-|[]]]|Hg].
  - assert (In (Top k) (side_face n k)) as Ht by (apply side_face_In; auto).
    apply Hsame in Ht. apply in_rev, in_map_iff in Ht as [x [Hx _]]. discriminate.
  - assert (In (Bot k) (side_face n k)) as Hb by (apply side_face_In; auto).
    apply Hsame in Hb. apply in_map_iff in Hb as [x [Hx _]]. discriminate.
  - apply in_map_iff in Hg as [i [<- Hi]]. apply in_seq in Hi.
    assert (In (Bot i) (side_face n k)) as H1
      by (apply Hsame, side_face_In; auto).
    assert (In (Bot k) (side_face n i)) as H2
      by (apply Hsame, side_face_In; auto).
    apply side_face_In in H1, H2.
    rewrite (succ_mod (n:=n) (i:=k)) in H1 by lia.
    rewrite (succ_mod (n:=n) (i:=i)) in H2 by lia.
    destruct (Nat.eqb_spec (k + 1) n), (Nat.eqb_spec (i + 1) n);
      destruct H1 as [H1|[H1|[H1|H1]]]; try discriminate H1;
      destruct H2 as [H2|[H2|[H2|H2]]]; try discriminate H2;
      injection H1 as H1; injection H2 as H2; lia.
Qed.

Lemma side_face_NoDup (k : nat) : (k < n)%nat -> NoDup (side_face n k).
Proof.
  intros Hk. unfold side_face. rewrite (succ_mod (n:=n) (i:=k)) by lia.
  destruct (Nat.eqb_spec (k + 1) n);
    repeat constructor; simpl; intuition (try discriminate);
    match goal with H : _ = _ |- _ => injection H as H; lia end.
Qed.

(** bmesh takes every face of the extrusion. *)
Lemma extrude_outline_faces {R} {N : PyNum R} (outline : list Vertex)
  (cell_size piece_t : R) :
  List.length outline = n ->
  bm_faces (extrude_outline faces_new_ok outline cell_size piece_t) = extrusion_faces n.
Proof.
  intros Hn. unfold extrude_outline. cbn [bm_faces]. rewrite Hn.
  assert (try_faces_new faces_new_ok [] (rev (map Bot (seq 0 n)))
          = [rev (map Bot (seq 0 n))]) as E1.
  { unfold try_faces_new. rewrite faces_new_ok_spec; [reflexivity | | |].
    - rewrite length_rev, length_map, length_seq. exact n_ge_3.
    - apply NoDup_rev, Bot_inj_NoDup, seq_NoDup.
    - intros g []. }
  rewrite E1.
  assert (try_faces_new faces_new_ok [rev (map Bot (seq 0 n))] (map Top (seq 0 n))
          = [rev (map Bot (seq 0 n)); map Top (seq 0 n)]) as E2.
  { unfold try_faces_new. rewrite faces_new_ok_spec; [reflexivity | | |].
    - rewrite length_map, length_seq. exact n_ge_3.
    - apply Top_inj_NoDup, seq_NoDup.
    - intros g [<-|[]] Hsame.
      assert (In (Top 0%nat) (map Top (seq 0 n))) as Ht.
      { apply in_map. apply in_seq. lia. }
      apply Hsame in Ht. apply in_rev, in_map_iff in Ht as [x [Hx _]]. discriminate. }
  rewrite E2. unfold extrusion_faces.
  assert (forall k, (k <= n)%nat ->
            fold_left (fun faces i =>
                         try_faces_new faces_new_ok faces
                           [Bot i; Bot ((i + 1) mod n)%nat; Top ((i + 1) mod n)%nat; Top i])
                      (seq 0 k) [rev (map Bot (seq 0 n)); map Top (seq 0 n)]
            = [rev (map Bot (seq 0 n)); map Top (seq 0 n)] ++ map (side_face n) (seq 0 k))
    as Hfold.
  { induction k as [|k IH]; intros Hk; [reflexivity|].
    rewrite seq_S, fold_left_app, IH by lia. cbn [fold_left]. change (0 + k)%nat with k.
    unfold try_faces_new. fold (side_face n k).
    rewrite faces_new_ok_spec.
    - rewrite map_app, app_assoc. reflexivity.
    - simpl. lia.
    - apply side_face_NoDup. lia.
    - apply side_face_fresh. lia. }
  apply Hfold. lia.
Qed.

(** The directed edges of the extrusion, slot by slot. *)
Lemma extrusion_edges :
  mesh_edges (extrusion_faces n) = map (slot_edge n) (extrusion_slots n).
Proof.
  unfold mesh_edges, extrusion_faces, extrusion_slots.
  rewrite flat_map_app, !map_app. cbn [flat_map]. rewrite app_nil_r, <- app_assoc.
  f_equal; [|f_equal].
  - rewrite <- map_rev, rev_seq, !map_map, face_edges_map. reflexivity.
  - rewrite map_map, face_edges_map. reflexivity.
  - induction (seq 0 n) as [|i l IH]; [reflexivity|].
    cbn [map flat_map]. rewrite map_app, IH. reflexivity.
Qed.

Lemma extrusion_slots_In (s : EdgeSlot) : In s (extrusion_slots n) <-> slot_valid n s.
Proof.
  unfold extrusion_slots. rewrite !in_app_iff, !in_map_iff, in_flat_map. split.
  - intros [[i [<- Hi]]|[[i [<- Hi]]|[i [Hi Hs]]]]; simpl.
    + apply in_seq in Hi. lia.
    + apply in_seq in Hi. lia.
    + apply in_seq in Hi. simpl in Hs.
      destruct Hs as [<-|[<-|[<-|[<-|[]]]]]; simpl; lia.
  - destruct s as [i|i|k i]; simpl.
    + intros Hi. left. exists i. split; [reflexivity | apply in_seq; lia].
    + intros Hi. right. left. exists i. split; [reflexivity | apply in_seq; lia].
    + intros [Hk Hi]. right. right. exists i. split; [apply in_seq; lia|].
      destruct k as [|[|[|[|k]]]]; simpl; auto; lia.
Qed.

Lemma extrusion_slots_NoDup : NoDup (extrusion_slots n).
Proof.
  unfold extrusion_slots. apply NoDup_app; [| apply NoDup_app |].
  - apply NoDup_map_NoDup_ForallPairs; [|apply seq_NoDup].
    intros x y _ _ E. now injection E.
  - apply NoDup_map_NoDup_ForallPairs; [|apply seq_NoDup].
    intros x y _ _ E. now injection E.
  - pose proof (seq_NoDup n 0) as Hs.
    induction Hs as [|i l Hnotin Hl IH]; [constructor|].
    cbn [flat_map]. apply NoDup_app; [| exact IH |].
    + repeat constructor; simpl; intuition discriminate.
    + intros s Hs Hin. apply in_flat_map in Hin as [x [Hx Hsx]]. simpl in Hs, Hsx.
      destruct Hs as [<-|[<-|[<-|[<-|[]]]]];
        destruct Hsx as [E|[E|[E|[E|[]]]]]; injection E as E; try discriminate;
        subst; contradiction.
  - intros s Hs Hin. apply in_map_iff in Hs as [i [<- _]].
    apply in_flat_map in Hin as [x [_ Hx]]. simpl in Hx.
    destruct Hx as [E|[E|[E|[E|[]]]]]; discriminate.
  - intros s Hs Hin. apply in_map_iff in Hs as [i [<- _]].
    apply in_app_or in Hin as [Hin|Hin].
    + apply in_map_iff in Hin as [x [E _]]. discriminate.
    + apply in_flat_map in Hin as [x [_ Hx]]. simpl in Hx.
      destruct Hx as [E|[E|[E|[E|[]]]]]; discriminate.
Qed.

End MeshFacts.

Ltac succ_cases n :=
  repeat match goal with
         | |- context [((?i + 1) mod n)%nat] =>
             rewrite (succ_mod (n:=n) (i:=i)) by lia;
             destruct (Nat.eqb_spec (i + 1) n)
         end.

Section MeshEdges.
Variable n : nat.
Hypothesis n_ge_3 : (3 <= n)%nat.

(** Two slots never carry the same directed edge. *)
Lemma slot_edge_inj (s1 s2 : EdgeSlot) :
  slot_valid n s1 -> slot_valid n s2 -> slot_edge n s1 = slot_edge n s2 -> s1 = s2.
Proof.
  destruct s1 as [i|i|k i], s2 as [j|j|l j]; simpl;
    try (destruct k as [|[|[|[|k]]]]); try (destruct l as [|[|[|[|l]]]]);
    intros H1 H2; try lia; succ_cases n; intros E;
    try discriminate E; try (injection E; intros); try (f_equal; lia); try lia.
Qed.

(** Every directed edge comes with its reverse. *)
Lemma slot_edge_reverse (s : EdgeSlot) :
  slot_valid n s ->
  exists s', slot_valid n s' /\ slot_edge n s' = swap_edge (slot_edge n s).
Proof.
  destruct s as [i|i|k i]; simpl.
  - intros Hi. exists (SlotSide 0 (n - 1 - ((i + 1) mod n))%nat).
    unfold swap_edge. simpl. succ_cases n; (split; [lia|]); f_equal; f_equal; lia.
  - intros Hi. exists (SlotSide 2 i). unfold swap_edge. simpl.
    split; [lia | reflexivity].
  - intros [Hk Hi]. destruct k as [|[|[|[|k]]]]; try lia; unfold swap_edge; simpl.
    + exists (SlotBottom (n - 1 - ((i + 1) mod n))%nat). simpl.
      succ_cases n; (split; [lia|]); f_equal; f_equal; lia.
    + exists (SlotSide 3 ((i + 1) mod n)%nat). simpl.
      succ_cases n; (split; [lia | reflexivity]).
    + exists (SlotTop i). simpl. split; [lia | reflexivity].
    + exists (SlotSide 1 (if Nat.eqb i 0 then n - 1 else i - 1)%nat). simpl.
      destruct (Nat.eqb_spec i 0); succ_cases n; (split; [lia|]);
        f_equal; f_equal; lia.
Qed.

Lemma extrusion_closed_oriented : closed_oriented (extrusion_faces n).
Proof.
  unfold closed_oriented. rewrite (extrusion_edges n). split.
  - apply NoDup_map_NoDup_ForallPairs; [|apply extrusion_slots_NoDup].
    intros s1 s2 H1 H2. apply slot_edge_inj; now apply extrusion_slots_In.
  - intros a b Hin. apply in_map_iff in Hin as [s [E Hs]].
    apply extrusion_slots_In in Hs; [|exact n_ge_3].
    destruct (slot_edge_reverse s Hs) as [s' [Hs' E']].
    apply in_map_iff. exists s'. split; [|now apply extrusion_slots_In].
    rewrite E', E. reflexivity.
Qed.

End MeshEdges.

Lemma extrude_outline_verts_length {R} {N : PyNum R} ok (outline : list Vertex)
  (cell_size piece_t : R) :
  List.length (bm_verts (extrude_outline ok outline cell_size piece_t))
  = (2 * List.length outline)%nat.
Proof.
  unfold extrude_outline. cbn [bm_verts].
  assert (forall l : list (nat * Vertex),
            List.length
              (flat_map (fun iv : nat * Vertex =>
                           let '(i, (gx, gy)) := iv in
                           [(Bot i, (nmul (of_int gx) cell_size,
                                     nmul (of_int gy) cell_size, lit 0.0%Q));
                            (Top i, (nmul (of_int gx) cell_size,
                                     nmul (of_int gy) cell_size, piece_t))]) l)
            = (2 * List.length l)%nat) as H.
  { induction l as [|[i [gx gy]] l IH]; [reflexivity|].
    cbn [flat_map]. rewrite length_app, IH. simpl. lia. }
  rewrite H, length_combine, length_seq. lia.
Qed.

(** X10: the extrusion is a closed, consistently oriented mesh.  For an
    outline of [n >= 3] vertices, and provided bmesh takes every face of
    three or more distinct vertices that has not the vertices of a face
    it holds already, [create_piece_mesh] builds [2 * n] vertices and
    [n + 2] faces (bottom, top, [n] sides); no directed edge occurs twice
    in the faces and every directed edge occurs reversed as well, so
    every edge is shared by exactly two faces that run along it in
    opposite directions. *)
Theorem extruded_mesh_is_closed :
  forall (R : Type) (N : PyNum R) (faces_new_ok : list Face -> Face -> bool)
         (outline : list Vertex) (cell_size piece_t : R),
    (forall faces f,
       (3 <= List.length f)%nat -> NoDup f ->
       (forall g, In g faces -> ~ same_vertices f g) ->
       faces_new_ok faces f = true) ->
    (3 <= List.length outline)%nat ->
    let m := extrude_outline faces_new_ok outline cell_size piece_t in
    List.length (bm_verts m) = (2 * List.length outline)%nat /\
    List.length (bm_faces m) = (List.length outline + 2)%nat /\
    closed_oriented (bm_faces m).
Proof.
  intros R N ok outline cs pt Hok Hn m. subst m.
  split; [apply extrude_outline_verts_length|].
  rewrite (@extrude_outline_faces ok Hok (List.length outline) Hn R N outline cs pt eq_refl).
  split.
  - unfold extrusion_faces. rewrite length_app, length_map, length_seq. simpl. lia.
  - apply extrusion_closed_oriented. exact Hn.
Qed.

Lemma extruded_mesh_is_closed_witness :
  closed_oriented
    (bm_faces (extrude_outline (fun _ _ => true)
                 [(0, 0); (1, 0); (1, 1); (0, 1)] (20 # 1)%Q (32 # 10)%Q)).
Proof.
  apply (@extruded_mesh_is_closed Q _ (fun _ _ => true)
           [(0, 0); (1, 0); (1, 1); (0, 1)] (20 # 1)%Q (32 # 10)%Q).
  - reflexivity.
  - simpl. lia.
Defined.

(** ** Where the vertices of a piece are *)

Lemma boundary_edges_in_keys (cells : list Cell) (e : Edge) :
  In e (boundary_edges cells) -> In e (edge_keys cells).
Proof.
  intros He. apply boundary_edges_occ in He. unfold occ in He.
  destruct (filter (edge_eqb e) (edge_keys cells)) as [|k ks] eqn:Ef; [discriminate|].
  assert (In k (filter (edge_eqb e) (edge_keys cells))) as Hk by (rewrite Ef; now left).
  apply filter_In in Hk as [Hk Heq]. apply edge_eqb_eq in Heq. now subst.
Qed.

Lemma edge_keys_In (cells : list Cell) (e : Edge) :
  In e (edge_keys cells) <-> exists c, In c cells /\ In e (cell_edges c).
Proof.
  induction cells as [|c cells IH].
  - split; [intros [] | intros [c [[] _]]].
  - rewrite edge_keys_cons, in_app_iff, IH. split.
    + intros [H|[c' [H1 H2]]]; [exists c | exists c']; simpl; auto.
    + intros [c' [[<-|H1] H2]]; [now left | right; now exists c'].
Qed.

Lemma boundary_endpoints (cells : list Cell) (e : Edge) :
  In e (boundary_edges cells) ->
  cell_corner cells (fst e) /\ cell_corner cells (snd e).
Proof.
  intros He. apply boundary_edges_in_keys, edge_keys_In in He as [[cx cy] [Hc He]].
  simpl in He.
  destruct He as [<-|[<-|[<-|[<-|[]]]]]; simpl; split;
    [ exists cx, cy, 0, 0 | exists cx, cy, 1, 0 | exists cx, cy, 1, 0 | exists cx, cy, 1, 1
    | exists cx, cy, 0, 1 | exists cx, cy, 1, 1 | exists cx, cy, 0, 0 | exists cx, cy, 0, 1 ];
    rewrite ?Z.add_0_r; auto.
Qed.

Section WalkVertices.
Variable boundary : list Edge.
Hypothesis boundary_sorted : forall e, In e boundary -> sorted_key e = e.
Variable P : Vertex -> Prop.
Hypothesis endpoints : forall e, In e boundary -> P (fst e) /\ P (snd e).

(** The walk only adds ends of boundary edges, after what it was given. *)
Lemma walk_loop_vertices (fuel : nat) :
  forall visited cur loop L,
    walk_loop fuel (build_adj boundary) visited cur loop = Some L ->
    Forall P loop ->
    Forall P L /\ exists rest, L = loop ++ rest.
Proof.
  induction fuel as [|fuel IH]; intros visited cur loop L Hw Hl; [discriminate|].
  simpl in Hw.
  destruct (next_vertex (build_adj boundary) visited cur) as [nb|] eqn:En.
  - apply (next_vertex_edge boundary boundary_sorted) in En as [Hb _].
    assert (P nb) as Hnb.
    { apply endpoints in Hb. unfold sorted_key in Hb.
      destruct (vertex_ltb nb cur); simpl in Hb; tauto. }
    destruct (IH _ _ _ _ Hw) as [HL [rest ->]].
    + apply Forall_app. split; [exact Hl | now constructor].
    + split; [exact HL | exists (nb :: rest); now rewrite <- app_assoc].
  - injection Hw as <-. split; [exact Hl | exists []; now rewrite app_nil_r].
Qed.

End WalkVertices.

Lemma drop_closing_vertex_incl (loop : list Vertex) :
  incl (drop_closing_vertex loop) loop /\
  (loop <> [] -> drop_closing_vertex loop <> []).
Proof.
  unfold drop_closing_vertex. destruct loop as [|first rest]; [split; [apply incl_refl | auto]|].
  destruct ((1 <? Z.of_nat (List.length (first :: rest)))
            && vertex_eqb (last (first :: rest) first) first) eqn:E.
  - split.
    + intros v Hv. destruct rest as [|r rest]; [destruct Hv|].
      change (removelast (first :: r :: rest)) with (first :: removelast (r :: rest)) in Hv.
      destruct Hv as [<-|Hv]; [now left|]. right.
      clear E. revert r Hv. induction rest as [|a rest IH]; intros r Hv; [destruct Hv|].
      change (removelast (r :: a :: rest)) with (r :: removelast (a :: rest)) in Hv.
      destruct Hv as [<-|Hv]; [now left | right; now apply IH].
    + intros _. destruct rest as [|r rest]; [simpl in E; discriminate|].
      change (removelast (first :: r :: rest)) with (first :: removelast (r :: rest)).
      discriminate.
  - split; [apply incl_refl | auto].
Qed.

(** The outline function returns; its result is empty only when there is
    no boundary edge, and its vertices are corners of the cells. *)
Lemma cells_to_outline_total (cells : list Cell) :
  exists outline,
    cells_to_outline cells = Some outline /\
    (outline = [] <-> boundary_edges cells = []) /\
    Forall (cell_corner cells) outline.
Proof.
  unfold cells_to_outline.
  destruct (boundary_edges cells) as [|[start other] rest] eqn:Eb.
  - exists []. split; [reflexivity|]. split; [tauto | constructor].
  - assert (forall e, In e ((start, other) :: rest) -> sorted_key e = e) as Hsorted.
    { intros e He. apply (boundary_edges_sorted cells). now rewrite Eb. }
    destruct (@walk_loop_terminates _ Hsorted (S (List.length ((start, other) :: rest)))
                [] start [start]) as [L HL].
    { constructor. }
    { intros e []. }
    { unfold Edge, Vertex. simpl. lia. }
    unfold Edge in *. rewrite HL.
    destruct (@walk_loop_vertices _ Hsorted (cell_corner cells)) with
      (fuel := S (List.length ((start, other) :: rest))) (visited := @nil Edge)
      (cur := start) (loop := [start]) (L := L) as [HP [tl ->]].
    { intros e He. apply boundary_endpoints. now rewrite Eb. }
    { exact HL. }
    { constructor; [|constructor].
      apply (boundary_endpoints cells (start, other)). rewrite Eb. now left. }
    destruct (drop_closing_vertex_incl ([start] ++ tl)) as [Hincl Hne].
    eexists. split; [reflexivity|]. split.
    + split; [|discriminate]. intros E. exfalso. apply Hne; [discriminate | exact E].
    + rewrite Forall_forall in *. intros v Hv. apply HP, Hincl, Hv.
Qed.

(** X11: what [create_piece_mesh] returns, for any cells.  It returns
    [None] exactly when no side belongs to one cell only (so for an empty
    cell list), and otherwise an object under the name given, bevelled
    exactly when [bevel_top > 0], whose every vertex lies on a corner of
    one of the cells, scaled by the cell size, at height 0.0
    ([bottom_verts]) or [piece_t] ([top_verts]): the solid stays within
    the footprint of the cells and is [piece_t] thick. *)
Theorem create_piece_mesh_on_cell_corners :
  forall (R : Type) (N : PyNum R) (faces_new_ok : list Face -> Face -> bool)
         (name : ObjName) (cells : list Cell) (cell_size piece_t bevel_top : R),
    (boundary_edges cells = [] /\
     create_piece_mesh faces_new_ok name cells cell_size piece_t bevel_top = Some None) \/
    (boundary_edges cells <> [] /\
     exists pm,
       create_piece_mesh faces_new_ok name cells cell_size piece_t bevel_top
         = Some (Some pm) /\
       pm_name pm = name /\
       pm_bevel_top pm = (if nltb (of_int 0) bevel_top then Some bevel_top else None) /\
       forall v pos,
         In (v, pos) (bm_verts (pm_mesh pm)) ->
         exists gx gy,
           cell_corner cells (gx, gy) /\
           pos = (nmul (of_int gx) cell_size, nmul (of_int gy) cell_size,
                  match v with Bot _ => lit 0.0%Q | Top _ => piece_t end)).
Proof.
  intros R N ok name cells cs pt bevel.
  destruct (cells_to_outline_total cells) as (outline & E & Hempty & Hcorn).
  unfold create_piece_mesh. rewrite E. destruct outline as [|v0 outline].
  - left. split; [now apply Hempty | reflexivity].
  - right. split; [intros Hb; apply Hempty in Hb; discriminate|].
    eexists. split; [reflexivity|]. split; [reflexivity|]. split; [reflexivity|].
    intros v pos Hin. cbn [pm_mesh extrude_outline bm_verts] in Hin.
    apply in_flat_map in Hin as [[i [gx gy]] [Hc Hin]].
    apply in_combine_r in Hc. rewrite Forall_forall in Hcorn.
    exists gx, gy. split; [now apply Hcorn|].
    destruct Hin as [Hin|[Hin|[]]]; injection Hin as <- <-; reflexivity.
Qed.

(** ** Collections *)

Lemma objname_eqb_eq (a b : ObjName) : objname_eqb a b = true <-> a = b.
Proof.
  unfold objname_eqb. destruct (ObjName_eq_dec a b); split; congruence.
Qed.

Lemma objname_eqb_sym (a b : ObjName) : objname_eqb a b = objname_eqb b a.
Proof.
  unfold objname_eqb. destruct (ObjName_eq_dec a b), (ObjName_eq_dec b a); congruence.
Qed.

Lemma obj_mem_In (o : ObjName) (l : list ObjName) : obj_mem o l = true <-> In o l.
Proof.
  unfold obj_mem. rewrite existsb_exists. split.
  - intros [x [Hx E]]. apply objname_eqb_eq in E. now subst.
  - intros Hin. exists o. split; [exact Hin | now apply objname_eqb_eq].
Qed.

Lemma obj_mem_false (o : ObjName) (l : list ObjName) : obj_mem o l = false <-> ~ In o l.
Proof. rewrite <- obj_mem_In. destruct (obj_mem o l); intuition congruence. Qed.

Lemma obj_remove_In (o x : ObjName) (l : list ObjName) :
  In x (obj_remove o l) <-> In x l /\ x <> o.
Proof.
  unfold obj_remove. rewrite filter_In, negb_true_iff. split.
  - intros [Hin E]. split; [exact Hin|]. intros ->.
    rewrite (proj2 (objname_eqb_eq o o) eq_refl) in E. discriminate.
  - intros [Hin Hne]. split; [exact Hin|].
    destruct (objname_eqb o x) eqn:E; [|reflexivity].
    apply objname_eqb_eq in E. congruence.
Qed.

Lemma remove_all_In (objs l : list ObjName) (x : ObjName) :
  In x (remove_all objs l) <-> In x l /\ ~ In x objs.
Proof.
  unfold remove_all. rewrite filter_In, negb_true_iff, obj_mem_false. reflexivity.
Qed.

Lemma remove_all_cons (o : ObjName) (objs l : list ObjName) :
  remove_all objs (obj_remove o l) = remove_all (o :: objs) l.
Proof.
  unfold remove_all, obj_remove. induction l as [|x l IH]; [reflexivity|].
  cbn [filter obj_mem existsb]. rewrite (objname_eqb_sym x o).
  destruct (objname_eqb o x); cbn [negb orb filter]; rewrite IH; reflexivity.
Qed.

Lemma remove_all_nil (l : list ObjName) : remove_all [] l = l.
Proof.
  unfold remove_all. induction l as [|x l IH]; [reflexivity|].
  simpl in *. f_equal. exact IH.
Qed.

Lemma has_collection_In (name : string) (sc : Scene) :
  has_collection name sc = true <-> In name (map fst (data_collections sc)).
Proof.
  unfold has_collection. rewrite existsb_exists, in_map_iff. split.
  - intros [c [Hc E]]. apply String.eqb_eq in E. now exists c.
  - intros [c [E Hc]]. exists c. split; [exact Hc | now apply String.eqb_eq].
Qed.

(** Looking a collection up when there is none under the name. *)
Lemma collection_objects_absent (name : string) (sc : Scene) :
  has_collection name sc = false -> collection_objects name sc = [].
Proof.
  unfold has_collection, collection_objects, dict_get_default.
  induction (data_collections sc) as [|[k v] d IH]; [reflexivity|].
  cbn [existsb dict_get fst]. destruct (String.eqb k name); [discriminate|].
  exact IH.
Qed.

(** Removing the objects one by one removes them all, everywhere. *)
Lemma objects_remove_all (objs : list ObjName) (sc : Scene) :
  fold_left (fun sc o => objects_remove o sc) objs sc =
  {| data_objects := remove_all objs (data_objects sc);
     data_collections :=
       map (fun c : string * list ObjName => (fst c, remove_all objs (snd c)))
           (data_collections sc);
     scene_children := scene_children sc;
     scene_objects := remove_all objs (scene_objects sc) |}.
Proof.
  revert sc. induction objs as [|o objs IH]; intros sc.
  - cbn [fold_left]. rewrite !remove_all_nil. destruct sc as [d c ch s]. cbn.
    f_equal. induction c as [|[k v] c IHc]; [reflexivity|].
    cbn [map fst snd]. now rewrite remove_all_nil, <- IHc.
  - cbn [fold_left]. rewrite IH. unfold objects_remove.
    cbn [data_objects data_collections scene_children scene_objects].
    rewrite !remove_all_cons, map_map. f_equal.
    apply map_ext. intros [k v]. cbn [fst snd]. now rewrite remove_all_cons.
Qed.

(** Looking a collection up after a pass over all collections and after
    one collection has been dropped. *)
Lemma dict_get_map_values (f : list ObjName -> list ObjName)
  (d : list (string * list ObjName)) (name : string) :
  dict_get String.eqb (map (fun c : string * list ObjName => (fst c, f (snd c))) d) name
  = option_map f (dict_get String.eqb d name).
Proof.
  induction d as [|[k v] d IH]; [reflexivity|].
  cbn [map dict_get fst snd]. destruct (String.eqb k name); [reflexivity | exact IH].
Qed.

Lemma dict_get_drop (d : list (string * list ObjName)) (name other : string) :
  dict_get String.eqb
    (filter (fun c : string * list ObjName => negb (String.eqb (fst c) name)) d) other
  = if String.eqb name other then None else dict_get String.eqb d other.
Proof.
  induction d as [|[k v] d IH]; [now destruct (String.eqb name other)|].
  cbn [filter dict_get fst]. destruct (String.eqb k name) eqn:E1; cbn [negb].
  - rewrite IH. apply String.eqb_eq in E1. subst k.
    destruct (String.eqb name other); reflexivity.
  - cbn [dict_get]. destruct (String.eqb k other) eqn:E2; [|exact IH].
    apply String.eqb_eq in E2. subst k.
    rewrite String.eqb_sym, E1. reflexivity.
Qed.

(** The objects of a collection after [wipe_collection]. *)
Lemma wipe_collection_objects (name other : string) (sc : Scene) :
  collection_objects other (wipe_collection name sc) =
  if String.eqb name other then []
  else remove_all (collection_objects name sc) (collection_objects other sc).
Proof.
  unfold wipe_collection. destruct (has_collection name sc) eqn:Eh; cbn [negb].
  - rewrite objects_remove_all. unfold collections_remove, collection_objects at 1.
    cbn [data_collections]. unfold dict_get_default.
    rewrite dict_get_drop. destruct (String.eqb name other); [reflexivity|].
    rewrite dict_get_map_values. unfold collection_objects, dict_get_default.
    destruct (dict_get String.eqb (data_collections sc) other); reflexivity.
  - rewrite (collection_objects_absent _ _ Eh), remove_all_nil.
    destruct (String.eqb name other) eqn:E; [|reflexivity].
    apply String.eqb_eq in E. subst other. now apply collection_objects_absent.
Qed.

Lemma wipe_collection_has (name other : string) (sc : Scene) :
  has_collection other (wipe_collection name sc) =
  negb (String.eqb name other) && has_collection other sc.
Proof.
  unfold wipe_collection. destruct (has_collection name sc) eqn:Eh; cbn [negb].
  - rewrite objects_remove_all. unfold collections_remove, has_collection.
    cbn [data_collections].
    induction (data_collections sc) as [|[k v] d IH].
    + cbn. now rewrite andb_false_r.
    + cbn [map filter fst existsb]. destruct (String.eqb k name) eqn:E1; cbn [negb].
      * rewrite IH. apply String.eqb_eq in E1. subst k.
        destruct (String.eqb name other); reflexivity.
      * cbn [existsb fst]. rewrite IH.
        destruct (String.eqb k other) eqn:E2; cbn [orb]; [|reflexivity].
        apply String.eqb_eq in E2. subst k. rewrite String.eqb_sym, E1. reflexivity.
  - destruct (String.eqb name other) eqn:E; [|reflexivity].
    apply String.eqb_eq in E. subst other. exact Eh.
Qed.

Lemma wipe_collection_data (name : string) (sc : Scene) :
  data_objects (wipe_collection name sc)
    = remove_all (collection_objects name sc) (data_objects sc) /\
  scene_objects (wipe_collection name sc)
    = remove_all (collection_objects name sc) (scene_objects sc).
Proof.
  unfold wipe_collection. destruct (has_collection name sc) eqn:Eh; cbn [negb].
  - rewrite objects_remove_all. split; reflexivity.
  - rewrite (collection_objects_absent _ _ Eh), !remove_all_nil. split; reflexivity.
Qed.

Lemma wipe_collection_absent (name : string) (sc : Scene) :
  has_collection name sc = false -> wipe_collection name sc = sc.
Proof. intros Eh. unfold wipe_collection. now rewrite Eh. Qed.

(** X14: [wipe_collection] takes the collection and its objects out of
    the scene, and nothing else.  Afterwards there is no collection under
    the name; an object that was linked to it is gone from the data, from
    the scene collection and from every other collection it was linked
    to; every other object is where it was and every other collection
    still exists.  Wiping again, or wiping a name under which there is no
    collection, changes nothing. *)
Theorem wipe_collection_removes_collection_and_objects :
  forall (name : string) (sc : Scene),
    let sc' := wipe_collection name sc in
    has_collection name sc' = false /\
    (forall o, In o (collection_objects name sc) -> ~ object_known o sc') /\
    (forall o, ~ In o (collection_objects name sc) ->
       (In o (data_objects sc') <-> In o (data_objects sc)) /\
       (In o (scene_objects sc') <-> In o (scene_objects sc)) /\
       forall other, other <> name ->
         (In o (collection_objects other sc') <-> In o (collection_objects other sc))) /\
    (forall other, other <> name ->
       has_collection other sc' = has_collection other sc) /\
    wipe_collection name sc' = sc' /\
    (has_collection name sc = false -> sc' = sc).
Proof.
  intros name sc sc'. subst sc'.
  destruct (wipe_collection_data name sc) as [Hd Hs].
  assert (has_collection name (wipe_collection name sc) = false) as Hgone.
  { rewrite wipe_collection_has, String.eqb_refl. reflexivity. }
  split; [exact Hgone|]. split; [|split; [|split; [|split]]].
  - intros o Ho [Hk|[Hk|[other Hk]]].
    + rewrite Hd in Hk. apply remove_all_In in Hk. tauto.
    + rewrite Hs in Hk. apply remove_all_In in Hk. tauto.
    + rewrite wipe_collection_objects in Hk.
      destruct (String.eqb name other); [destruct Hk|].
      apply remove_all_In in Hk. tauto.
  - intros o Ho. rewrite Hd, Hs, !remove_all_In. split; [tauto|]. split; [tauto|].
    intros other Hne. rewrite wipe_collection_objects.
    destruct (String.eqb name other) eqn:E.
    + apply String.eqb_eq in E. congruence.
    + rewrite remove_all_In. tauto.
  - intros other Hne. rewrite wipe_collection_has.
    destruct (String.eqb name other) eqn:E; [|reflexivity].
    apply String.eqb_eq in E. congruence.
  - now apply wipe_collection_absent.
  - apply wipe_collection_absent.
Qed.

(** *** Linking *)

Lemma get_or_create_collection_has (name : string) (sc : Scene) :
  has_collection name (get_or_create_collection name sc) = true.
Proof.
  unfold get_or_create_collection. destruct (has_collection name sc) eqn:E; [exact E|].
  unfold has_collection. cbn [data_collections]. rewrite existsb_app. cbn.
  rewrite String.eqb_refl. apply orb_true_r.
Qed.

Lemma dict_get_snoc_empty (d : list (string * list ObjName)) (name other : string) :
  dict_get_default String.eqb [] (d ++ [(name, [])]) other
  = dict_get_default String.eqb [] d other.
Proof.
  unfold dict_get_default. induction d as [|[k v] d IH].
  - cbn. destruct (String.eqb name other); reflexivity.
  - cbn [app dict_get]. destruct (String.eqb k other); [reflexivity | exact IH].
Qed.

Lemma get_or_create_collection_objects (name other : string) (sc : Scene) :
  collection_objects other (get_or_create_collection name sc) = collection_objects other sc.
Proof.
  unfold get_or_create_collection. destruct (has_collection name sc); [reflexivity|].
  unfold collection_objects. cbn [data_collections]. apply dict_get_snoc_empty.
Qed.

Lemma get_or_create_collection_other (name other : string) (sc : Scene) :
  other <> name ->
  has_collection other (get_or_create_collection name sc) = has_collection other sc.
Proof.
  intros Hne. unfold get_or_create_collection.
  destruct (has_collection name sc); [reflexivity|].
  unfold has_collection. cbn [data_collections]. rewrite existsb_app. cbn.
  replace (String.eqb name other) with false; [now rewrite !orb_false_r|].
  symmetry. apply String.eqb_neq. congruence.
Qed.

Lemma collection_link_objects (obj : ObjName) (name other : string) (sc : Scene) :
  collection_objects other (collection_link obj name sc) =
  if String.eqb name other then collection_objects name sc ++ [obj]
  else collection_objects other sc.
Proof.
  unfold collection_objects, collection_link, dict_get_default. cbn [data_collections].
  rewrite (dict_get_update String.eqb String.eqb_eq).
  destruct (String.eqb name other); reflexivity.
Qed.

Lemma collection_link_has (obj : ObjName) (name other : string) (sc : Scene) :
  has_collection other (collection_link obj name sc) =
  String.eqb name other || has_collection other sc.
Proof.
  unfold has_collection, collection_link. cbn [data_collections].
  induction (data_collections sc) as [|[k v] d IH].
  - cbn. rewrite !orb_false_r. reflexivity.
  - cbn [dict_update]. destruct (String.eqb k name) eqn:E.
    + cbn [existsb fst]. apply String.eqb_eq in E. subst k.
      destruct (String.eqb name other); reflexivity.
    + cbn [existsb fst]. rewrite IH.
      destruct (String.eqb k other), (String.eqb name other); reflexivity.
Qed.

(** X15: [link_to_collection] puts the object in the collection, once,
    and takes it out of the scene collection.  The collection exists
    afterwards, created if need be; the object is added at the end of its
    objects unless it was among them already; no other collection changes
    and no other object leaves the scene collection; a second call with
    the same arguments changes nothing. *)
Theorem link_to_collection_links_once :
  forall (obj : ObjName) (col_name : string) (sc : Scene),
    let sc' := link_to_collection obj col_name sc in
    has_collection col_name sc' = true /\
    collection_objects col_name sc' =
      collection_objects col_name sc
      ++ (if obj_mem obj (collection_objects col_name sc) then [] else [obj]) /\
    ~ In obj (scene_objects sc') /\
    (forall o, o <> obj -> (In o (scene_objects sc') <-> In o (scene_objects sc))) /\
    (forall other, other <> col_name ->
       collection_objects other sc' = collection_objects other sc /\
       has_collection other sc' = has_collection other sc) /\
    data_objects sc' = data_objects sc /\
    link_to_collection obj col_name sc' = sc'.
Proof.
  intros obj col sc sc'.
  assert (forall s, let s2 := if obj_mem obj (scene_objects s) then scene_unlink obj s else s in
            data_collections s2 = data_collections s /\
            data_objects s2 = data_objects s /\
            ~ In obj (scene_objects s2) /\
            (forall o, o <> obj -> (In o (scene_objects s2) <-> In o (scene_objects s))))
    as Hun.
  { intros s. cbv zeta. destruct (obj_mem obj (scene_objects s)) eqn:E.
    - cbn [scene_unlink data_collections data_objects scene_objects].
      split; [reflexivity|]. split; [reflexivity|].
      split; [rewrite obj_remove_In; tauto|].
      intros o Ho. rewrite obj_remove_In. tauto.
    - apply obj_mem_false in E.
      split; [reflexivity|]. split; [reflexivity|]. split; [exact E | tauto]. }
  set (s0 := get_or_create_collection col sc).
  set (s1 := if negb (obj_mem obj (collection_objects col s0))
             then collection_link obj col s0 else s0).
  assert (sc' = if obj_mem obj (scene_objects s1) then scene_unlink obj s1 else s1) as Esc
    by reflexivity.
  destruct (Hun s1) as (Hc & Hd & Hnot & Hkeep). cbv zeta in Hc, Hd, Hnot, Hkeep.
  rewrite <- Esc in Hc, Hd, Hnot, Hkeep.
  assert (forall other, collection_objects other sc' = collection_objects other s1) as Hco.
  { intros other. unfold collection_objects. now rewrite Hc. }
  assert (forall other, has_collection other sc' = has_collection other s1) as Hha.
  { intros other. unfold has_collection. now rewrite Hc. }
  assert (forall other, collection_objects other s0 = collection_objects other sc) as H0
    by (intros; apply get_or_create_collection_objects).
  assert (has_collection col s1 = true) as Hcol1.
  { unfold s1. destruct (negb (obj_mem obj (collection_objects col s0))).
    - rewrite collection_link_has, String.eqb_refl. reflexivity.
    - apply get_or_create_collection_has. }
  assert (collection_objects col s1 =
          collection_objects col sc
          ++ (if obj_mem obj (collection_objects col sc) then [] else [obj])) as Hobjs.
  { unfold s1. rewrite H0. destruct (obj_mem obj (collection_objects col sc)); cbn [negb].
    - rewrite H0, app_nil_r. reflexivity.
    - rewrite collection_link_objects, String.eqb_refl, H0. reflexivity. }
  assert (scene_objects s1 = scene_objects sc /\ data_objects s1 = data_objects sc)
    as [Hs1 Hd1].
  { unfold s1, s0, get_or_create_collection.
    destruct (negb (obj_mem obj _)), (has_collection col sc); split; reflexivity. }
  split; [now rewrite Hha|]. split; [now rewrite Hco|]. split; [exact Hnot|].
  split; [intros o Ho; rewrite (Hkeep o Ho), Hs1; reflexivity|].
  split; [|split; [congruence|]].
  - intros other Hne. rewrite Hco, Hha. unfold s1.
    assert (String.eqb col other = false) as E by (apply String.eqb_neq; congruence).
    destruct (negb (obj_mem obj (collection_objects col s0))).
    + rewrite collection_link_objects, collection_link_has, E, H0. cbn [orb].
      split; [reflexivity|]. now apply get_or_create_collection_other.
    + rewrite H0. split; [reflexivity|]. now apply get_or_create_collection_other.
  - assert (obj_mem obj (collection_objects col sc') = true) as Hin.
    { rewrite Hco, Hobjs. apply obj_mem_In.
      destruct (obj_mem obj (collection_objects col sc)) eqn:E.
      - rewrite app_nil_r. now apply obj_mem_In.
      - apply in_or_app. right. now left. }
    unfold link_to_collection, get_or_create_collection.
    rewrite Hha, Hcol1, Hin. cbn [negb].
    apply obj_mem_false in Hnot. now rewrite Hnot.
Qed.

(** *** Cleaning *)

Lemma wipe_collection_known (name : string) (sc : Scene) (o : ObjName) :
  object_known o (wipe_collection name sc) -> object_known o sc.
Proof.
  destruct (wipe_collection_data name sc) as [Hd Hs].
  intros [Hk|[Hk|[other Hk]]].
  - left. rewrite Hd in Hk. apply remove_all_In in Hk. tauto.
  - right. left. rewrite Hs in Hk. apply remove_all_In in Hk. tauto.
  - right. right. exists other. rewrite wipe_collection_objects in Hk.
    destruct (String.eqb name other); [destruct Hk|].
    apply remove_all_In in Hk. tauto.
Qed.

Lemma wipe_collection_forgets (name : string) (sc : Scene) (o : ObjName) :
  In o (collection_objects name sc) -> ~ object_known o (wipe_collection name sc).
Proof.
  destruct (wipe_collection_data name sc) as [Hd Hs].
  intros Ho [Hk|[Hk|[other Hk]]].
  - rewrite Hd in Hk. apply remove_all_In in Hk. tauto.
  - rewrite Hs in Hk. apply remove_all_In in Hk. tauto.
  - rewrite wipe_collection_objects in Hk.
    destruct (String.eqb name other); [destruct Hk|].
    apply remove_all_In in Hk. tauto.
Qed.

Lemma In_dec_obj (o : ObjName) (l : list ObjName) : In o l \/ ~ In o l.
Proof. destruct (in_dec ObjName_eq_dec o l); auto. Qed.

Lemma wipe_all_known (names : list string) (sc : Scene) (o : ObjName) :
  object_known o (wipe_all names sc) -> object_known o sc.
Proof.
  revert sc. induction names as [|m names IH]; intros sc Hk; [exact Hk|].
  apply (@wipe_collection_known m). apply IH. exact Hk.
Qed.

Lemma wipe_all_has (names : list string) (sc : Scene) (n : string) :
  has_collection n (wipe_all names sc) = true -> has_collection n sc = true.
Proof.
  revert sc. induction names as [|m names IH]; intros sc Hh; [exact Hh|].
  apply IH in Hh. rewrite wipe_collection_has in Hh.
  apply andb_true_iff in Hh. tauto.
Qed.

Lemma wipe_all_gone (names : list string) (sc : Scene) (n : string) :
  In n names -> has_collection n (wipe_all names sc) = false.
Proof.
  revert sc. induction names as [|m names IH]; intros sc Hn; [destruct Hn|].
  cbn [wipe_all fold_left]. fold (wipe_all names (wipe_collection m sc)).
  destruct (string_dec m n) as [->|Hne].
  - destruct (has_collection n (wipe_all names (wipe_collection n sc))) eqn:E;
      [|reflexivity].
    apply wipe_all_has in E. rewrite wipe_collection_has, String.eqb_refl in E.
    discriminate.
  - destruct Hn as [Hn|Hn]; [congruence|]. now apply IH.
Qed.

Lemma wipe_all_forgets (names : list string) (sc : Scene) (n : string) (o : ObjName) :
  In n names -> In o (collection_objects n sc) -> ~ object_known o (wipe_all names sc).
Proof.
  revert sc. induction names as [|m names IH]; intros sc Hn Ho; [destruct Hn|].
  cbn [wipe_all fold_left]. fold (wipe_all names (wipe_collection m sc)).
  destruct (In_dec_obj o (collection_objects m sc)) as [Hm|Hm].
  - intros Hk. apply wipe_all_known in Hk. now apply (@wipe_collection_forgets m sc o).
  - destruct Hn as [->|Hn]; [contradiction|].
    apply IH; [exact Hn|]. rewrite wipe_collection_objects.
    destruct (String.eqb m n) eqn:E.
    + apply String.eqb_eq in E. subst m. contradiction.
    + apply remove_all_In. tauto.
Qed.

Lemma wipe_all_absent (names : list string) (sc : Scene) :
  (forall n, In n names -> has_collection n sc = false) -> wipe_all names sc = sc.
Proof.
  induction names as [|m names IH]; intros Hn; [reflexivity|].
  cbn [wipe_all fold_left]. rewrite wipe_collection_absent by (apply Hn; now left).
  apply IH. intros n Hin. apply Hn. now right.
Qed.

(** Objects outside the wiped collections, and collections under other
    names, are left alone. *)
Lemma wipe_all_keeps (names : list string) (sc : Scene) (o : ObjName) :
  (forall n, In n names -> ~ In o (collection_objects n sc)) ->
  (In o (data_objects (wipe_all names sc)) <-> In o (data_objects sc)) /\
  (In o (scene_objects (wipe_all names sc)) <-> In o (scene_objects sc)) /\
  forall other, ~ In other names ->
    (In o (collection_objects other (wipe_all names sc))
     <-> In o (collection_objects other sc)).
Proof.
  revert sc. induction names as [|m names IH]; intros sc Hn.
  - split; [reflexivity|]. split; [reflexivity|]. intros; reflexivity.
  - cbn [wipe_all fold_left]. fold (wipe_all names (wipe_collection m sc)).
    assert (~ In o (collection_objects m sc)) as Hm by (apply Hn; now left).
    destruct (IH (wipe_collection m sc)) as (H1 & H2 & H3).
    { intros n Hin. rewrite wipe_collection_objects.
      destruct (String.eqb m n); [intros []|]. rewrite remove_all_In.
      intros [Hc _]. apply (Hn n); [now right | exact Hc]. }
    destruct (wipe_collection_data m sc) as [Hd Hs].
    rewrite H1, H2, Hd, Hs, !remove_all_In.
    split; [tauto|]. split; [tauto|].
    intros other Hother. rewrite H3 by (intros Hc; apply Hother; now right).
    rewrite wipe_collection_objects. destruct (String.eqb m other) eqn:E.
    + apply String.eqb_eq in E. subst other. exfalso. apply Hother. now left.
    + rewrite remove_all_In. tauto.
Qed.

Lemma wipe_all_other_has (names : list string) (sc : Scene) (other : string) :
  ~ In other names -> has_collection other (wipe_all names sc) = has_collection other sc.
Proof.
  revert sc. induction names as [|m names IH]; intros sc Hn; [reflexivity|].
  cbn [wipe_all fold_left]. fold (wipe_all names (wipe_collection m sc)).
  rewrite IH by (intros Hc; apply Hn; now right).
  rewrite wipe_collection_has.
  destruct (String.eqb m other) eqn:E; [|reflexivity].
  apply String.eqb_eq in E. subst other. exfalso. apply Hn. now left.
Qed.

Lemma clean_as_wipe_all (sc : Scene) :
  BLK_OT_Clean_execute sc =
  (FINISHED, [(INFO, "Cleaned all Blokus objects"%string)], wipe_all BLK_collections sc).
Proof. reflexivity. Qed.

(** X16: [BLK_OT_Clean] removes all that the add-on made, and only that.
    It always finishes, with its one INFO report.  Afterwards none of the
    six collections BLK_BOARD, BLK_PIECES_RED, .._BLUE, .._YELLOW,
    .._GREEN and BLK_TMP exists, and no object that was linked to one of
    them is left anywhere in the scene, whether the colour is enabled or
    not; objects that were in none of them, and collections under other
    names, are as before.  Running it again changes nothing. *)
Theorem clean_removes_all_generated_objects :
  forall sc : Scene,
    let run := BLK_OT_Clean_execute sc in
    let sc' := snd run in
    fst run = (FINISHED, [(INFO, "Cleaned all Blokus objects"%string)]) /\
    (forall name, In name BLK_collections ->
       has_collection name sc' = false /\
       forall o, In o (collection_objects name sc) -> ~ object_known o sc') /\
    (forall o,
       (forall name, In name BLK_collections -> ~ In o (collection_objects name sc)) ->
       (In o (data_objects sc') <-> In o (data_objects sc)) /\
       (In o (scene_objects sc') <-> In o (scene_objects sc)) /\
       forall other, ~ In other BLK_collections ->
         (In o (collection_objects other sc') <-> In o (collection_objects other sc))) /\
    (forall other, ~ In other BLK_collections ->
       has_collection other sc' = has_collection other sc) /\
    BLK_OT_Clean_execute sc' = run.
Proof.
  intros sc run sc'. subst sc' run. rewrite !clean_as_wipe_all. cbn [fst snd].
  split; [reflexivity|]. split; [|split; [|split]].
  - intros name Hn. split; [now apply wipe_all_gone|].
    intros o Ho. now apply (@wipe_all_forgets BLK_collections sc name).
  - intros o Ho. now apply wipe_all_keeps.
  - intros other Ho. now apply wipe_all_other_has.
  - rewrite (@wipe_all_absent BLK_collections (wipe_all BLK_collections sc)).
    + reflexivity.
    + intros n Hn. now apply wipe_all_gone.
Qed.

(** ** The piece pipeline *)

Section BooleanOutcomeFacts.
Variables Mesh Xform : Type.
Variable bake : Xform -> Mesh -> Mesh.
Variable xf_id : Xform.
Variable solve : Solver -> Operation -> Mesh -> Mesh -> option Mesh.

Ltac stack_step :=
  cbn -[find_modifier update_modifier remove_modifier unique_name existsb].

(** [apply_boolean] never raises, and this is what it does. *)
Lemma apply_boolean_outcome (operation : Operation) (w : World Mesh Xform) :
  apply_boolean bake xf_id solve operation w =
  (Ok (fst (boolean_outcome bake xf_id solve operation w)),
   snd (boolean_outcome bake xf_id solve operation w)).
Proof.
  destruct w as [t c act runs].
  pose proof (unique_name_fresh "Bool" (mo_modifiers t)) as F1.
  pose proof (unique_name_fresh "Bool2" (mo_modifiers t)) as F2.
  unfold boolean_outcome, apply_boolean, bindB, try_except, select_only,
    transform_apply, modifiers_new, configure_modifier, modifier_apply,
    modifiers_remove, modifier_names, retB, log_run.
  stack_step.
  rewrite !(@update_modifier_last _ _ _ F1) by reflexivity.
  rewrite !(@find_modifier_last _ _ _ F1) by reflexivity.
  stack_step.
  destruct (solve EXACT operation (bake (mo_rot_scale t) (mo_data t))
              (bake (mo_rot_scale c) (mo_data c))) as [mesh|].
  - stack_step. rewrite !(@remove_modifier_last _ _ _ F1) by reflexivity.
    reflexivity.
  - stack_step.
    rewrite !(@find_modifier_last _ _ _ F1) by reflexivity. stack_step.
    rewrite !(@remove_modifier_last _ _ _ F1) by reflexivity.
    rewrite !(@update_modifier_last _ _ _ F2) by reflexivity.
    rewrite !(@find_modifier_last _ _ _ F2) by reflexivity. stack_step.
    destruct (solve FAST operation (bake (mo_rot_scale t) (mo_data t))
                (bake (mo_rot_scale c) (mo_data c))) as [mesh|].
    + stack_step. rewrite !(@remove_modifier_last _ _ _ F2) by reflexivity.
      rewrite <- app_assoc. reflexivity.
    + stack_step.
      rewrite (@name_listed_last (unique_name "Bool2" (mo_modifiers t))
                 (mo_modifiers t)) by reflexivity.
      stack_step.
      rewrite !(@find_modifier_last _ _ _ F2) by reflexivity. stack_step.
      rewrite !(@remove_modifier_last _ _ _ F2) by reflexivity.
      rewrite <- app_assoc. destruct t; reflexivity.
Qed.

End BooleanOutcomeFacts.

Lemma obj_remove_absent (o : ObjName) (l : list ObjName) :
  ~ In o l -> obj_remove o l = l.
Proof.
  unfold obj_remove. induction l as [|x l IH]; intros Hn; [reflexivity|].
  cbn [filter]. destruct (objname_eqb o x) eqn:E.
  - apply objname_eqb_eq in E. subst x. exfalso. apply Hn. now left.
  - cbn [negb]. rewrite IH; [reflexivity|]. intros Hc. apply Hn. now right.
Qed.

(** [link_to_collection], field by field. *)
Lemma link_to_collection_fields (obj : ObjName) (col : string) (sc : Scene) :
  data_objects (link_to_collection obj col sc) = data_objects sc /\
  scene_objects (link_to_collection obj col sc) = obj_remove obj (scene_objects sc) /\
  forall other,
    collection_objects other (link_to_collection obj col sc) =
    if String.eqb col other
    then collection_objects col sc
         ++ (if obj_mem obj (collection_objects col sc) then [] else [obj])
    else collection_objects other sc.
Proof.
  unfold link_to_collection.
  set (s0 := get_or_create_collection col sc).
  set (s1 := if negb (obj_mem obj (collection_objects col s0))
             then collection_link obj col s0 else s0).
  assert (scene_objects s1 = scene_objects sc /\ data_objects s1 = data_objects sc)
    as [Hs1 Hd1].
  { unfold s1, s0, get_or_create_collection.
    destruct (negb (obj_mem obj _)), (has_collection col sc); split; reflexivity. }
  assert (forall other,
            collection_objects other s1 =
            if String.eqb col other
            then collection_objects col sc
                 ++ (if obj_mem obj (collection_objects col sc) then [] else [obj])
            else collection_objects other sc) as Hc1.
  { assert (forall n, collection_objects n s0 = collection_objects n sc) as H0
      by (intros n; apply get_or_create_collection_objects).
    intros other. unfold s1. rewrite H0.
    destruct (obj_mem obj (collection_objects col sc)) eqn:E; cbn [negb].
    - rewrite H0. destruct (String.eqb col other) eqn:E2; [|reflexivity].
      apply String.eqb_eq in E2. subst other. now rewrite app_nil_r.
    - rewrite collection_link_objects, !H0. reflexivity. }
  destruct (obj_mem obj (scene_objects s1)) eqn:E.
  - cbn [scene_unlink data_objects scene_objects]. rewrite Hd1, Hs1.
    split; [reflexivity|]. split; [reflexivity|]. exact Hc1.
  - rewrite Hd1. split; [reflexivity|]. split; [|exact Hc1].
    rewrite Hs1 in *. apply obj_mem_false in E. now rewrite obj_remove_absent.
Qed.

Lemma objects_remove_collection (x : ObjName) (name : string) (sc : Scene) :
  collection_objects name (objects_remove x sc) = obj_remove x (collection_objects name sc).
Proof.
  unfold collection_objects, objects_remove, dict_get_default. cbn [data_collections].
  rewrite dict_get_map_values.
  destruct (dict_get String.eqb (data_collections sc) name); reflexivity.
Qed.

Lemma objects_remove_known (x o : ObjName) (sc : Scene) :
  object_known o (objects_remove x sc) <-> object_known o sc /\ o <> x.
Proof.
  unfold object_known. cbn [objects_remove data_objects scene_objects].
  rewrite !obj_remove_In. split.
  - intros [Hk|[Hk|[n Hk]]]; try tauto.
    rewrite objects_remove_collection, obj_remove_In in Hk.
    split; [|tauto]. right. right. exists n. tauto.
  - intros [[Hk|[Hk|[n Hk]]] Hne]; try tauto.
    right. right. exists n. rewrite objects_remove_collection, obj_remove_In. tauto.
Qed.

Lemma new_object_collection (x : ObjName) (name : string) (sc : Scene) :
  collection_objects name (new_object x sc) = collection_objects name sc.
Proof. reflexivity. Qed.

Lemma link_to_collection_known (obj o : ObjName) (col : string) (sc : Scene) :
  object_known o (link_to_collection obj col sc) -> o = obj \/ object_known o sc.
Proof.
  destruct (link_to_collection_fields obj col sc) as (Hd & Hs & Hc).
  unfold object_known. rewrite Hd, Hs, obj_remove_In.
  intros [Hk|[Hk|[n Hk]]]; try tauto.
  rewrite Hc in Hk. destruct (String.eqb col n).
  - apply in_app_or in Hk as [Hk|Hk].
    + right. right. right. now exists col.
    + destruct (obj_mem obj (collection_objects col sc)); [destruct Hk|].
      destruct Hk as [<-|[]]. now left.
  - right. right. right. now exists n.
Qed.

Lemma make_groove_cutter_ok {R} {N : PyNum R} (name : ObjName) (cells : list Cell)
  (cell_size groove_w groove_d piece_t : R) :
  cells <> [] ->
  exists cutter,
    make_groove_cutter name cells cell_size groove_w groove_d piece_t = Ok (Some cutter) /\
    joined_name cutter = name.
Proof.
  intros Hne.
  assert (exists c, In c cells) as [[x y] Hc]
    by (destruct cells as [|c ?]; [congruence | exists c; now left]).
  assert (In x (map fst cells)) as Hx by (apply in_map_iff; exists (x, y); auto).
  assert (In y (map snd cells)) as Hy by (apply in_map_iff; exists (x, y); auto).
  destruct (py_min_nonempty (l := map fst cells)) as [min_x E1]; [intros E; now rewrite E in Hx|].
  destruct (py_max_nonempty (l := map fst cells)) as [max_x E2]; [intros E; now rewrite E in Hx|].
  destruct (py_min_nonempty (l := map snd cells)) as [min_y E3]; [intros E; now rewrite E in Hy|].
  destruct (py_max_nonempty (l := map snd cells)) as [max_y E4]; [intros E; now rewrite E in Hy|].
  unfold make_groove_cutter, get_grid_lines_for_piece, piece_footprint.
  rewrite E1, E2, E3, E4. cbn [bind app].
  apply py_min_spec in E1 as [_ L1]. apply py_max_spec in E2 as [_ L2].
  specialize (L1 _ Hx). specialize (L2 _ Hx).
  set (bars := map _ (py_range min_x (max_x + 2)) ++ map _ (py_range min_y (max_y + 2))).
  assert (bars <> []) as Hb.
  { unfold bars. intros Hnil. apply app_eq_nil in Hnil as [Hnil _].
    apply map_eq_nil in Hnil.
    assert (In x (py_range min_x (max_x + 2))) as Hin by (apply py_range_In; lia).
    rewrite Hnil in Hin. destruct Hin. }
  destruct bars as [|b bs]; [congruence|].
  eexists. split; reflexivity.
Qed.

Section PipelineFacts.
Context {R : Type} {N : PyNum R}.
Variables Mesh Xform : Type.
Variable bake : Xform -> Mesh -> Mesh.
Variable xf_id : Xform.
Variable solve : Solver -> Operation -> Mesh -> Mesh -> option Mesh.
Variable faces_new_ok : list Face -> Face -> bool.
Variable to_mesh : BMesh R -> Mesh.
Variable bevel_apply : R -> Mesh -> Mesh.
Variable join_bars : list (PrimObject R) -> Mesh.
Variable normals_make_consistent : Mesh -> Mesh.

(** Steps 3 and 4 on objects fresh from their builders. *)
Lemma cut_grooves_outcome (pn cn trim : ObjName) (ext bars : Mesh)
  (keep : bool) (st : PipeState) :
  cut_grooves bake xf_id solve (mesh_object xf_id pn ext) (mesh_object xf_id cn bars)
              trim keep st
  = (Ok (mesh_object xf_id pn (fst (grooved bake xf_id solve ext bars))),
     {| ps_scene :=
          cutter_cleanup keep cn (objects_remove trim (new_object trim (ps_scene st)));
        ps_booleans := ps_booleans st ++ snd (grooved bake xf_id solve ext bars) |}).
Proof.
  unfold cut_grooves, run_apply_boolean. rewrite apply_boolean_outcome.
  unfold boolean_outcome, grooved, boolean_result, solver_runs, cutter_cleanup,
         with_scene, mesh_object, apply_rot_scale, set_data.
  cbn [w_target w_cutter w_solver_runs mo_data mo_rot_scale mo_name mo_modifiers
       fst snd ps_scene ps_booleans app].
  destruct (solve EXACT INTERSECT (bake xf_id bars) (bake xf_id ext)) as [trimmed|];
    [|destruct (solve FAST INTERSECT (bake xf_id bars) (bake xf_id ext)) as [trimmed|]];
    cbn [fst snd w_target w_cutter w_solver_runs mo_data mo_rot_scale mo_name
         mo_modifiers ps_scene ps_booleans app].
  1, 2: rewrite apply_boolean_outcome; unfold boolean_outcome, apply_rot_scale, set_data;
    cbn [w_target w_cutter w_solver_runs mo_data mo_rot_scale mo_name mo_modifiers
         fst snd ps_scene ps_booleans app];
    destruct (solve EXACT DIFFERENCE (bake xf_id ext) (bake xf_id trimmed)) as [m|];
    [|destruct (solve FAST DIFFERENCE (bake xf_id ext) (bake xf_id trimmed)) as [m|]];
    cbn [fst snd w_target w_cutter w_solver_runs mo_data mo_rot_scale mo_name
         mo_modifiers ps_scene ps_booleans app];
    destruct keep; cbn [negb]; rewrite <- ?app_assoc;
    try (destruct (obj_mem cn _)); reflexivity.
  destruct keep; cbn [negb]; try (destruct (obj_mem cn _)); reflexivity.
Qed.

End PipelineFacts.

Lemma object_names_differ (color piece_name : string) :
  piece_object_name color piece_name <> cutter_object_name color piece_name /\
  piece_object_name color piece_name <> trim_object_name color piece_name /\
  cutter_object_name color piece_name <> trim_object_name color piece_name.
Proof.
  unfold piece_object_name, cutter_object_name, trim_object_name, fstr.
  cbn [String.concat String.append]. repeat split; discriminate.
Qed.

Lemma create_piece_mesh_cases {R} {N : PyNum R} ok (name : ObjName) (cells : list Cell)
  (cell_size piece_t bevel_top : R) :
  (boundary_edges cells = [] /\
   create_piece_mesh ok name cells cell_size piece_t bevel_top = Some None) \/
  (boundary_edges cells <> [] /\ cells <> [] /\
   exists pm,
     create_piece_mesh ok name cells cell_size piece_t bevel_top = Some (Some pm) /\
     pm_name pm = name).
Proof.
  destruct (cells_to_outline_total cells) as (outline & E & Hempty & _).
  unfold create_piece_mesh. rewrite E. destruct outline as [|v0 outline].
  - left. split; [now apply Hempty | reflexivity].
  - right. assert (boundary_edges cells <> []) as Hb
      by (intros Hb; apply Hempty in Hb; discriminate).
    split; [exact Hb|]. split; [intros ->; now apply Hb|].
    eexists. split; reflexivity.
Qed.

(** The scene after the pipeline: where the three objects are. *)
Lemma pipeline_scene_facts (color piece_name : string) (keep : bool) (sc : Scene) :
  let sc' := pipeline_scene color piece_name keep sc in
  let pn := piece_object_name color piece_name in
  In pn (collection_objects (pieces_collection color) sc') /\
  ~ In pn (scene_objects sc') /\
  In pn (data_objects sc') /\
  ~ object_known (trim_object_name color piece_name) sc' /\
  (if keep
   then In (cutter_object_name color piece_name) (collection_objects "BLK_TMP" sc')
   else ~ object_known (cutter_object_name color piece_name) sc').
Proof.
  intros sc' pn. subst sc'. unfold pipeline_scene. fold pn.
  set (cn := cutter_object_name color piece_name).
  set (trim := trim_object_name color piece_name).
  destruct (object_names_differ color piece_name) as (Hpc & Hpt & Hct).
  fold pn cn trim in Hpc, Hpt, Hct.
  set (s1 := new_object trim (new_object cn (new_object pn sc))).
  set (s2 := objects_remove trim s1).
  set (s3 := cutter_cleanup keep cn s2).
  destruct (link_to_collection_fields pn (pieces_collection color) s3) as (Hd & Hs & Hc).
  assert (In pn (data_objects s2) /\ In cn (data_objects s2)) as [Hp2 Hc2].
  { unfold s2, s1. cbn [objects_remove data_objects new_object].
    rewrite !obj_remove_In, !in_app_iff. simpl. split; split; auto. }
  assert (~ object_known trim s2) as Ht2.
  { unfold s2. rewrite objects_remove_known. tauto. }
  assert (In pn (data_objects s3) /\ ~ object_known trim s3) as [Hp3 Ht3].
  { unfold s3, cutter_cleanup. destruct keep; cbn [negb].
    - destruct (link_to_collection_fields cn "BLK_TMP" s2) as (Hd' & _ & _).
      rewrite Hd'. split; [exact Hp2|].
      intros Hk. apply link_to_collection_known in Hk as [Hk|Hk]; [congruence | tauto].
    - destruct (obj_mem cn (data_objects s2)); [|tauto].
      cbn [objects_remove data_objects]. rewrite obj_remove_In, objects_remove_known.
      split; [tauto | tauto]. }
  split; [|split; [|split; [|split]]].
  - rewrite Hc, String.eqb_refl. apply in_or_app.
    destruct (obj_mem pn (collection_objects (pieces_collection color) s3)) eqn:E.
    + left. now apply obj_mem_In.
    + right. now left.
  - rewrite Hs, obj_remove_In. tauto.
  - now rewrite Hd.
  - intros Hk. apply link_to_collection_known in Hk as [Hk|Hk]; [congruence | tauto].
  - destruct keep.
    + rewrite Hc.
      assert (In cn (collection_objects "BLK_TMP" s3)) as Hin.
      { unfold s3, cutter_cleanup. cbn [negb].
        destruct (link_to_collection_fields cn "BLK_TMP" s2) as (_ & _ & Hc').
        rewrite Hc', String.eqb_refl. apply in_or_app.
        destruct (obj_mem cn (collection_objects "BLK_TMP" s2)) eqn:E.
        - left. now apply obj_mem_In.
        - right. now left. }
      destruct (String.eqb (pieces_collection color) "BLK_TMP") eqn:E; [|exact Hin].
      apply String.eqb_eq in E. apply in_or_app. left. now rewrite E.
    + intros Hk. apply link_to_collection_known in Hk as [Hk|Hk]; [congruence|].
      unfold s3, cutter_cleanup in Hk. cbn [negb] in Hk.
      apply obj_mem_In in Hc2. rewrite Hc2 in Hk.
      apply objects_remove_known in Hk. tauto.
Qed.

Section PipelineTheorems.
Context {R : Type} {N : PyNum R}.
Variables Mesh Xform : Type.
Variable bake : Xform -> Mesh -> Mesh.
Variable xf_id : Xform.
Variable solve : Solver -> Operation -> Mesh -> Mesh -> option Mesh.
Variable faces_new_ok : list Face -> Face -> bool.
Variable to_mesh : BMesh R -> Mesh.
Variable bevel_apply : R -> Mesh -> Mesh.
Variable join_bars : list (PrimObject R) -> Mesh.
Variable normals_make_consistent : Mesh -> Mesh.

(** The pipeline on a shape with a boundary, in one equation. *)
Lemma create_piece_with_grooves_eq (piece_name : string) (cells : list Cell)
  (color : string) (p : BLK_Properties R) (st : PipeState)
  (pm : PieceMesh R) (cutter : JoinedObject R) :
  create_piece_mesh faces_new_ok (piece_object_name color piece_name) cells
    (cell p) (piece_t p) (bevel_top p) = Some (Some pm) ->
  pm_name pm = piece_object_name color piece_name ->
  make_groove_cutter (cutter_object_name color piece_name) cells (cell p)
    (groove_w p) (groove_d p) (piece_t p) = Ok (Some cutter) ->
  joined_name cutter = cutter_object_name color piece_name ->
  let cut := grooved bake xf_id solve (extruded_mesh to_mesh bevel_apply pm)
                     (join_bars (joined_parts cutter)) in
  create_piece_with_grooves bake xf_id solve faces_new_ok to_mesh bevel_apply join_bars
    normals_make_consistent piece_name cells color p st
  = Some (Ok (Some {| piece_object :=
                        mesh_object xf_id (piece_object_name color piece_name)
                          (normals_make_consistent (fst cut));
                      piece_blk_cell := cell p;
                      piece_blk_clear := clear p;
                      piece_blk_piece_name := piece_name;
                      piece_blk_color := color |}),
          {| ps_scene := pipeline_scene color piece_name (keep_cutters p) (ps_scene st);
             ps_booleans := ps_booleans st ++ snd cut |}).
Proof.
  intros Em Hn Ec Hc cut. unfold create_piece_with_grooves.
  fold (piece_object_name color piece_name) (cutter_object_name color piece_name)
       (trim_object_name color piece_name).
  rewrite Em, Ec, Hn, Hc. fold (extruded_mesh to_mesh bevel_apply pm).
  rewrite cut_grooves_outcome. reflexivity.
Qed.

(** X12: the pipeline always returns, and a piece it returns is labelled
    and filed.  For any cells, colour and parameters
    [create_piece_with_grooves] raises nothing.  It returns [None],
    leaving the scene as it was, exactly when no side belongs to one cell
    only, which covers the empty cell list: [make_groove_cutter] is not
    called then, so that its ValueError on no cells cannot occur here.
    Otherwise it returns the object BLK_P_<color>_<piece_name> carrying
    the four custom properties; the object is in the data and in the
    collection BLK_PIECES_<color> and no longer in the scene collection;
    the copy made for the trim is gone; the cutter is in BLK_TMP when
    [keep_cutters] is set and gone otherwise. *)
Theorem create_piece_with_grooves_returns :
  forall (piece_name : string) (cells : list Cell) (color : string)
         (p : BLK_Properties R) (st : PipeState),
    exists r st',
      create_piece_with_grooves bake xf_id solve faces_new_ok to_mesh bevel_apply
        join_bars normals_make_consistent piece_name cells color p st
        = Some (Ok r, st') /\
      match r with
      | None => boundary_edges cells = [] /\ st' = st
      | Some piece =>
          let name := piece_object_name color piece_name in
          boundary_edges cells <> [] /\
          mo_name (piece_object piece) = name /\
          piece_blk_cell piece = cell p /\ piece_blk_clear piece = clear p /\
          piece_blk_piece_name piece = piece_name /\ piece_blk_color piece = color /\
          In name (data_objects (ps_scene st')) /\
          In name (collection_objects (pieces_collection color) (ps_scene st')) /\
          ~ In name (scene_objects (ps_scene st')) /\
          ~ object_known (trim_object_name color piece_name) (ps_scene st') /\
          (if keep_cutters p
           then In (cutter_object_name color piece_name)
                   (collection_objects "BLK_TMP" (ps_scene st'))
           else ~ object_known (cutter_object_name color piece_name) (ps_scene st'))
      end.
Proof.
  intros piece_name cells color p st.
  destruct (create_piece_mesh_cases faces_new_ok (piece_object_name color piece_name)
              cells (cell p) (piece_t p) (bevel_top p))
    as [[Hb Em]|(Hb & Hne & pm & Em & Hn)].
  - exists None, st. split; [|split; [exact Hb | reflexivity]].
    unfold create_piece_with_grooves.
    fold (piece_object_name color piece_name). now rewrite Em.
  - destruct (make_groove_cutter_ok (cutter_object_name color piece_name)
                (cell p) (groove_w p) (groove_d p) (piece_t p) Hne)
      as (cutter & Ec & Hc).
    do 2 eexists. split.
    + apply (@create_piece_with_grooves_eq piece_name cells color p st pm cutter Em Hn Ec Hc).
    + destruct (pipeline_scene_facts color piece_name (keep_cutters p) (ps_scene st))
        as (H1 & H2 & H3 & H4 & H5).
      cbn [piece_object piece_blk_cell piece_blk_clear piece_blk_piece_name
           piece_blk_color ps_scene mo_name mesh_object].
      repeat split; assumption.
Qed.

(** X13: the grooves are cut only after a successful trim, and a failed
    Boolean leaves the piece whole.  For a shape that gives an extrusion
    and a cutter, the pipeline first intersects the bars with a copy of
    the piece, exact solver first and fast solver on failure.  If both
    fail, no subtraction is attempted and the piece is its extrusion with
    the normals made consistent.  If the trim succeeds, the trimmed bars
    are subtracted from the piece under the same retry policy; the piece
    is the result when one solver succeeds and the extrusion otherwise.
    The calls of [apply_boolean] made are those and no other. *)
Theorem create_piece_with_grooves_boolean_policy :
  forall (piece_name : string) (cells : list Cell) (color : string)
         (p : BLK_Properties R) (st : PipeState)
         (pm : PieceMesh R) (cutter : JoinedObject R),
    create_piece_mesh faces_new_ok (piece_object_name color piece_name) cells
      (cell p) (piece_t p) (bevel_top p) = Some (Some pm) ->
    make_groove_cutter (cutter_object_name color piece_name) cells (cell p)
      (groove_w p) (groove_d p) (piece_t p) = Ok (Some cutter) ->
    let ext := extruded_mesh to_mesh bevel_apply pm in
    let bars := join_bars (joined_parts cutter) in
    exists piece st',
      create_piece_with_grooves bake xf_id solve faces_new_ok to_mesh bevel_apply
        join_bars normals_make_consistent piece_name cells color p st
        = Some (Ok (Some piece), st') /\
      match boolean_result solve INTERSECT (bake xf_id bars) (bake xf_id ext) with
      | None =>
          mo_data (piece_object piece) = normals_make_consistent ext /\
          ps_booleans st' = ps_booleans st ++ [(INTERSECT, [EXACT; FAST])]
      | Some trimmed =>
          let runs1 := solver_runs solve INTERSECT (bake xf_id bars) (bake xf_id ext) in
          let runs2 :=
            solver_runs solve DIFFERENCE (bake xf_id ext) (bake xf_id trimmed) in
          ps_booleans st' = ps_booleans st ++ [(INTERSECT, runs1); (DIFFERENCE, runs2)] /\
          match boolean_result solve DIFFERENCE (bake xf_id ext) (bake xf_id trimmed) with
          | Some mesh => mo_data (piece_object piece) = normals_make_consistent mesh
          | None =>
              mo_data (piece_object piece) = normals_make_consistent (bake xf_id ext)
          end
      end.
Proof.
  intros piece_name cells color p st pm cutter Em Ec ext bars.
  assert (pm_name pm = piece_object_name color piece_name) as Hn.
  { destruct (create_piece_mesh_cases faces_new_ok (piece_object_name color piece_name)
                cells (cell p) (piece_t p) (bevel_top p))
      as [[_ Em']|(_ & _ & pm' & Em' & Hn)]; congruence. }
  assert (joined_name cutter = cutter_object_name color piece_name) as Hc.
  { assert (cells <> []) as Hne by (intros ->; discriminate Ec).
    destruct (make_groove_cutter_ok (cutter_object_name color piece_name)
                (cell p) (groove_w p) (groove_d p) (piece_t p) Hne)
      as (cutter' & Ec' & Hc). congruence. }
  do 2 eexists. split.
  - apply (@create_piece_with_grooves_eq piece_name cells color p st pm cutter Em Hn Ec Hc).
  - cbn [piece_object mo_data mesh_object ps_booleans]. fold ext bars.
    unfold grooved, solver_runs, boolean_result.
    destruct (solve EXACT INTERSECT (bake xf_id bars) (bake xf_id ext)) as [t|];
      [|destruct (solve FAST INTERSECT (bake xf_id bars) (bake xf_id ext)) as [t|]];
      cbn [fst snd]; try (split; reflexivity);
      (split; [reflexivity|]);
      destruct (solve EXACT DIFFERENCE (bake xf_id ext) (bake xf_id t)) as [m|];
      [|destruct (solve FAST DIFFERENCE (bake xf_id ext) (bake xf_id t)) as [m|]| |
        destruct (solve FAST DIFFERENCE (bake xf_id ext) (bake xf_id t)) as [m|]];
      reflexivity.
Qed.

End PipelineTheorems.

Lemma create_piece_with_grooves_boolean_policy_witness :
  exists piece st',
    create_piece_with_grooves (fun (_ : unit) (m : nat) => m) tt
      (fun _ _ _ _ => None) (fun _ _ => true) (fun _ : BMesh Q => 0%nat)
      (fun _ m => m) (fun _ => 1%nat) (fun m => m)
      "I1" [(0, 0)] "RED" (default_params (R:=Q))
      {| ps_scene := {| data_objects := []; data_collections := [];
                        scene_children := []; scene_objects := [] |};
         ps_booleans := [] |}
    = Some (Ok (Some piece), st') /\
    ps_booleans st' = [(INTERSECT, [EXACT; FAST])].
Proof.
  assert (exists pm,
            create_piece_mesh (fun _ _ => true) (piece_object_name "RED" "I1") [(0, 0)]
              (cell (default_params (R:=Q))) (piece_t (default_params (R:=Q)))
              (bevel_top (default_params (R:=Q))) = Some (Some pm)) as [pm Em]
    by (eexists; reflexivity).
  assert (exists cutter,
            make_groove_cutter (cutter_object_name "RED" "I1") [(0, 0)]
              (cell (default_params (R:=Q))) (groove_w (default_params (R:=Q)))
              (groove_d (default_params (R:=Q))) (piece_t (default_params (R:=Q)))
            = Ok (Some cutter)) as [cutter Ec]
    by (eexists; reflexivity).
  destruct (@create_piece_with_grooves_boolean_policy Q _ nat unit
              (fun (_ : unit) (m : nat) => m) tt
              (fun _ _ _ _ => None) (fun _ _ => true) (fun _ : BMesh Q => 0%nat)
              (fun _ m => m) (fun _ => 1%nat) (fun m => m)
              "I1" [(0, 0)] "RED" (default_params (R:=Q))
              {| ps_scene := {| data_objects := []; data_collections := [];
                                scene_children := []; scene_objects := [] |};
                 ps_booleans := [] |}
              pm cutter Em Ec) as (piece & st' & E & H).
  exists piece, st'. split; [exact E|]. cbn in H. apply H.
Defined.

(** ** The operator [BLK_OT_GeneratePieces] *)

Lemma append_inj_r (s a b : string) : String.append s a = String.append s b -> a = b.
Proof.
  induction s as [|c s IH]; cbn [String.append]; intros E; [exact E|].
  injection E as E. now apply IH.
Qed.

Lemma piece_object_name_inj (color a b : string) :
  piece_object_name color a = piece_object_name color b -> a = b.
Proof.
  unfold piece_object_name, fstr. cbn [String.concat String.append]. intros E.
  injection E as E. apply append_inj_r in E. cbn [String.append] in E.
  now injection E.
Qed.

Lemma pieces_collection_inj (a b : string) :
  pieces_collection a = pieces_collection b -> a = b.
Proof.
  unfold pieces_collection. apply append_inj_r.
Qed.

Lemma pieces_collection_not_tmp (color : string) :
  pieces_collection color <> "BLK_TMP"%string.
Proof. unfold pieces_collection. cbn [String.append]. discriminate. Qed.

Lemma piece_named_not_temporary (o : ObjName) (color piece_name : string) :
  piece_named o ->
  o <> cutter_object_name color piece_name /\ o <> trim_object_name color piece_name.
Proof.
  intros (c & n & ->).
  unfold piece_object_name, cutter_object_name, trim_object_name, fstr.
  cbn [String.concat String.append]. split; discriminate.
Qed.

(** Which collections exist after each step of the pipeline. *)
Lemma new_object_has (x : ObjName) (name : string) (sc : Scene) :
  has_collection name (new_object x sc) = has_collection name sc.
Proof. reflexivity. Qed.

Lemma objects_remove_has (x : ObjName) (name : string) (sc : Scene) :
  has_collection name (objects_remove x sc) = has_collection name sc.
Proof.
  unfold has_collection, objects_remove. cbn [data_collections].
  induction (data_collections sc) as [|[k v] d IH]; [reflexivity|].
  cbn [map existsb fst]. now rewrite IH.
Qed.

Lemma link_to_collection_has (obj : ObjName) (col other : string) (sc : Scene) :
  has_collection other (link_to_collection obj col sc) =
  String.eqb col other || has_collection other sc.
Proof.
  unfold link_to_collection.
  set (s0 := get_or_create_collection col sc).
  assert (has_collection other s0 = String.eqb col other || has_collection other sc) as H0.
  { destruct (String.eqb col other) eqn:E.
    - apply String.eqb_eq in E. subst other. apply get_or_create_collection_has.
    - apply String.eqb_neq in E. apply get_or_create_collection_other. congruence. }
  set (s1 := if negb (obj_mem obj (collection_objects col s0))
             then collection_link obj col s0 else s0).
  assert (has_collection other s1 = String.eqb col other || has_collection other sc) as H1.
  { unfold s1. destruct (negb _); [|exact H0].
    rewrite collection_link_has, H0. now destruct (String.eqb col other). }
  destruct (obj_mem obj (scene_objects s1)); exact H1.
Qed.

Lemma pipeline_scene_has (color piece_name other : string) (keep : bool) (sc : Scene) :
  has_collection other (pipeline_scene color piece_name keep sc) =
  String.eqb (pieces_collection color) other
  || ((keep && String.eqb "BLK_TMP" other) || has_collection other sc).
Proof.
  unfold pipeline_scene. rewrite link_to_collection_has. f_equal.
  unfold cutter_cleanup. destruct keep; cbn [negb andb].
  - rewrite link_to_collection_has, objects_remove_has, !new_object_has. reflexivity.
  - destruct (obj_mem _ _); rewrite !objects_remove_has, !new_object_has; reflexivity.
Qed.

(** A collection of pieces after one more piece: only the collection of
    its colour changes, by the piece added at the end. *)
Lemma pipeline_scene_collection (color piece_name col : string) (keep : bool)
  (sc : Scene) :
  col <> "BLK_TMP"%string ->
  (forall o, In o (collection_objects col sc) -> piece_named o) ->
  collection_objects col (pipeline_scene color piece_name keep sc) =
  if String.eqb (pieces_collection color) col
  then collection_objects col sc
       ++ (if obj_mem (piece_object_name color piece_name) (collection_objects col sc)
           then [] else [piece_object_name color piece_name])
  else collection_objects col sc.
Proof.
  intros Htmp Hp. unfold pipeline_scene.
  set (pn := piece_object_name color piece_name).
  set (cn := cutter_object_name color piece_name).
  set (trim := trim_object_name color piece_name).
  set (s2 := objects_remove trim (new_object trim (new_object cn (new_object pn sc)))).
  assert (collection_objects col s2 = collection_objects col sc) as H2.
  { unfold s2. rewrite objects_remove_collection, !new_object_collection.
    apply obj_remove_absent. intros Hin.
    now destruct (piece_named_not_temporary color piece_name (Hp _ Hin)) as [_ Ht]. }
  assert (collection_objects col (cutter_cleanup keep cn s2)
          = collection_objects col s2) as H3.
  { unfold cutter_cleanup. destruct keep; cbn [negb].
    - destruct (link_to_collection_fields cn "BLK_TMP" s2) as (_ & _ & Hl).
      rewrite Hl. destruct (String.eqb "BLK_TMP" col) eqn:E; [|reflexivity].
      apply String.eqb_eq in E. now elim Htmp.
    - destruct (obj_mem cn (data_objects s2)); [|reflexivity].
      rewrite objects_remove_collection. apply obj_remove_absent.
      rewrite H2. intros Hin.
      now destruct (piece_named_not_temporary color piece_name (Hp _ Hin)) as [Hc _]. }
  destruct (link_to_collection_fields pn (pieces_collection color)
              (cutter_cleanup keep cn s2)) as (_ & _ & Hl).
  rewrite Hl. destruct (String.eqb (pieces_collection color) col) eqn:E.
  - apply String.eqb_eq in E. rewrite E, H3, H2. reflexivity.
  - rewrite H3, H2. reflexivity.
Qed.

Lemma pieces_scene_has (color other : string) (keep : bool) (names : list string)
  (sc : Scene) :
  other <> pieces_collection color ->
  keep = false \/ other <> "BLK_TMP"%string ->
  has_collection other (pieces_scene color keep names sc) = has_collection other sc.
Proof.
  intros Hc Ht. revert sc. unfold pieces_scene.
  induction names as [|n names IH]; intros sc; [reflexivity|].
  cbn [fold_left]. rewrite IH, pipeline_scene_has.
  replace (String.eqb (pieces_collection color) other) with false
    by (symmetry; apply String.eqb_neq; congruence).
  destruct Ht as [-> |Ht]; [reflexivity|].
  replace (String.eqb "BLK_TMP" other) with false
    by (symmetry; apply String.eqb_neq; congruence).
  now rewrite andb_false_r.
Qed.

Lemma pieces_scene_collection (color col : string) (keep : bool) (names : list string) :
  col <> "BLK_TMP"%string -> NoDup names ->
  forall sc : Scene,
    (forall o, In o (collection_objects col sc) -> piece_named o) ->
    (forall n, In n names -> ~ In (piece_object_name color n) (collection_objects col sc)) ->
    collection_objects col (pieces_scene color keep names sc) =
    if String.eqb (pieces_collection color) col
    then collection_objects col sc ++ map (piece_object_name color) names
    else collection_objects col sc.
Proof.
  intros Htmp Hnd. unfold pieces_scene.
  induction Hnd as [|n names Hn Hnd IH]; intros sc Hp Hfresh.
  - cbn [fold_left map]. rewrite app_nil_r. now destruct (String.eqb _ _).
  - cbn [fold_left map].
    pose proof (@pipeline_scene_collection color n col keep sc Htmp Hp) as E1.
    replace (obj_mem (piece_object_name color n) (collection_objects col sc))
      with false in E1
      by (symmetry; apply obj_mem_false; apply Hfresh; now left).
    rewrite IH.
    + rewrite E1. destruct (String.eqb (pieces_collection color) col); [|reflexivity].
      now rewrite <- app_assoc.
    + intros o. rewrite E1.
      destruct (String.eqb (pieces_collection color) col); [|apply Hp].
      rewrite in_app_iff. intros [Hin|[<-|[]]]; [now apply Hp|].
      now exists color, n.
    + intros m Hm. rewrite E1.
      destruct (String.eqb (pieces_collection color) col);
        [|apply Hfresh; now right].
      rewrite in_app_iff. intros [Hin|[E|[]]].
      * revert Hin. apply Hfresh. now right.
      * apply piece_object_name_inj in E. subst m. now apply Hn.
Qed.

Lemma colors_scene_has (other : string) (keep : bool) (colors : list string)
  (sc : Scene) :
  (forall c, In c colors -> other <> pieces_collection c) ->
  keep = false \/ other <> "BLK_TMP"%string ->
  has_collection other (colors_scene keep colors sc) = has_collection other sc.
Proof.
  intros Hc Ht. revert sc. unfold colors_scene.
  induction colors as [|c colors IH]; intros sc; [reflexivity|].
  cbn [fold_left]. rewrite IH by (intros c' Hc'; apply Hc; now right).
  apply pieces_scene_has; [apply Hc; now left | exact Ht].
Qed.

Lemma catalogue_names_NoDup : NoDup (map fst PIECES).
Proof.
  cbv [PIECES map fst].
  repeat (constructor; [cbn [In]; intuition discriminate|]). constructor.
Qed.

(** A collection of pieces is left alone by the colours it is not of. *)
Lemma pieces_scene_other (c col : string) (keep : bool) (names : list string) :
  col <> "BLK_TMP"%string -> pieces_collection c <> col ->
  forall sc : Scene,
    (forall o, In o (collection_objects col sc) -> piece_named o) ->
    collection_objects col (pieces_scene c keep names sc) = collection_objects col sc.
Proof.
  intros Htmp Hc. unfold pieces_scene.
  induction names as [|n names IHn]; intros sc Hp; [reflexivity|].
  cbn [fold_left].
  pose proof (@pipeline_scene_collection c n col keep sc Htmp Hp) as E1.
  replace (String.eqb (pieces_collection c) col) with false in E1
    by (symmetry; now apply String.eqb_neq).
  rewrite IHn; [exact E1|]. intros o. rewrite E1. apply Hp.
Qed.

Lemma colors_scene_other (col : string) (keep : bool) (colors : list string) :
  col <> "BLK_TMP"%string ->
  (forall c, In c colors -> pieces_collection c <> col) ->
  forall sc : Scene,
    (forall o, In o (collection_objects col sc) -> piece_named o) ->
    collection_objects col (colors_scene keep colors sc) = collection_objects col sc.
Proof.
  intros Htmp. unfold colors_scene.
  induction colors as [|c colors IH]; intros Hc sc Hp; [reflexivity|].
  cbn [fold_left].
  assert (collection_objects col (pieces_scene c keep (map fst PIECES) sc)
          = collection_objects col sc) as E
    by (apply pieces_scene_other; [exact Htmp | apply Hc; now left | exact Hp]).
  rewrite IH.
  - exact E.
  - intros c' Hc'. apply Hc. now right.
  - intros o. rewrite E. apply Hp.
Qed.

(** The collection of a colour that is generated, empty before, holds the
    pieces of the catalogue afterwards. *)
Lemma colors_scene_collection (color : string) (keep : bool) (colors : list string) :
  NoDup colors -> In color colors ->
  forall sc : Scene,
    collection_objects (pieces_collection color) sc = [] ->
    collection_objects (pieces_collection color) (colors_scene keep colors sc)
    = map (fun nc => piece_object_name color (fst nc)) PIECES.
Proof.
  intros Hnd. unfold colors_scene.
  induction Hnd as [|c colors Hc Hnd IH]; intros Hin sc Hempty; [destruct Hin|].
  cbn [fold_left]. fold (colors_scene keep colors (pieces_scene c keep (map fst PIECES) sc)).
  pose proof (@pieces_scene_collection c (pieces_collection color) keep (map fst PIECES)
                (@pieces_collection_not_tmp color) catalogue_names_NoDup sc) as E.
  rewrite Hempty in E. specialize (E (fun o H => match H with end)
                                     (fun n _ H => match H with end)).
  cbn [app] in E.
  destruct (String.eqb (pieces_collection c) (pieces_collection color)) eqn:Ec.
  - apply String.eqb_eq, pieces_collection_inj in Ec. subst c.
    rewrite colors_scene_other.
    + rewrite E. now rewrite map_map.
    + apply pieces_collection_not_tmp.
    + intros c' Hc' Heq. apply pieces_collection_inj in Heq. subst c'. now apply Hc.
    + intros o. rewrite E, in_map_iff. intros (n & <- & _). now exists color, n.
  - destruct Hin as [->|Hin]; [now rewrite String.eqb_refl in Ec|].
    unfold colors_scene. apply IH; assumption.
Qed.

(** The wipes [execute] starts with. *)
Lemma wipe_colors_as_wipe_all (colors : list string) (st : PipeState) :
  fold_left (fun st color => with_scene (wipe_collection (pieces_collection color)) st)
            colors st
  = with_scene (wipe_all (map pieces_collection colors)) st.
Proof.
  revert st. induction colors as [|c colors IH]; intros st.
  - now destruct st.
  - cbn [fold_left map]. rewrite IH. reflexivity.
Qed.

Lemma enabled_colors_NoDup {R} (p : BLK_Properties R) : NoDup (enabled_colors p).
Proof.
  unfold enabled_colors.
  destruct (color_red p), (color_blue p), (color_yellow p), (color_green p);
    cbn [app]; repeat (constructor; [cbn; intuition discriminate|]); constructor.
Qed.

Lemma py_enumerate_snd {A} (l : list A) : map snd (py_enumerate l) = l.
Proof.
  unfold py_enumerate. generalize 0%nat. induction l as [|x l IH]; intros k.
  - reflexivity.
  - cbn [List.length seq map combine snd]. now rewrite IH.
Qed.

Lemma catalogue_has_boundary :
  forall nc, In nc PIECES -> boundary_edges (snd nc) <> [].
Proof.
  apply Forall_forall. unfold PIECES.
  repeat (constructor; [vm_compute; discriminate|]). constructor.
Qed.

Lemma validate_pieces_catalogue : validate_pieces = Some (Ok (true, [])).
Proof. reflexivity. Qed.

(** The layout raises nothing and moves every object it is given. *)
Section LayoutTotal.
Context {R : Type} {N : PyNum R}.

Lemma bbox_area_total (obj : PieceObject R) : exists a, bbox_area obj = Ok a.
Proof.
  unfold bbox_area, bound_box.
  destruct (po_bb_min obj) as [[x0 y0] z0], (po_bb_max obj) as [[x1 y1] z1].
  eexists. reflexivity.
Qed.

Lemma insert_desc_length {A} (x : R * A) (l : list (R * A)) :
  List.length (insert_desc x l) = S (List.length l).
Proof.
  induction l as [|y l IH]; [reflexivity|].
  cbn [insert_desc]. destruct (nltb (fst x) (fst y)); cbn [List.length]; now rewrite ?IH.
Qed.

Lemma sort_by_area_total (objs : list (PieceObject R)) :
  exists sorted, sort_by_area objs = Ok sorted /\ List.length sorted = List.length objs.
Proof.
  unfold sort_by_area.
  assert (exists keyed,
            result_map (fun obj => bind (bbox_area obj) (fun k => Ok (k, obj))) objs
            = Ok keyed /\ List.length keyed = List.length objs) as (keyed & E & Hlen).
  { induction objs as [|o objs (keyed & E & Hlen)].
    - exists []. split; reflexivity.
    - destruct (bbox_area_total o) as [a Ea]. exists ((a, o) :: keyed).
      cbn [result_map]. rewrite Ea. cbn [bind]. rewrite E. cbn [bind List.length].
      split; [reflexivity | now rewrite Hlen]. }
  rewrite E. cbn [bind]. eexists. split; [reflexivity|].
  rewrite length_map, <- Hlen. unfold sort_desc.
  clear. induction keyed as [|k keyed IH]; [reflexivity|].
  cbn [fold_right]. rewrite insert_desc_length. cbn [List.length]. now rewrite IH.
Qed.

Lemma place_piece_total (gap max_row_width : R) (st : Shelf R) (obj : PieceObject R) :
  exists st' obj', place_piece gap max_row_width st obj = Ok (st', obj').
Proof.
  unfold place_piece, bound_box.
  destruct (po_bb_min obj) as [[x0 y0] z0], (po_bb_max obj) as [[x1 y1] z1].
  cbn [map py_max py_min bind]. destruct (po_location obj) as [[lx ly] lz].
  do 2 eexists. reflexivity.
Qed.

Lemma shelf_loop_total (gap max_row_width : R) (objs : list (PieceObject R)) :
  forall st, exists placed,
    shelf_loop gap max_row_width st objs = Ok placed /\
    List.length placed = List.length objs.
Proof.
  induction objs as [|o objs IH]; intros st.
  - exists []. split; reflexivity.
  - destruct (place_piece_total gap max_row_width st o) as (st' & o' & E).
    destruct (IH st') as (placed & E' & Hlen).
    exists (o' :: placed). cbn [shelf_loop]. rewrite E. cbn [bind]. rewrite E'.
    cbn [bind List.length]. split; [reflexivity | now rewrite Hlen].
Qed.

Lemma layout_pieces_shelf_total (color : string) (objs : list (PieceObject R))
  (gap cell : R) :
  exists placed,
    layout_pieces_shelf color objs gap cell = Ok placed /\
    List.length placed = List.length objs.
Proof.
  unfold layout_pieces_shelf. destruct objs as [|o objs].
  - exists []. split; reflexivity.
  - destruct (sort_by_area_total (o :: objs)) as (sorted & E & Hlen).
    rewrite E. cbn [bind]. rewrite <- Hlen. apply shelf_loop_total.
Qed.

End LayoutTotal.

Section GeneratePiecesFacts.
Context {R : Type} {N : PyNum R}.
Variables Mesh Xform : Type.
Variable bake : Xform -> Mesh -> Mesh.
Variable xf_id : Xform.
Variable solve : Solver -> Operation -> Mesh -> Mesh -> option Mesh.
Variable faces_new_ok : list Face -> Face -> bool.
Variable to_mesh : BMesh R -> Mesh.
Variable bevel_apply : R -> Mesh -> Mesh.
Variable join_bars : list (PrimObject R) -> Mesh.
Variable normals_make_consistent : Mesh -> Mesh.
Variable bound_box_of : Mesh -> Vec3 R * Vec3 R.

(** The inner loop on shapes with a boundary: a piece for each. *)
Lemma create_pieces_ok (color : string) (p : BLK_Properties R)
  (pieces : list (string * list Cell)) :
  (forall nc, In nc pieces -> boundary_edges (snd nc) <> []) ->
  forall st : PipeState,
  exists objs st',
    create_pieces bake xf_id solve faces_new_ok to_mesh bevel_apply join_bars
      normals_make_consistent pieces color p st = Some (Ok objs, st') /\
    map piece_label objs
    = map (fun nc => (fst nc, color, cell p, clear p, piece_object_name color (fst nc)))
          pieces /\
    ps_scene st' = pieces_scene color (keep_cutters p) (map fst pieces) (ps_scene st).
Proof.
  induction pieces as [|[piece_name cells] pieces IH]; intros Hb st.
  - exists [], st. repeat split.
  - destruct (create_piece_mesh_cases faces_new_ok (piece_object_name color piece_name)
                cells (cell p) (piece_t p) (bevel_top p))
      as [[Hnil _]|(_ & Hne & pm & Em & Hn)].
    { exfalso. apply (Hb (piece_name, cells)); [now left | exact Hnil]. }
    destruct (make_groove_cutter_ok (cutter_object_name color piece_name)
                (cell p) (groove_w p) (groove_d p) (piece_t p) Hne)
      as (cutter & Ec & Hc).
    pose proof (@create_piece_with_grooves_eq R N Mesh Xform bake xf_id solve faces_new_ok
                  to_mesh bevel_apply join_bars normals_make_consistent
                  piece_name cells color p st pm cutter Em Hn Ec Hc) as E.
    cbv zeta in E.
    match type of E with _ = Some (Ok (Some ?pc), ?s1) =>
      destruct (IH (fun nc H => Hb nc (or_intror H)) s1) as (objs & st' & E' & Hl & Hs);
      exists (pc :: objs), st'
    end.
    cbn [create_pieces]. rewrite E, E'. split; [reflexivity|].
    split.
    + cbn [map fst]. now rewrite Hl.
    + rewrite Hs. reflexivity.
Qed.

(** The loop on the colours. *)
Lemma generate_colors_ok (p : BLK_Properties R) (cols : list (Z * string)) :
  forall st : PipeState,
  exists made laid st',
    generate_colors bake xf_id solve faces_new_ok to_mesh bevel_apply join_bars
      normals_make_consistent bound_box_of cols p st = Some (Ok (made, laid), st') /\
    ps_scene st' = colors_scene (keep_cutters p) (map snd cols) (ps_scene st) /\
    map fst made = map snd cols /\
    (forall g, In g made ->
       map piece_label (snd g)
       = map (fun nc => (fst nc, fst g, cell p, clear p, piece_object_name (fst g) (fst nc)))
             PIECES) /\
    map fst laid = map snd cols /\
    (forall g, In g laid -> List.length (snd g) = 21%nat).
Proof.
  induction cols as [|[ci color] cols IH]; intros st.
  - exists [], [], st. repeat split; intros g [].
  - destruct (@create_pieces_ok color p PIECES catalogue_has_boundary st)
      as (objs & st1 & E1 & Hl & Hs).
    destruct (layout_pieces_shelf_total color (map (layout_view bound_box_of) objs)
                (layout_gap p) (cell p)) as (placed & E2 & Hlen).
    destruct (IH st1) as (made & laid & st' & E3 & Hs' & Hm & Hlab & Hlaid & Hn).
    eexists ((color, objs) :: made), (_ :: laid), st'.
    cbn [generate_colors]. rewrite E1, E2, E3.
    split; [reflexivity|]. split; [|split; [|split; [|split]]].
    + rewrite Hs', Hs. reflexivity.
    + cbn [map fst snd]. now rewrite Hm.
    + intros g [<-|Hg]; [exact Hl | now apply Hlab].
    + cbn [map fst snd]. now rewrite Hlaid.
    + intros g [<-|Hg]; [|now apply Hn].
      cbn [snd]. rewrite length_map, Hlen, length_map.
      apply (f_equal (@List.length _)) in Hl. rewrite !length_map in Hl.
      exact Hl.
Qed.

Lemma total_pieces_const (n : nat) (made : list (string * list (Piece R Mesh Xform))) :
  (forall g, In g made -> List.length (snd g) = n) ->
  total_pieces made = (Z.of_nat n * Z.of_nat (List.length made))%Z.
Proof.
  unfold total_pieces. intros Hn.
  assert (forall acc,
            fold_left (fun total (g : string * list (Piece R Mesh Xform)) =>
                         (total + Z.of_nat (List.length (snd g)))%Z) made acc
            = (acc + Z.of_nat n * Z.of_nat (List.length made))%Z) as H.
  { induction made as [|g made IH]; intros acc.
    - cbn [fold_left List.length]. lia.
    - cbn [fold_left]. rewrite IH by (intros g' Hg'; apply Hn; now right).
      rewrite (Hn g) by now left. cbn [List.length]. lia. }
  rewrite H. lia.
Qed.

End GeneratePiecesFacts.

Section GeneratePiecesTheorems.
Context {R : Type} {N : PyNum R}.
Variables Mesh Xform : Type.
Variable bake : Xform -> Mesh -> Mesh.
Variable xf_id : Xform.
Variable solve : Solver -> Operation -> Mesh -> Mesh -> option Mesh.
Variable faces_new_ok : list Face -> Face -> bool.
Variable to_mesh : BMesh R -> Mesh.
Variable bevel_apply : R -> Mesh -> Mesh.
Variable join_bars : list (PrimObject R) -> Mesh.
Variable normals_make_consistent : Mesh -> Mesh.
Variable bound_box_of : Mesh -> Vec3 R * Vec3 R.

(** X18: Generate Pieces makes the 21 pieces of every enabled colour and
    leaves each colour's collection holding exactly those.  On any scene
    and for any parameters the operator raises nothing.  When
    [validate_params] rejects the parameters it is cancelled with those
    messages as errors and the scene is untouched.  Otherwise it finishes
    and reports 21 pieces per enabled colour; the pieces of a colour come
    in the order of the catalogue, each carrying its piece name, its
    colour, the cell size and the clearance, and all 21 are laid out; the
    collection BLK_PIECES_<color> of an enabled colour holds the 21
    objects BLK_P_<color>_<name> and nothing else, whatever it held
    before (objects being known by the name the code gives them); a
    collection that is neither BLK_TMP nor that of an enabled
    colour exists afterwards exactly if it did before, so that the pieces
    of a colour since disabled are not cleared; and BLK_TMP is gone
    unless [keep_cutters] is set. *)
Theorem generate_pieces_fills_enabled_collections :
  forall (p : BLK_Properties R) (st : PipeState),
  exists run,
    BLK_OT_GeneratePieces_execute bake xf_id solve faces_new_ok to_mesh bevel_apply
      join_bars normals_make_consistent bound_box_of p st = Some (Ok run) /\
    if fst (validate_params p) then
      let sc' := ps_scene (pr_state run) in
      pr_status run = FINISHED /\
      pr_reports run =
        [(INFO, Report_generated (21 * Z.of_nat (List.length (enabled_colors p))))] /\
      map fst (pr_pieces run) = enabled_colors p /\
      (forall color objs, In (color, objs) (pr_pieces run) ->
         map piece_label objs
         = map (fun nc => (fst nc, color, cell p, clear p,
                           piece_object_name color (fst nc))) PIECES) /\
      map fst (pr_placed run) = enabled_colors p /\
      (forall color placed, In (color, placed) (pr_placed run) ->
         List.length placed = 21%nat) /\
      (forall color, In color (enabled_colors p) ->
         collection_objects (pieces_collection color) sc'
         = map (fun nc => piece_object_name color (fst nc)) PIECES) /\
      (forall other, other <> "BLK_TMP"%string ->
         (forall c, In c (enabled_colors p) -> other <> pieces_collection c) ->
         has_collection other sc' = has_collection other (ps_scene st)) /\
      (keep_cutters p = false -> has_collection "BLK_TMP" sc' = false)
    else
      pr_status run = CANCELLED /\
      pr_reports run = map (fun m => (ERROR, Report_param_msg m)) (snd (validate_params p)) /\
      pr_state run = st /\ pr_pieces run = [] /\ pr_placed run = [].
Proof.
  intros p st. unfold BLK_OT_GeneratePieces_execute.
  rewrite validate_pieces_catalogue. cbn [negb].
  destruct (validate_params p) as [ok msgs]. cbn [fst snd].
  destruct ok; cbn [negb]; [|eexists; split; [reflexivity|]; repeat split].
  rewrite wipe_colors_as_wipe_all.
  set (colors := enabled_colors p).
  set (st0 := with_scene (wipe_collection "BLK_TMP")
                (with_scene (wipe_all (map pieces_collection colors)) st)).
  destruct (generate_colors_ok bake xf_id solve faces_new_ok to_mesh bevel_apply
              join_bars normals_make_consistent bound_box_of p (py_enumerate colors) st0)
    as (made & laid & st' & E & Hs & Hm & Hlab & Hl & Hn).
  rewrite E. rewrite py_enumerate_snd in Hs, Hm, Hl.
  eexists. split; [reflexivity|].
  cbn [pr_status pr_reports pr_state pr_pieces pr_placed]. cbv zeta.
  (* the scene before the pieces are made *)
  assert (has_collection "BLK_TMP" (ps_scene st0) = false) as Htmp0.
  { unfold st0. cbn [with_scene ps_scene]. rewrite wipe_collection_has.
    now rewrite String.eqb_refl. }
  assert (forall c, In c colors ->
            collection_objects (pieces_collection c) (ps_scene st0) = []) as Hempty.
  { intros c Hc. apply collection_objects_absent. unfold st0. cbn [with_scene ps_scene].
    rewrite wipe_collection_has, wipe_all_gone by (now apply in_map).
    apply andb_false_r. }
  (* the last wipe finds nothing *)
  assert (ps_scene (if negb (keep_cutters p)
                    then with_scene (wipe_collection "BLK_TMP") st' else st')
          = colors_scene (keep_cutters p) colors (ps_scene st0)) as Hfinal.
  { destruct (keep_cutters p) eqn:Ek; cbn [negb]; [exact Hs|].
    cbn [with_scene ps_scene]. rewrite Hs. apply wipe_collection_absent.
    rewrite colors_scene_has; [exact Htmp0 | | now left].
    intros c _ Heq. symmetry in Heq. now apply pieces_collection_not_tmp in Heq. }
  rewrite Hfinal.
  split; [reflexivity|]. split; [|split; [exact Hm|split; [|split; [exact Hl|split;
    [|split; [|split]]]]]].
  - rewrite (@total_pieces_const R Mesh Xform 21 made).
    + apply (f_equal (@List.length _)) in Hm. rewrite length_map in Hm.
      now rewrite Hm.
    + intros g Hg. apply Hlab in Hg. apply (f_equal (@List.length _)) in Hg.
      now rewrite !length_map in Hg.
  - intros color objs Hin. apply (Hlab _ Hin).
  - intros color placed Hin. apply (Hn _ Hin).
  - intros color Hc. apply colors_scene_collection;
      [apply enabled_colors_NoDup | exact Hc | now apply Hempty].
  - intros other Ho Hc. rewrite colors_scene_has; [|exact Hc | now right].
    unfold st0. cbn [with_scene ps_scene].
    rewrite wipe_collection_has, wipe_all_other_has.
    + replace (String.eqb "BLK_TMP" other) with false; [reflexivity|].
      symmetry. apply String.eqb_neq. congruence.
    + rewrite in_map_iff. intros (c & <- & Hin). now apply (Hc c).
  - intros Ek. rewrite colors_scene_has; [exact Htmp0 | | now left].
    intros c _ Heq. symmetry in Heq. now apply pieces_collection_not_tmp in Heq.
Qed.

End GeneratePiecesTheorems.

(** ** The operator [BLK_OT_ExportSTL] *)

Lemma result_map_raise {A B} (f : A -> result B) (l : list A) (e : exn) :
  result_map f l = Raise e -> exists x, In x l /\ f x = Raise e.
Proof.
  induction l as [|x l IH]; cbn [result_map]; [discriminate|].
  destruct (f x) as [y|e'] eqn:E; cbn [bind].
  - destruct (result_map f l) as [ys|e'']; cbn [bind]; [discriminate|].
    intros H. injection H as ->. destruct (IH eq_refl) as (x' & Hin & Hx).
    exists x'. split; [now right | exact Hx].
  - intros H. injection H as ->. exists x. split; [now left | exact E].
Qed.

(** One export of a list that has objects: the file written, or an
    exception of the environment. *)
Lemma export_stl_objects_outcome (env : ExportEnv) (o : ObjName) (rest : list ObjName)
  (filepath : StlPath) (apply_transforms : bool) :
  match export_stl_objects env (o :: rest) filepath apply_transforms with
  | Ok e =>
      e = {| stl_filepath := filepath; stl_selected := o :: rest; stl_active := o;
             stl_applied := if apply_transforms then o :: rest else [] |}
  | Raise e => raised_by env e
  end.
Proof.
  unfold export_stl_objects, raised_by.
  destruct (os_makedirs env (path_dirs filepath)) as [[]|e] eqn:E1; cbn [bind];
    [|left; eauto].
  destruct (bpy_select env (o :: rest)) as [[]|e] eqn:E2; cbn [bind first_object];
    [|right; left; eauto].
  destruct apply_transforms.
  - destruct (result_map _ (o :: rest)) as [us|e] eqn:E3; cbn [bind].
    + destruct (bpy_export_stl env filepath (o :: rest)) as [[]|e] eqn:E4; cbn [bind];
        [reflexivity | right; right; right; eauto].
    + apply result_map_raise in E3 as (x & _ & Hx).
      destruct (bpy_select env [x]) as [[]|e'] eqn:E5; cbn [bind] in Hx.
      * right; right; left; eauto.
      * injection Hx as ->. right; left; eauto.
  - cbn [bind].
    destruct (bpy_export_stl env filepath (o :: rest)) as [[]|e] eqn:E4; cbn [bind];
      [reflexivity | right; right; right; eauto].
Qed.

Lemma export_and_count_spec (env : ExportEnv) (apply_transforms : bool) (o : ObjName)
  (rest : list ObjName) (filepath : StlPath) (log : ExportLog) :
  log_sound apply_transforms log ->
  export_step env apply_transforms [(filepath, o :: rest)] log
    (export_and_count env (o :: rest) filepath apply_transforms log).
Proof.
  intros [Hn Hs]. unfold export_and_count.
  pose proof (export_stl_objects_outcome env o rest filepath apply_transforms) as H.
  destruct (export_stl_objects env (o :: rest) filepath apply_transforms) as [e|e];
    cbn [bind export_step]; [|exact H].
  subst e. split; [split|]; cbn [fst snd].
  - rewrite length_app, Hn. cbn [List.length]. lia.
  - intros e. rewrite in_app_iff. intros [He|[<-|[]]]; [now apply Hs|].
    split; [now exists rest | reflexivity].
  - unfold export_view. now rewrite map_app.
Qed.

Lemma export_step_nil (env : ExportEnv) (apply_transforms : bool) (log : ExportLog) :
  log_sound apply_transforms log -> export_step env apply_transforms [] log (Ok log).
Proof. intros H. cbn [export_step]. now rewrite app_nil_r. Qed.

Lemma export_for_spec {A} (env : ExportEnv) (apply_transforms : bool)
  (body : A -> ExportLog -> result ExportLog)
  (files_of : A -> list (StlPath * list ObjName)) :
  (forall x log, log_sound apply_transforms log ->
     export_step env apply_transforms (files_of x) log (body x log)) ->
  forall l log, log_sound apply_transforms log ->
    export_step env apply_transforms (flat_map files_of l) log (export_for body l log).
Proof.
  intros Hbody. induction l as [|x l IH]; intros log Hlog.
  - now apply export_step_nil.
  - cbn [export_for flat_map]. pose proof (Hbody x log Hlog) as H1.
    destruct (body x log) as [log1|e]; cbn [bind export_step] in *; [|exact H1].
    destruct H1 as [H1 V1]. pose proof (IH log1 H1) as H2.
    destruct (export_for body l log1) as [log2|e]; cbn [export_step] in *; [|exact H2].
    destruct H2 as [H2 V2]. split; [exact H2|]. now rewrite V2, V1, <- app_assoc.
Qed.

Lemma export_each_spec (env : ExportEnv) (apply_transforms : bool) (dirs : list string)
  (objs : list ObjName) (log : ExportLog) :
  log_sound apply_transforms log ->
  export_step env apply_transforms
    (map (fun obj => ({| path_dirs := dirs; path_stem := Stem_object obj |}, [obj])) objs)
    log
    (export_for (fun obj log =>
                   export_and_count env [obj]
                     {| path_dirs := dirs; path_stem := Stem_object obj |}
                     apply_transforms log) objs log).
Proof.
  intros Hlog.
  replace (map (fun obj => ({| path_dirs := dirs; path_stem := Stem_object obj |}, [obj])) objs)
    with (flat_map (fun obj => [({| path_dirs := dirs; path_stem := Stem_object obj |},
                                 [obj])]) objs).
  - apply export_for_spec; [|exact Hlog].
    intros x log0 H. now apply export_and_count_spec.
  - clear. induction objs as [|o objs IH]; [reflexivity|].
    cbn [flat_map map app]. now rewrite IH.
Qed.

Lemma export_board_tiles_spec {R} (env : ExportEnv) (base_dir : string)
  (p : BLK_Properties R) (sc : Scene) (log : ExportLog) :
  log_sound (apply_transforms p) log ->
  export_step env (apply_transforms p) (tile_files base_dir sc) log
    (export_board_tiles env base_dir p sc log).
Proof.
  intros Hlog. unfold export_board_tiles, tile_files.
  destruct (has_collection "BLK_BOARD" sc) eqn:E.
  - now apply export_each_spec.
  - rewrite (collection_objects_absent _ _ E). now apply export_step_nil.
Qed.

(** The loops of the operator, from the empty log. *)
Lemma export_modes_spec {R} (env : ExportEnv) (base_dir : string)
  (p : BLK_Properties R) (sc : Scene) :
  String.eqb base_dir "" = false ->
  match BLK_OT_ExportSTL_execute env base_dir p sc with
  | Ok (status, reports, files) =>
      status = FINISHED /\
      reports = [(INFO, Report_exported (Z.of_nat (List.length files)) base_dir)] /\
      export_view files = exported_files base_dir p sc /\
      forall e, In e files -> export_sound (apply_transforms p) e
  | Raise e => raised_by env e
  end.
Proof.
  intros Hdir. unfold BLK_OT_ExportSTL_execute. rewrite Hdir.
  assert (log_sound (apply_transforms p) (0, [])) as H0
    by (split; [reflexivity | intros e []]).
  unfold exported_files. destruct (export_mode p).
  - (* PER_PIECE *)
    match goal with
    | |- context [export_for ?body (enabled_colors p) _] =>
        assert (forall x log, log_sound (apply_transforms p) log ->
                  export_step env (apply_transforms p) (piece_files base_dir x sc) log
                    (body x log)) as Hb;
        [|pose proof (@export_for_spec _ env (apply_transforms p) body
                        (fun x => piece_files base_dir x sc) Hb (enabled_colors p)
                        (0, []) H0) as H1;
          destruct (export_for body (enabled_colors p) (0, [])) as [log1|e]]
    end.
    { intros color log Hlog. unfold piece_files.
      destruct (has_collection (pieces_collection color) sc) eqn:E.
      - now apply export_each_spec.
      - rewrite (collection_objects_absent _ _ E). now apply export_step_nil. }
    2: exact H1.
    cbn [bind export_step] in *. destruct H1 as [H1 V1].
    pose proof (export_board_tiles_spec env base_dir p sc H1) as H2.
    destruct (export_board_tiles env base_dir p sc log1) as [log2|e];
      cbn [bind export_step] in *; [|exact H2].
    destruct H2 as [[Hn Hs] V2]. cbn [fst snd].
    split; [reflexivity|]. split; [now rewrite Hn|]. split; [|exact Hs].
    rewrite V2, V1. reflexivity.
  - (* PER_COLOR *)
    match goal with
    | |- context [export_for ?body (enabled_colors p) _] =>
        assert (forall x log, log_sound (apply_transforms p) log ->
                  export_step env (apply_transforms p) (color_files base_dir x sc) log
                    (body x log)) as Hb;
        [|pose proof (@export_for_spec _ env (apply_transforms p) body
                        (fun x => color_files base_dir x sc) Hb (enabled_colors p)
                        (0, []) H0) as H1;
          destruct (export_for body (enabled_colors p) (0, [])) as [log1|e]]
    end.
    { intros color log Hlog. unfold color_files.
      destruct (has_collection (pieces_collection color) sc) eqn:E.
      - destruct (collection_objects (pieces_collection color) sc) as [|o rest].
        + now apply export_step_nil.
        + now apply export_and_count_spec.
      - rewrite (collection_objects_absent _ _ E). now apply export_step_nil. }
    2: exact H1.
    cbn [bind export_step] in *. destruct H1 as [H1 V1].
    pose proof (export_board_tiles_spec env base_dir p sc H1) as H2.
    destruct (export_board_tiles env base_dir p sc log1) as [log2|e];
      cbn [bind export_step] in *; [|exact H2].
    destruct H2 as [[Hn Hs] V2]. cbn [fst snd].
    split; [reflexivity|]. split; [now rewrite Hn|]. split; [|exact Hs].
    rewrite V2, V1. reflexivity.
  - (* BOARD_TILES *)
    pose proof (export_board_tiles_spec env base_dir p sc H0) as H2.
    destruct (export_board_tiles env base_dir p sc (0, [])) as [log2|e];
      cbn [bind export_step] in *; [|exact H2].
    destruct H2 as [[Hn Hs] V2]. cbn [fst snd].
    split; [reflexivity|]. split; [now rewrite Hn|]. split; [|exact Hs].
    rewrite V2. reflexivity.
Qed.

Lemma env_succeeds_raises_nothing (env : ExportEnv) (e : exn) :
  env_succeeds env -> ~ raised_by env e.
Proof.
  intros (H1 & H2 & H3 & H4) [[d E]|[[o E]|[[o E]|[f [o E]]]]];
    rewrite ?H1, ?H2, ?H3, ?H4 in E; discriminate.
Qed.

(** X19: Export STL never indexes an empty list, writes no empty file,
    and writes the board tiles in every mode; what it raises is what the
    file system or Blender raises.  With an empty export directory the
    operator is cancelled with an error, having called nothing.
    Otherwise, for any scene and parameters, either it raises an
    exception that one of its calls of [os.makedirs] or of Blender
    raised (so never the IndexError of [objects[0]] in
    [export_stl_objects], which is only called with objects), or it
    finishes, the number it reports is the number of files written, and
    the files are: in mode BOARD_TILES one per object of BLK_BOARD under
    board/; in mode PER_PIECE one per object of the collection of each
    enabled colour under pieces/<colour in lower case>/, then the board
    tiles; in mode PER_COLOR one per enabled colour whose collection has
    objects, holding them all, under pieces/, then the board tiles.  The
    collection of a disabled colour is not exported.  In every file the
    active object is the first selected, and the transforms of the
    selected objects have been applied exactly if [apply_transforms] is
    set.  When every directory can be made and Blender raises nothing,
    the operator finishes. *)
Theorem export_stl_files :
  forall (R : Type) (env : ExportEnv) (base_dir : string) (p : BLK_Properties R)
         (sc : Scene),
    (if String.eqb base_dir "" then
       BLK_OT_ExportSTL_execute env base_dir p sc
       = Ok (CANCELLED, [(ERROR, Report_no_export_dir)], [])
     else
       match BLK_OT_ExportSTL_execute env base_dir p sc with
       | Ok (status, reports, files) =>
           status = FINISHED /\
           reports = [(INFO, Report_exported (Z.of_nat (List.length files)) base_dir)] /\
           export_view files = exported_files base_dir p sc /\
           forall e, In e files -> export_sound (apply_transforms p) e
       | Raise e => raised_by env e
       end) /\
    (env_succeeds env ->
     exists status reports files,
       BLK_OT_ExportSTL_execute env base_dir p sc = Ok (status, reports, files)).
Proof.
  intros R env base_dir p sc.
  destruct (String.eqb base_dir "") eqn:Hdir.
  - split; [|intros _; do 3 eexists];
      unfold BLK_OT_ExportSTL_execute; rewrite Hdir; reflexivity.
  - pose proof (@export_modes_spec R env base_dir p sc Hdir) as H. split; [exact H|].
    intros Henv.
    destruct (BLK_OT_ExportSTL_execute env base_dir p sc) as [[[status reports] files]|e].
    + now exists status, reports, files.
    + now apply env_succeeds_raises_nothing in H.
Qed.

Lemma export_stl_files_witness :
  exists status reports files,
    BLK_OT_ExportSTL_execute
      {| os_makedirs := fun _ => Ok tt; bpy_select := fun _ => Ok tt;
         bpy_transform_apply := fun _ => Ok tt; bpy_export_stl := fun _ _ => Ok tt |}
      "/tmp/out" (default_params (R:=Q))
      {| data_objects := [Name_BLK_B 0 0];
         data_collections := [("BLK_BOARD"%string, [Name_BLK_B 0 0])];
         scene_children := ["BLK_BOARD"%string]; scene_objects := [] |}
    = Ok (status, reports, files).
Proof.
  apply (proj2 (@export_stl_files Q
                  {| os_makedirs := fun _ => Ok tt; bpy_select := fun _ => Ok tt;
                     bpy_transform_apply := fun _ => Ok tt;
                     bpy_export_stl := fun _ _ => Ok tt |}
                  "/tmp/out" (default_params (R:=Q))
                  {| data_objects := [Name_BLK_B 0 0];
                     data_collections := [("BLK_BOARD"%string, [Name_BLK_B 0 0])];
                     scene_children := ["BLK_BOARD"%string]; scene_objects := [] |})).
  repeat split.
Defined.
